(** * Hare consensus core (package hare3): session scheduler, gossip handler
      and configuration, embedded from [hare3/hare.go].

    The file follows the source top to bottom: the configuration
    ([Config], [CommitteeFor], [Validate], [roundStart]), the gossip
    validator ([Handler]), the per-layer scheduler ([onLayer], [run],
    [onOutput], [selectProposals]) and the layer loop of [Start].

    Go's integers are kept as [Z] with their wrap-around written out
    ([uint8], [uint16], [uint32], [int64] below).  Calls to the external
    collaborators (codec, verifier, oracle, protocol state machine, stores,
    pubsub, patrol) go through the record [Deps]; the mutable state of the
    [Hare] object and of the stores it reads is the record [World]; every call
    that leaves the object is recorded, in program order, in [trace].  Metric
    counters, latency observations and debug or warning log lines are left
    out; the error log lines are kept.

    The second half of [hare3/hare.go] is the conservative-state cache of
    package txs: the per-account list of candidates ([txs.precheck],
    [txs.accept], [txs.addBatch], [txs.getMempool]) and the cache over the
    accounts ([txs.Add], [txs.BuildFromTXs], [txs.GetProjection]).  It is
    embedded in the module [txs]; [NanoTX]'s methods and the state function
    are parameters, and the transactions table is reached through the
    answer it gives. *)

From Stdlib Require Import ZArith List Bool Lia String.
From stdpp Require Import base option list gmap sorting.

Local Open Scope Z_scope.

(** ** Machine integers *)

Definition uint8 (x : Z) : Z := x mod 2 ^ 8.
Definition uint16 (x : Z) : Z := x mod 2 ^ 16.
Definition uint32 (x : Z) : Z := x mod 2 ^ 32.

(** Two's complement 64-bit wrap-around: the arithmetic of [time.Duration]. *)
Definition int64 (x : Z) : Z := (x + 2 ^ 63) mod 2 ^ 64 - 2 ^ 63.

Definition MaxUint32 : Z := 2 ^ 32 - 1.

Definition in_uint8 (x : Z) : Prop := 0 <= x < 2 ^ 8.
Definition in_uint16 (x : Z) : Prop := 0 <= x < 2 ^ 16.
Definition in_uint32 (x : Z) : Prop := 0 <= x < 2 ^ 32.
Definition in_int64 (x : Z) : Prop := - 2 ^ 63 <= x < 2 ^ 63.

(** ** Identifiers and small types *)

(** [types.LayerID] and [types.EpochID] are [uint32]. *)
Definition LayerID := Z.
Definition EpochID := Z.
(** 32-byte identifiers, kept as the number their bytes spell. *)
Definition NodeID := Z.
Definition ATXID := Z.
Definition ProposalID := Z.
Definition Beacon := Z.
(** [types.EmptyBeacon] is the zero value of the type. *)
Definition EmptyBeacon : Beacon := 0.
(** [time.Duration]: nanoseconds in an [int64]. *)
Definition Duration := Z.
(** [time.Time]: an instant, as nanoseconds on the time line. *)
Definition Time := Z.
Definition Time_Add (t : Time) (d : Duration) : Time := t + d.

Definition second : Duration := 1000000000.

(** ** Configuration *)

Record CommitteeUpgrade := {
  Layer : LayerID;
  Size : Z (* uint16 *)
}.

(** The field [Upgrade] is the source's [Config.CommitteeUpgrade] pointer
    ([None] for [nil]); the record above already has that name. *)
Record Config := {
  Enable : bool;
  EnableLayer : LayerID;
  DisableLayer : LayerID;
  Committee : Z;        (* uint16 *)
  Upgrade : option CommitteeUpgrade;
  Leaders : Z;          (* uint16 *)
  IterationsLimit : Z;  (* uint8 *)
  PreroundDelay : Duration;
  RoundDuration : Duration;
  LogStats : bool;
  ProtocolName : string
}.

Definition Config_wf (cfg : Config) : Prop :=
  in_uint32 (EnableLayer cfg) /\ in_uint32 (DisableLayer cfg) /\
  in_uint16 (Committee cfg) /\
  match Upgrade cfg with
  | Some u => in_uint32 (Layer u) /\ in_uint16 (Size u)
  | None => True
  end /\
  in_uint16 (Leaders cfg) /\ in_uint8 (IterationsLimit cfg) /\
  in_int64 (PreroundDelay cfg) /\ in_int64 (RoundDuration cfg).

Record IterRound := {
  Iter : Z;  (* uint8 *)
  Round : Z  (* Round, a uint8 *)
}.

(** Modelled from the spec: the round constant [preround] of hare3/types.go,
    which is not among the sources embedded here.  The spec gives the preround
    absolute index 0;
    [run] starts from [IterRound{Round: preround}] and [roundStart] tests
    [round.Round == 0]. *)
Definition preround : Z := 0.

Definition CommitteeFor (cfg : Config) (layer : LayerID) : Z :=
  match Upgrade cfg with
  | Some u => if Layer u <=? layer then Size u else Committee cfg
  | None => Committee cfg
  end.

Section RoundTable.
(** The remaining round constants of hare3/types.go are not among the sources
    embedded here:
    the number of rounds of one iteration and the index of [hardlock]. *)
Variable rounds_per_iter : Z.
Variable hardlock : Z.

(** Modelled from the spec: [IterRound.Absolute] (hare3/types.go, not
    embedded here): absolute = iter * rounds_per_iter + round_index.  With an
    iteration and a round index that are [uint8] the value is far below
    2^32, so it is kept as the integer the spec gives. *)
Definition Absolute (ir : IterRound) : Z :=
  Iter ir * rounds_per_iter + Round ir.

(** [roundStart] returns expected time for iter/round relative to layer
    start.  The product and the sum are [time.Duration] operations. *)
Definition roundStart (cfg : Config) (round : IterRound) : Duration :=
  if Round round =? 0 then PreroundDelay cfg
  else int64 (PreroundDelay cfg
              + int64 ((Absolute round - 1) * RoundDuration cfg)).

Inductive ValidateError :=
| ErrTerminatesLater (terminates zdist : Duration)
| ErrDisabledLayer (disabled enabled : LayerID).

(** [None] is the source's [nil] error. *)
Definition Validate (cfg : Config) (zdist : Duration) : option ValidateError :=
  let terminates :=
    roundStart cfg {| Iter := IterationsLimit cfg; Round := hardlock |} in
  if zdist <? terminates then Some (ErrTerminatesLater terminates zdist)
  else if Enable cfg && (DisableLayer cfg <=? EnableLayer cfg)
  then Some (ErrDisabledLayer (DisableLayer cfg) (EnableLayer cfg))
  else None.
End RoundTable.

Definition DefaultConfig : Config := {|
  Enable := false;
  EnableLayer := 0;
  DisableLayer := MaxUint32;
  Committee := 800;
  Upgrade := None;
  Leaders := 5;
  IterationsLimit := 4;
  PreroundDelay := 25 * second;
  RoundDuration := 12 * second;
  LogStats := false;
  ProtocolName := "/h/3.0"
|}.

(** ** Messages, sessions and stores *)

Definition bytes := list Byte.byte.

Record HareEligibility := {
  VrfProof : Z;  (* the source's field Proof, the VRF signature *)
  Count : Z   (* uint16 *)
}.

(** The wire message of hare3/types.go (not embedded here), with the fields the
    spec lists; [msgLayer] and [msgIterRound] are the source's [msg.Layer] and
    [msg.IterRound]. *)
Record Message := {
  msgLayer : LayerID;
  msgIterRound : IterRound;
  Value : list ProposalID;
  Eligibility : HareEligibility;
  Sender : NodeID;
  Signature : Z
}.

(** Grades are a small unsigned integer type. *)
Definition grade := Z.
(** Modelled from the spec: the constant [grade0] of the hare3 package (not
    embedded here), the lowest grade g0, whose messages are dropped. *)
Definition grade0 : grade := 0.

Record input := {
  inMessage : Message;
  msgHash : Z;
  malicious : bool;
  atxgrade : grade
}.

Record HareProofMsg := {
  SmesherID : NodeID;
  proofSignature : Z
}.

(** The equivocation proof pairs the two conflicting messages. *)
Record HareProof := {
  Messages : HareProofMsg * HareProofMsg
}.

Record output := {
  coin : option bool;
  result : option (list ProposalID);
  terminated : bool;
  message : option Message
}.

Record ConsensusOutput := {
  coLayer : LayerID;
  Proposals : list ProposalID
}.

Record WeakCoinOutput := {
  wcLayer : LayerID;
  Coin : bool
}.

Record EdSigner := {
  signerNodeID : NodeID;
  signerKey : Z
}.

(** [atxsdata.ATX], the two heights the scheduler reads. *)
Record ATX := {
  BaseHeight : Z;  (* uint64 *)
  Height : Z       (* uint64 *)
}.

Record Proposal := {
  pID : ProposalID;         (* p.ID() *)
  pAtxID : ATXID;           (* p.AtxID *)
  pSmesherID : NodeID;      (* p.SmesherID *)
  pBeacon : Beacon;         (* p.Beacon() *)
  pIsMalicious : bool       (* p.IsMalicious() *)
}.

(** Result of a database read: a row, [sql.ErrNotFound], or another error. *)
Inductive DbResult (A : Type) :=
| Found (a : A)
| ErrNotFound
| DbError.
Arguments Found {A} a.
Arguments ErrNotFound {A}.
Arguments DbError {A}.

(** Errors of [run] and [onOutput]: [CtxErr] is [h.ctx.Err()] of a context
    that is done, the other two are the errors [run] builds itself. *)
Inductive RunError :=
| CtxErr
| ErrTerminatedWithoutResult
| ErrNoConsensus (limit : Z).

(** Errors of [Handler].  The first three are built with
    [fmt.Errorf("%w: ...", pubsub.ErrValidationReject, ...)]; the others with
    a plain [fmt.Errorf] or [errors.New]. *)
Inductive HandlerError :=
| ErrDecoding
| ErrValidation
| ErrNotRegistered (layer : LayerID)
| ErrInvalidSignature
| ErrZeroGrade
| ErrDropped.

(** [errors.Is(err, pubsub.ErrValidationReject)]: does the error wrap the
    transport's reject sentinel. *)
Definition wrapsValidationReject (e : HandlerError) : bool :=
  match e with
  | ErrDecoding | ErrValidation | ErrInvalidSignature => true
  | ErrNotRegistered _ | ErrZeroGrade | ErrDropped => false
  end.

(** Calls that leave the [Hare] object, in the order they are made. *)
Inductive Event :=
| EvDecode (buf : bytes)                      (* codec.Decode *)
| EvMsgValidate (msg : Message)               (* msg.Validate *)
| EvMessageReceived (msg : Message)           (* tracer.OnMessageReceived *)
| EvSessionLookup (layer : LayerID)           (* h.sessions[msg.Layer] *)
| EvVerify (msg : Message)                    (* verifier.Verify *)
| EvIsMalicious (id : NodeID)                 (* atxsdata.IsMalicious *)
| EvOracleValidate (msg : Message)            (* oracle.validate *)
| EvOnInput (layer : LayerID) (i : input)     (* session.OnInput *)
| EvIdentitiesSetMalicious (id : NodeID) (proof : bytes)
| EvAtxsdataSetMalicious (id : NodeID)
| EvReportMessageLatency (round : Z) (expected : Time)
| EvLogError (what : string)
| EvProposalsOnLayer (layer : LayerID)        (* proposals.OnLayer *)
| EvIsSynced                                  (* sync.IsSynced *)
| EvBeaconsGet (epoch : EpochID)              (* beacons.Get *)
| EvSetHareInCharge (layer : LayerID)         (* patrol.SetHareInCharge *)
| EvOnStart (layer : LayerID)                 (* tracer.OnStart *)
| EvCompleteHare (layer : LayerID)            (* patrol.CompleteHare *)
| EvOnStop (layer : LayerID)                  (* tracer.OnStop *)
| EvOnActive (vrfs : list (option HareEligibility))  (* tracer.OnActive *)
| EvWait (walltime : Time)                    (* select on wallClock.After *)
| EvAwaitLayer (layer : LayerID)              (* select on nodeClock.AwaitLayer *)
| EvPublish (topic : string) (msg : Message)  (* pubsub.Publish *)
| EvMessageSent (msg : option Message)        (* tracer.OnMessageSent *)
| EvCoin (c : WeakCoinOutput)                 (* send on h.coins *)
| EvResult (r : ConsensusOutput)              (* send on h.results *)
| EvCtxDone                                   (* a select took <-h.ctx.Done() *)
| EvRegister (topic : string).                (* pubsub.Register *)

(** ** Collaborators *)

(** What the [Hare] object calls but does not own.  [protocol] is the state
    of the protocol state machine (hare3/protocol.go, not embedded here).  The
    three [nat -> bool] fields say how the surroundings answer the k-th call
    of a kind: whether the k-th [select] takes its [<-h.ctx.Done()] case,
    whether the k-th publish returns an error, whether the k-th write to the
    identity store returns an error. *)
Record Deps (protocol : Type) := {
  rounds_per_iter : Z;
  IsMessageRound : IterRound -> bool;
  layersPerEpoch : Z;
  GetEffectiveGenesis : LayerID;
  Decode : bytes -> option Message;
  MsgValidate : Message -> bool;        (* true: msg.Validate() returned nil *)
  Verify : Message -> bool;
  ToHash : Message -> Z;
  oracle_validate : Message -> grade;
  oracle_active : EdSigner -> Beacon -> LayerID -> IterRound -> option HareEligibility;
  Sign : EdSigner -> Message -> Z;
  newProtocol : Z -> protocol;
  protoIterRound : protocol -> IterRound;
  OnInput : protocol -> input -> protocol * (bool * option HareProof);
  OnInitial : protocol -> list ProposalID -> protocol;
  Next : protocol -> protocol * output;
  ToMalfeasanceProof : HareProof -> bytes;
  LayerToTime : LayerID -> Time;
  CurrentLayer : LayerID;
  ctxDone : nat -> bool;
  publishFails : nat -> bool;
  setMaliciousFails : nat -> bool
}.
Arguments rounds_per_iter {protocol}.
Arguments IsMessageRound {protocol}.
Arguments layersPerEpoch {protocol}.
Arguments GetEffectiveGenesis {protocol}.
Arguments Decode {protocol}.
Arguments MsgValidate {protocol}.
Arguments Verify {protocol}.
Arguments ToHash {protocol}.
Arguments oracle_validate {protocol}.
Arguments oracle_active {protocol}.
Arguments Sign {protocol}.
Arguments newProtocol {protocol}.
Arguments protoIterRound {protocol}.
Arguments OnInput {protocol}.
Arguments OnInitial {protocol}.
Arguments Next {protocol}.
Arguments ToMalfeasanceProof {protocol}.
Arguments LayerToTime {protocol}.
Arguments CurrentLayer {protocol}.
Arguments ctxDone {protocol}.
Arguments publishFails {protocol}.
Arguments setMaliciousFails {protocol}.

(** The [Hare] object and the stores it reads. *)
Record World (protocol : Type) := mkWorld {
  config : Config;                                 (* h.config *)
  hsigners : list EdSigner;                        (* maps.Values(h.signers) *)
  sessions : gmap Z protocol;                      (* h.sessions *)
  synced : bool;                                   (* sync.IsSynced *)
  beacons : EpochID -> option Beacon;              (* beacons.Get, None: error *)
  maliciousIDs : gset Z;                           (* atxsdata malicious flags *)
  atxIDs : EpochID -> NodeID -> DbResult ATXID;    (* atxs.GetIDByEpochAndNodeID *)
  atxsdataGet : EpochID -> ATXID -> option ATX;    (* atxsdata.Get *)
  proposalsFor : LayerID -> list Proposal;         (* proposals.GetForLayer *)
  tasks : list LayerID;                            (* session tasks started with h.eg.Go *)
  trace : list Event
}.
Arguments mkWorld {protocol}.
Arguments config {protocol}.
Arguments hsigners {protocol}.
Arguments sessions {protocol}.
Arguments synced {protocol}.
Arguments beacons {protocol}.
Arguments maliciousIDs {protocol}.
Arguments atxIDs {protocol}.
Arguments atxsdataGet {protocol}.
Arguments proposalsFor {protocol}.
Arguments tasks {protocol}.
Arguments trace {protocol}.

Record session (protocol : Type) := mkSession {
  proto : protocol;
  lid : LayerID;
  beacon : Beacon;
  signers : list EdSigner;
  vrfs : list (option HareEligibility)
}.
Arguments mkSession {protocol}.
Arguments proto {protocol}.
Arguments lid {protocol}.
Arguments beacon {protocol}.
Arguments signers {protocol}.
Arguments vrfs {protocol}.

(** ** The state monad of the embedding *)

Definition M (W A : Type) : Type := W -> A * W.
Definition ret {W A} (a : A) : M W A := fun w => (a, w).
Definition bind {W A B} (m : M W A) (k : A -> M W B) : M W B :=
  fun w => let (a, w') := m w in k a w'.

Notation "x <- m ;; k" := (bind m (fun x => k))
  (at level 100, m at next level, k at level 200, right associativity).
Notation "m ;; k" := (bind m (fun _ => k))
  (at level 100, k at level 200, right associativity).

Section Hare.
Context {protocol : Type}.
Variable d : Deps protocol.

Local Abbreviation W := (World protocol).

Definition set_trace (t : list Event) (w : W) : W :=
  mkWorld (config w) (hsigners w) (sessions w) (synced w) (beacons w)
          (maliciousIDs w) (atxIDs w) (atxsdataGet w) (proposalsFor w)
          (tasks w) t.
Definition set_sessions (s : gmap Z protocol) (w : W) : W :=
  mkWorld (config w) (hsigners w) s (synced w) (beacons w)
          (maliciousIDs w) (atxIDs w) (atxsdataGet w) (proposalsFor w)
          (tasks w) (trace w).
Definition set_maliciousIDs (s : gset Z) (w : W) : W :=
  mkWorld (config w) (hsigners w) (sessions w) (synced w) (beacons w)
          s (atxIDs w) (atxsdataGet w) (proposalsFor w)
          (tasks w) (trace w).
Definition set_tasks (t : list LayerID) (w : W) : W :=
  mkWorld (config w) (hsigners w) (sessions w) (synced w) (beacons w)
          (maliciousIDs w) (atxIDs w) (atxsdataGet w) (proposalsFor w)
          t (trace w).

Definition gets {A} (f : W -> A) : M W A := fun w => (f w, w).
Definition emit (e : Event) : M W unit :=
  fun w => (tt, set_trace (trace w ++ [e]) w).
(** How many [select]s, publishes and identity-store writes were made so
    far. *)
Definition isSelect (e : Event) : bool :=
  match e with
  | EvCtxDone | EvWait _ | EvAwaitLayer _ | EvCoin _ | EvResult _ => true
  | _ => false
  end.
Definition isPublish (e : Event) : bool :=
  match e with EvPublish _ _ => true | _ => false end.
Definition isSetMalicious (e : Event) : bool :=
  match e with EvIdentitiesSetMalicious _ _ => true | _ => false end.
Definition countEvents (f : Event -> bool) : M W nat :=
  gets (fun w => length (filter (fun e => f e = true) (trace w))).

Definition GetEpoch (layer : LayerID) : EpochID := layer / layersPerEpoch d.

(** ** Handler *)

Definition lookupSession (layer : LayerID) : M W (option protocol) :=
  emit (EvSessionLookup layer) ;;
  gets (fun w => sessions w !! layer).

Definition IsMalicious (id : NodeID) : M W bool :=
  emit (EvIsMalicious id) ;;
  gets (fun w => bool_decide (id ∈ maliciousIDs w)).

(** [session.OnInput(input)]: the state machine the map points to is
    updated in place. *)
Definition sessionOnInput (layer : LayerID) (p : protocol) (i : input)
  : M W (bool * option HareProof) :=
  emit (EvOnInput layer i) ;;
  let (p', r) := OnInput d p i in
  fun w => (r, set_sessions (<[layer := p']> (sessions w)) w).

(** [identities.SetMalicious]; the result is whether it returned an error. *)
Definition identitiesSetMalicious (id : NodeID) (proof : bytes) : M W bool :=
  n <- countEvents isSetMalicious ;;
  emit (EvIdentitiesSetMalicious id proof) ;;
  ret (setMaliciousFails d n).

Definition atxsdataSetMalicious (id : NodeID) : M W unit :=
  emit (EvAtxsdataSetMalicious id) ;;
  fun w => (tt, set_maliciousIDs ({[id]} ∪ maliciousIDs w) w).

Definition Handler (buf : bytes) : M W (option HandlerError) :=
  emit (EvDecode buf) ;;
  match Decode d buf with
  | None => ret (Some ErrDecoding)
  | Some msg =>
    emit (EvMsgValidate msg) ;;
    if negb (MsgValidate d msg) then ret (Some ErrValidation) else
    emit (EvMessageReceived msg) ;;
    s <- lookupSession (msgLayer msg) ;;
    match s with
    | None => ret (Some (ErrNotRegistered (msgLayer msg)))
    | Some session =>
      emit (EvVerify msg) ;;
      if negb (Verify d msg) then ret (Some ErrInvalidSignature) else
      malicious <- IsMalicious (Sender msg) ;;
      emit (EvOracleValidate msg) ;;
      let g := oracle_validate d msg in
      if g =? grade0 then ret (Some ErrZeroGrade) else
      let input := {| inMessage := msg; msgHash := ToHash d msg;
                      malicious := malicious; atxgrade := g |} in
      r <- sessionOnInput (msgLayer msg) session input ;;
      let (gossip, equivocation) := r in
      match equivocation with
      | Some e =>
        if negb malicious then
          let id := SmesherID (fst (Messages e)) in
          failed <- identitiesSetMalicious id (ToMalfeasanceProof d e) ;;
          (if failed then emit (EvLogError "failed to save malicious identity")
           else ret tt) ;;
          atxsdataSetMalicious id
        else ret tt
      | None => ret tt
      end ;;
      if negb gossip then ret (Some ErrDropped) else
      cfg <- gets config ;;
      let expected :=
        Time_Add (LayerToTime d (msgLayer msg))
                 (roundStart (rounds_per_iter d) cfg (msgIterRound msg)) in
      emit (EvReportMessageLatency (Round (msgIterRound msg)) expected) ;;
      ret None
    end
  end.

(** ** selectProposals *)

(** The loop over the session's signers that finds the local ATX of least
    height; the outer [None] is the early [return []types.ProposalID{}]. *)
Fixpoint minATX (w : W) (target publish : EpochID) (ss : list EdSigner)
         (min : option ATX) : option (option ATX) :=
  match ss with
  | [] => Some min
  | signer :: ss' =>
    match atxIDs w publish (signerNodeID signer) with
    | ErrNotFound => minATX w target publish ss' min
    | DbError => None
    | Found atxid =>
      let own := atxsdataGet w target atxid in
      let min' :=
        match min with
        | None => own
        | Some m =>
          match own with
          | Some o => if Height o <? Height m then own else min
          | None => min
          end
        end in
      minATX w target publish ss' min'
    end
  end.

(** [atxs[p.AtxID]++] over the candidates; a missing key reads 0. *)
Definition countATXs (candidates : list Proposal) : gmap Z Z :=
  fold_left (fun (m : gmap Z Z) p =>
               <[pAtxID p := default 0 (m !! pAtxID p) + 1]> m)
            candidates ∅.

(** The second loop over the candidates; [None] is the early return of the
    empty list when an ATX is not loaded. *)
Fixpoint filterProposals (w : W) (target : EpochID) (atxs : gmap Z Z)
         (min : ATX) (b : Beacon) (candidates : list Proposal)
         (result : list ProposalID) : option (list ProposalID) :=
  match candidates with
  | [] => Some result
  | p :: ps =>
    if bool_decide (pSmesherID p ∈ maliciousIDs w) || pIsMalicious p
    then filterProposals w target atxs min b ps result
    else if 1 <? default 0 (atxs !! pAtxID p)
    then filterProposals w target atxs min b ps result
    else
      match atxsdataGet w target (pAtxID p) with
      | None => None
      | Some header =>
        if Height min <=? BaseHeight header
        then filterProposals w target atxs min b ps result
        else if pBeacon p =? b
        then filterProposals w target atxs min b ps (result ++ [pID p])
        else filterProposals w target atxs min b ps result
      end
  end.

Definition selectProposals (w : W) (s : session protocol) : list ProposalID :=
  let target := GetEpoch (lid s) in
  let publish := uint32 (target - 1) in
  match minATX w target publish (signers s) None with
  | None => []
  | Some None => []
  | Some (Some min) =>
    let candidates := proposalsFor w (lid s) in
    let atxs := countATXs candidates in
    match filterProposals w target atxs min (beacon s) candidates [] with
    | None => []
    | Some result => result
    end
  end.

(** ** onOutput *)

(** A [select] between [<-h.ctx.Done()] and another case; [true] when the
    done case is taken, otherwise the other case happens. *)
Definition selectCtx (other : Event) : M W bool :=
  n <- countEvents isSelect ;;
  if ctxDone d n then emit EvCtxDone ;; ret true
  else emit other ;; ret false.

(** [h.pubsub.Publish]; the result is whether it returned an error. *)
Definition Publish (topic : string) (msg : Message) : M W bool :=
  n <- countEvents isPublish ;;
  emit (EvPublish topic msg) ;;
  ret (publishFails d n).

(** The copy of the round's message a signer publishes: layer,
    eligibility and sender filled in, then signed. *)
Definition signedMessage (layer : LayerID) (signer : EdSigner)
           (v : HareEligibility) (m : Message) : Message :=
  let msg := {| msgLayer := layer; msgIterRound := msgIterRound m;
                Value := Value m; Eligibility := v;
                Sender := signerNodeID signer;
                Signature := Signature m |} in
  {| msgLayer := layer; msgIterRound := msgIterRound m;
     Value := Value m; Eligibility := v;
     Sender := signerNodeID signer;
     Signature := Sign d signer msg |}.

(** The loop [for i, vrf := range session.vrfs] with [session.signers[i]]
    read alongside; [onLayer] allocates both slices with the same length, so
    the read is in range. *)
Fixpoint publishAll (topic : string) (layer : LayerID)
         (ss : list EdSigner) (vs : list (option HareEligibility))
         (out : output) {struct vs} : M W unit :=
  match vs, ss with
  | vrf :: vs', signer :: ss' =>
    match vrf, message out with
    | Some v, Some m =>
      failed <- Publish topic (signedMessage layer signer v m) ;;
      if failed then emit (EvLogError "failed to publish") else ret tt
    | _, _ => ret tt
    end ;;
    publishAll topic layer ss' vs' out
  | _, _ => ret tt
  end.

Definition onOutput (s : session protocol) (ir : IterRound) (out : output)
  : M W (option RunError) :=
  cfg <- gets config ;;
  publishAll (ProtocolName cfg) (lid s) (signers s) (vrfs s) out ;;
  emit (EvMessageSent (message out)) ;;
  cancelled <- match coin out with
               | Some c => selectCtx (EvCoin {| wcLayer := lid s; Coin := c |})
               | None => ret false
               end ;;
  if cancelled then ret (Some CtxErr) else
  cancelled <- match result out with
               | Some r =>
                 selectCtx (EvResult {| coLayer := lid s; Proposals := r |})
               | None => ret false
               end ;;
  if cancelled then ret (Some CtxErr) else
  ret None.

(** ** run *)

(** [for i := range session.signers { session.vrfs[i] = f(signers[i]) }]:
    the slots are written in place, slot by slot.  Writing past the end of
    [vrfs] is a run-time panic in the source and changes nothing here; it
    does not happen for the sessions of [onLayer], which have a slot for each
    signer. *)
Fixpoint setVrfs (f : EdSigner -> option HareEligibility) (i : nat)
         (ss : list EdSigner) (vs : list (option HareEligibility))
  : list (option HareEligibility) :=
  match ss with
  | [] => vs
  | signer :: ss' => setVrfs f (S i) ss' (<[i := f signer]> vs)
  end.

Definition set_vrfs (vs : list (option HareEligibility))
           (s : session protocol) : session protocol :=
  mkSession (proto s) (lid s) (beacon s) (signers s) vs.
Definition set_proto (p : protocol) (s : session protocol)
  : session protocol :=
  mkSession p (lid s) (beacon s) (signers s) (vrfs s).

(** A call that mutates [session.proto]: the object is the one
    [h.sessions] points to, so the registry sees the new state too. *)
Definition storeProto (s : session protocol) (p : protocol)
  : M W (session protocol) :=
  fun w => (set_proto p s, set_sessions (<[lid s := p]> (sessions w)) w).

(** What one pass of the [for] loop of [run] does: go round again or
    return. *)
Inductive LoopResult :=
| Continue (s : session protocol) (walltime : Time) (got : bool)
| Return (err : option RunError).

Definition runRound (s : session protocol) (walltime : Time) (got : bool)
  : M W LoopResult :=
  cfg <- gets config ;;
  let walltime := Time_Add walltime (RoundDuration cfg) in
  let current := protoIterRound d (proto s) in
  let s := set_vrfs
             (setVrfs (fun signer =>
                         if IsMessageRound d current
                         then oracle_active d signer (beacon s) (lid s) current
                         else None) 0 (signers s) (vrfs s)) s in
  emit (EvOnActive (vrfs s)) ;;
  cancelled <- selectCtx (EvWait walltime) ;;
  if cancelled then ret (Return None) else
  let (p, out) := Next d (proto s) in
  s <- storeProto s p ;;
  let got := match result out with Some _ => true | None => got end in
  err <- onOutput s current out ;;
  match err with
  | Some e => ret (Return (Some e))
  | None =>
    if terminated out then
      if negb got then ret (Return (Some ErrTerminatedWithoutResult))
      else ret (Return None)
    else if Iter current =? IterationsLimit cfg
    then ret (Return (Some (ErrNoConsensus (IterationsLimit cfg))))
    else ret (Continue s walltime got)
  end.

(** The outcome of a task observed for a bounded number of loop rounds. *)
Inductive Outcome :=
| Running
| Returned (err : option RunError).

Fixpoint runLoop (rounds : nat) (s : session protocol) (walltime : Time)
         (got : bool) : M W Outcome :=
  match rounds with
  | O => ret Running
  | S n =>
    r <- runRound s walltime got ;;
    match r with
    | Continue s' walltime' got' => runLoop n s' walltime' got'
    | Return err => ret (Returned err)
    end
  end.

(** [run] up to its [for] loop: the preround.  The result is the error
    returned before the loop, or the session and the wall time the loop
    starts from. *)
Definition runStart (s : session protocol)
  : M W (RunError + session protocol * Time) :=
  cfg <- gets config ;;
  let current := {| Iter := 0; Round := preround |} in
  let f := fun signer => oracle_active d signer (beacon s) (lid s) current in
  let s := set_vrfs (setVrfs f 0 (signers s) (vrfs s)) s in
  let active := existsb (fun signer => bool_decide (is_Some (f signer)))
                        (signers s) in
  emit (EvOnActive (vrfs s)) ;;
  let walltime := Time_Add (LayerToTime d (lid s)) (PreroundDelay cfg) in
  pre <- (if active then
            cancelled <- selectCtx (EvWait walltime) ;;
            if cancelled then ret (inl CtxErr) else
            proposals <- gets (fun w => selectProposals w s) ;;
            s <- storeProto s (OnInitial d (proto s) proposals) ;;
            ret (inr s)
          else ret (inr s)) ;;
  match pre with
  | inl e => ret (inl e)
  | inr s =>
    let (p, out) := Next d (proto s) in
    s <- storeProto s p ;;
    err <- onOutput s current out ;;
    match err with
    | Some e => ret (inl e)
    | None => ret (inr (s, walltime))
    end
  end.

Definition run (rounds : nat) (s : session protocol) : M W Outcome :=
  pre <- runStart s ;;
  match pre with
  | inl e => ret (Returned (Some e))
  | inr (s, walltime) => runLoop rounds s walltime false
  end.

(** ** onLayer *)

(** The body of the task [onLayer] hands to [h.eg.Go]. *)
Definition sessionTask (rounds : nat) (s : session protocol) : M W Outcome :=
  r <- run rounds s ;;
  match r with
  | Running => ret Running
  | Returned err =>
    match err with
    | Some _ => emit (EvCompleteHare (lid s))
    | None => ret tt
    end ;;
    (fun w => (tt, set_sessions (delete (lid s) (sessions w)) w)) ;;
    emit (EvOnStop (lid s)) ;;
    ret (Returned err)
  end.

(** The result is the session whose task was started, [None] when the
    function returned before creating one. *)
Definition onLayer (layer : LayerID) : M W (option (session protocol)) :=
  emit (EvProposalsOnLayer layer) ;;
  emit EvIsSynced ;;
  isSynced <- gets synced ;;
  if negb isSynced then ret None else
  emit (EvBeaconsGet (GetEpoch layer)) ;;
  b <- gets (fun w => beacons w (GetEpoch layer)) ;;
  match b with
  | None => ret None
  | Some beacon =>
    if beacon =? EmptyBeacon then ret None else
    emit (EvSetHareInCharge layer) ;;
    cfg <- gets config ;;
    hs <- gets hsigners ;;
    let s := {| lid := layer;
                beacon := beacon;
                signers := hs;
                vrfs := replicate (length hs) None;
                proto := newProtocol d (uint16 (CommitteeFor cfg layer / 2 + 1)) |} in
    (fun w => (tt, set_sessions (<[layer := proto s]> (sessions w)) w)) ;;
    emit (EvOnStart layer) ;;
    (fun w => (tt, set_tasks (tasks w ++ [layer]) w)) ;;
    ret (Some s)
  end.

(** ** Start *)

(** [for next := enabled; next < disabled; next++], for at most [n]
    layers. *)
Fixpoint layerLoop (n : nat) (next disabled : LayerID) : M W unit :=
  match n with
  | O => ret tt
  | S n' =>
    if next <? disabled then
      cancelled <- selectCtx (EvAwaitLayer next) ;;
      if cancelled then ret tt else
      onLayer next ;;
      layerLoop n' (uint32 (next + 1)) disabled
    else ret tt
  end.

Definition StartEnabled (cfg : Config) : LayerID :=
  let current := uint32 (CurrentLayer d + 1) in
  Z.max (Z.max current (EnableLayer cfg)) (uint32 (GetEffectiveGenesis d + 1)).

Definition StartDisabled (cfg : Config) : LayerID :=
  if 0 <? DisableLayer cfg then DisableLayer cfg else MaxUint32.

(** The loop is itself a task of [h.eg]; it is run here to its end, which
    takes at most [disabled - enabled] passes. *)
Definition Start : M W unit :=
  cfg <- gets config ;;
  emit (EvRegister (ProtocolName cfg)) ;;
  let enabled := StartEnabled cfg in
  let disabled := StartDisabled cfg in
  layerLoop (Z.to_nat (disabled - enabled)) enabled disabled.
End Hare.

Arguments Continue {protocol}.
Arguments Return {protocol}.

(** ** A small instance

    A toy state machine and toy stores, to run the definitions on.  The round
    table is the usual one of the protocol: preround 0, hardlock 1,
    softlock 2, propose 3, wait1 4, wait2 5, commit 6, notify 7, seven rounds
    an iteration. *)
Module Toy.

Record protocol := {
  toyIterRound : IterRound;
  toyThreshold : Z;
  toySeen : list (NodeID * Z);   (* sender and hash of the messages seen *)
  toyStubborn : bool             (* never reaches a result *)
}.

Definition seenHash (sender : NodeID) (seen : list (NodeID * Z)) : option Z :=
  snd <$> List.find (fun x => fst x =? sender) seen.

(** A second, different message of a sender is an equivocation; the proof
    pairs the two. *)
Definition toyOnInput (p : protocol) (i : input)
  : protocol * (bool * option HareProof) :=
  let sender := Sender (inMessage i) in
  match seenHash sender (toySeen p) with
  | Some h =>
    if h =? msgHash i then (p, (false, None))
    else (p, (true,
              Some {| Messages :=
                        ({| SmesherID := sender; proofSignature := h |},
                         {| SmesherID := sender;
                            proofSignature := msgHash i |}) |}))
  | None =>
    ({| toyIterRound := toyIterRound p; toyThreshold := toyThreshold p;
        toySeen := (sender, msgHash i) :: toySeen p;
        toyStubborn := toyStubborn p |}, (true, None))
  end.

Definition nextRound (ir : IterRound) : IterRound :=
  if Round ir =? 0 then {| Iter := Iter ir; Round := 2 |}
  else if Round ir =? 7 then {| Iter := Iter ir + 1; Round := 1 |}
  else {| Iter := Iter ir; Round := Round ir + 1 |}.

(** The result comes out of the notify round; the machine reports
    terminated one round later. *)
Definition toyNext (p : protocol) : protocol * output :=
  let ir := toyIterRound p in
  let p' := {| toyIterRound := nextRound ir; toyThreshold := toyThreshold p;
               toySeen := toySeen p; toyStubborn := toyStubborn p |} in
  let msg := {| msgLayer := 0; msgIterRound := ir; Value := [];
                Eligibility := {| VrfProof := 0; Count := 0 |};
                Sender := 0; Signature := 0 |} in
  (p', {| coin := if Round ir =? 2 then Some true else None;
          result := if (Round ir =? 7) && negb (toyStubborn p)
                    then Some [] else None;
          terminated := (Round ir =? 1) && (0 <? Iter ir)
                        && negb (toyStubborn p);
          message := if (Round ir =? 0) || (Round ir =? 3) || (Round ir =? 6)
                        || (Round ir =? 7)
                     then Some msg else None |}).

Definition decode (buf : bytes) : option Message :=
  match buf with
  | [layer; round; sender; sig] =>
    Some {| msgLayer := Z.of_N (Byte.to_N layer);
            msgIterRound := {| Iter := 0; Round := Z.of_N (Byte.to_N round) |};
            Value := [];
            Eligibility := {| VrfProof := 0; Count := 1 |};
            Sender := Z.of_N (Byte.to_N sender);
            Signature := Z.of_N (Byte.to_N sig) |}
  | _ => None
  end.

Definition deps (stubborn : bool) (done fails : nat -> bool) : Deps protocol := {|
  rounds_per_iter := 7;
  IsMessageRound := fun ir => (Round ir =? 0) || (Round ir =? 3)
                              || (Round ir =? 6) || (Round ir =? 7);
  layersPerEpoch := 10;
  GetEffectiveGenesis := 3;
  Decode := decode;
  MsgValidate := fun m => Round (msgIterRound m) <=? 7;
  Verify := fun m => negb (Signature m =? 0);
  ToHash := Signature;
  oracle_validate := fun m => if Round (msgIterRound m) =? 5 then 0 else 3;
  oracle_active := fun signer _ _ _ =>
                     if signerKey signer =? 0 then None
                     else Some {| VrfProof := signerKey signer; Count := 1 |};
  Sign := fun signer m => signerKey signer + msgLayer m;
  newProtocol := fun threshold =>
                   {| toyIterRound := {| Iter := 0; Round := 0 |};
                      toyThreshold := threshold; toySeen := [];
                      toyStubborn := stubborn |};
  protoIterRound := toyIterRound;
  OnInput := toyOnInput;
  OnInitial := fun p _ => p;
  Next := toyNext;
  ToMalfeasanceProof := fun _ => [];
  LayerToTime := fun l => l * 300 * second;
  CurrentLayer := 20;
  ctxDone := done;
  publishFails := fails;
  setMaliciousFails := fails
|}.

Definition never : nat -> bool := fun _ => false.

Definition atx5 : ATX := {| BaseHeight := 5; Height := 10 |}.
Definition atx7 : ATX := {| BaseHeight := 7; Height := 20 |}.

(** Signer 1 has the ATX 100 (base height 5, height 10); the proposal 500
    of smesher 2 points to the ATX 200 (base height 7, height 20). *)
Definition world : World protocol := {|
  config := DefaultConfig;
  hsigners := [ {| signerNodeID := 1; signerKey := 11 |};
                {| signerNodeID := 3; signerKey := 0 |} ];
  sessions := ∅;
  synced := true;
  beacons := fun e => if e =? 2 then Some 77 else None;
  maliciousIDs := ∅;
  atxIDs := fun e id => if (e =? 1) && (id =? 1) then Found 100 else ErrNotFound;
  atxsdataGet := fun e a => if a =? 100 then Some atx5
                            else if a =? 200 then Some atx7 else None;
  proposalsFor := fun l => if l =? 21
                           then [ {| pID := 500; pAtxID := 200; pSmesherID := 2;
                                     pBeacon := 77; pIsMalicious := false |} ]
                           else [];
  tasks := [];
  trace := []
|}.

Definition d0 : Deps protocol := deps false never never.

(** The session [onLayer] makes for layer 21. *)
Definition session21 : session protocol := {|
  proto := newProtocol d0 401;
  lid := 21;
  beacon := 77;
  signers := hsigners world;
  vrfs := [None; None]
|}.

(** The world once layer 21 has its session. *)
Definition world21 : World protocol := snd (onLayer d0 21 world).

(** A message for layer 21: round, sender and signature. *)
Definition buf (round sender sig : Byte.byte) : bytes :=
  [Byte.x15; round; sender; sig].

(** A node whose state machine never reaches a result and whose context
    is done when the second [select] is reached: the wait of the first
    round of the loop. *)
Definition dCancel : Deps protocol :=
  deps true (fun n => Nat.eqb n 1) never.

Definition sessionCancel : session protocol := {|
  proto := newProtocol dCancel 401;
  lid := 21;
  beacon := 77;
  signers := hsigners world;
  vrfs := [None; None]
|}.

Definition worldCancel : World protocol := snd (onLayer dCancel 21 world).

(** The same state machine with a context that is never done. *)
Definition dStubborn : Deps protocol := deps true never never.

(** An enabled configuration whose disable layer is below its enable
    layer. *)
Definition configDisabledBelow : Config := {|
  Enable := true; EnableLayer := 10; DisableLayer := 5;
  Committee := 800; Upgrade := None; Leaders := 5;
  IterationsLimit := 4; PreroundDelay := 25 * second;
  RoundDuration := 12 * second; LogStats := false;
  ProtocolName := "/h/3.0"
|}.

(** A node all of whose publishes fail, a session whose first signer is
    eligible, and a round output with a message and a coin. *)
Definition dFailing : Deps protocol := deps false never (fun _ => true).

Definition sessionActive : session protocol := {|
  proto := newProtocol d0 401;
  lid := 21;
  beacon := 77;
  signers := hsigners world;
  vrfs := [Some {| VrfProof := 11; Count := 1 |}; None]
|}.

Definition outCoin : output := {|
  coin := Some true;
  result := None;
  terminated := false;
  message := Some {| msgLayer := 0; msgIterRound := {| Iter := 0; Round := 3 |};
                     Value := []; Eligibility := {| VrfProof := 0; Count := 0 |};
                     Sender := 0; Signature := 0 |}
|}.

(** A world configured to stop before layer 24. *)
Definition worldLast : World protocol := {|
  config := {| Enable := true; EnableLayer := 5; DisableLayer := 24;
               Committee := 800;
               Upgrade := Some {| Layer := 22; Size := 600 |};
               Leaders := 5; IterationsLimit := 4;
               PreroundDelay := 25 * second; RoundDuration := 12 * second;
               LogStats := false; ProtocolName := "/h/3.0" |};
  hsigners := hsigners world;
  sessions := ∅;
  synced := true;
  beacons := beacons world;
  maliciousIDs := ∅;
  atxIDs := atxIDs world;
  atxsdataGet := atxsdataGet world;
  proposalsFor := proposalsFor world;
  tasks := [];
  trace := []
|}.

(** The world after smesher 9 sent a first message in round 3. *)
Definition world21_seen9 : World protocol :=
  snd (Handler d0 (buf Byte.x03 Byte.x09 Byte.x01) world21).

End Toy.

(** ** Observations on traces *)

(** The calls made between two states of the world. *)
Definition newEvents {protocol : Type} (w w' : World protocol) : list Event :=
  drop (length (trace w)) (trace w').

(** The steps of the gossip validator. *)
Inductive Stage := SDecode | SValidate | SLookup | SVerify | SGrade.

Definition stageOf (e : Event) : option Stage :=
  match e with
  | EvDecode _ => Some SDecode
  | EvMsgValidate _ => Some SValidate
  | EvSessionLookup _ => Some SLookup
  | EvVerify _ => Some SVerify
  | EvOracleValidate _ => Some SGrade
  | _ => None
  end.

Definition stages (t : list Event) : list Stage := omap stageOf t.

(** Proofs written to the identity store, identities flagged in the ATX
    data, expected arrival times handed to the latency metric. *)
Definition persisted (t : list Event) : list (NodeID * bytes) :=
  omap (fun e => match e with
                 | EvIdentitiesSetMalicious id proof => Some (id, proof)
                 | _ => None
                 end) t.

Definition flagged (t : list Event) : list NodeID :=
  omap (fun e => match e with
                 | EvAtxsdataSetMalicious id => Some id
                 | _ => None
                 end) t.

Definition latencyReports (t : list Event) : list Time :=
  omap (fun e => match e with
                 | EvReportMessageLatency _ expected => Some expected
                 | _ => None
                 end) t.

(** Layers completed through the patrol, layers handed to [onLayer],
    messages published, coins and results delivered, error log lines. *)
Definition completed (t : list Event) : list LayerID :=
  omap (fun e => match e with EvCompleteHare l => Some l | _ => None end) t.

Definition onLayerCalls (t : list Event) : list LayerID :=
  omap (fun e => match e with EvProposalsOnLayer l => Some l | _ => None end) t.

Definition published (t : list Event) : list Message :=
  omap (fun e => match e with EvPublish _ m => Some m | _ => None end) t.

Definition delivered (t : list Event) : list Event :=
  omap (fun e => match e with
                 | EvCoin _ | EvResult _ => Some e
                 | _ => None
                 end) t.

Definition isLogError (e : Event) : bool :=
  match e with EvLogError _ => true | _ => false end.

Definition ctxDoneTaken (t : list Event) : bool :=
  existsb (fun e => match e with EvCtxDone => true | _ => false end) t.

(** The input [Handler] hands to the state machine for a message. *)
Definition handlerInput {protocol : Type} (d : Deps protocol)
           (w : World protocol) (msg : Message) : input :=
  {| inMessage := msg; msgHash := ToHash d msg;
     malicious := bool_decide (Sender msg ∈ maliciousIDs w);
     atxgrade := oracle_validate d msg |}.

(** The calls every message makes that gets as far as the state machine. *)
Definition handledPrefix {protocol : Type} (d : Deps protocol)
           (w : World protocol) (buf : bytes) (msg : Message) : list Event :=
  [EvDecode buf; EvMsgValidate msg; EvMessageReceived msg;
   EvSessionLookup (msgLayer msg); EvVerify msg; EvIsMalicious (Sender msg);
   EvOracleValidate msg; EvOnInput (msgLayer msg) (handlerInput d w msg)].

(** The ATXs the first loop of [selectProposals] looks at: for each signer
    the ATX registered for the publish epoch, when the ATX data has it. *)
Definition ownATXs {protocol : Type} (w : World protocol)
           (target publish : EpochID) (ss : list EdSigner) : list ATX :=
  omap (fun signer =>
          match atxIDs w publish (signerNodeID signer) with
          | Found atxid => atxsdataGet w target atxid
          | _ => None
          end) ss.

(** The ATXs of the session's own signers. *)
Definition localATXs {protocol : Type} (d : Deps protocol)
           (w : World protocol) (s : session protocol) : list ATX :=
  let target := GetEpoch d (lid s) in
  ownATXs w target (uint32 (target - 1)) (signers s).

(** What the second loop of [selectProposals] lets through. *)
Definition passes {protocol : Type} (w : World protocol) (target : EpochID)
           (atxs : gmap Z Z) (min : ATX) (b : Beacon) (p : Proposal) : Prop :=
  (pSmesherID p ∉ maliciousIDs w) /\ pIsMalicious p = false
  /\ default 0 (atxs !! pAtxID p) <= 1
  /\ (exists header, atxsdataGet w target (pAtxID p) = Some header
                     /\ BaseHeight header < Height min)
  /\ pBeacon p = b.

(** [d] with another answer to "does the k-th publish fail". *)
Definition withPublishFails {protocol : Type} (fails : nat -> bool)
           (d : Deps protocol) : Deps protocol := {|
  rounds_per_iter := rounds_per_iter d;
  IsMessageRound := IsMessageRound d;
  layersPerEpoch := layersPerEpoch d;
  GetEffectiveGenesis := GetEffectiveGenesis d;
  Decode := Decode d;
  MsgValidate := MsgValidate d;
  Verify := Verify d;
  ToHash := ToHash d;
  oracle_validate := oracle_validate d;
  oracle_active := oracle_active d;
  Sign := Sign d;
  newProtocol := newProtocol d;
  protoIterRound := protoIterRound d;
  OnInput := OnInput d;
  OnInitial := OnInitial d;
  Next := Next d;
  ToMalfeasanceProof := ToMalfeasanceProof d;
  LayerToTime := LayerToTime d;
  CurrentLayer := CurrentLayer d;
  ctxDone := ctxDone d;
  publishFails := fails;
  setMaliciousFails := setMaliciousFails d
|}.

(** How many events of a kind a trace holds. *)
Definition count (f : Event -> bool) (t : list Event) : nat :=
  length (filter (fun e => f e = true) t).

(** The messages a round publishes: one for each signer that is eligible,
    when the round has a message. *)
Fixpoint outgoing {protocol : Type} (d : Deps protocol) (layer : LayerID)
         (ss : list EdSigner) (vs : list (option HareEligibility))
         (out : output) {struct vs} : list Message :=
  match vs, ss with
  | vrf :: vs', signer :: ss' =>
    match vrf, message out with
    | Some v, Some m => [signedMessage d layer signer v m]
    | _, _ => []
    end ++ outgoing d layer ss' vs' out
  | _, _ => []
  end.

(** The signers whose eligibility slot is filled. *)
Fixpoint eligibleSigners (ss : list EdSigner)
         (vs : list (option HareEligibility)) {struct vs} : list EdSigner :=
  match vs, ss with
  | vrf :: vs', signer :: ss' =>
    match vrf with
    | Some _ => signer :: eligibleSigners ss' vs'
    | None => eligibleSigners ss' vs'
    end
  | _, _ => []
  end.

(** The calls that publishing a list of messages makes, the first of them
    being the n-th publish: each publish, and a log line after each one that
    fails. *)
Fixpoint publishEvents {protocol : Type} (d : Deps protocol) (topic : string)
         (n : nat) (msgs : list Message) : list Event :=
  match msgs with
  | [] => []
  | m :: ms =>
    EvPublish topic m
    :: (if publishFails d n then [EvLogError "failed to publish"] else [])
       ++ publishEvents d topic (S n) ms
  end.

(** The two cancellation-aware sends of [onOutput], the first of them being
    the n-th [select]: the error returned and the sends made. *)
Definition resultSelect {protocol : Type} (d : Deps protocol) (n : nat)
           (layer : LayerID) (out : output) : option RunError * list Event :=
  match result out with
  | Some r =>
    if ctxDone d n then (Some CtxErr, [EvCtxDone])
    else (None, [EvResult {| coLayer := layer; Proposals := r |}])
  | None => (None, [])
  end.

Definition outputSelects {protocol : Type} (d : Deps protocol) (n : nat)
           (layer : LayerID) (out : output) : option RunError * list Event :=
  match coin out with
  | Some c =>
    if ctxDone d n then (Some CtxErr, [EvCtxDone])
    else let (err, evs) := resultSelect d (S n) layer out in
         (err, EvCoin {| wcLayer := layer; Coin := c |} :: evs)
  | None => resultSelect d n layer out
  end.

(** How many of the k publishes that start with the n-th one fail. *)
Fixpoint failedPublishes {protocol : Type} (d : Deps protocol) (n k : nat) : nat :=
  match k with
  | O => O
  | S k' => ((if publishFails d n then 1 else 0) + failedPublishes d (S n) k')%nat
  end.

(** The results sent on the results channel. *)
Definition results (t : list Event) : list ConsensusOutput :=
  omap (fun e => match e with EvResult r => Some r | _ => None end) t.

(** A state of the [for] loop of [run]: the session, the wall time, whether
    a round had a result, and the world. *)
Definition LoopState (protocol : Type) : Type :=
  session protocol * Time * bool * World protocol.

(** [LoopReaches d x y]: the loop started in state [x] is in state [y] after
    some rounds, none of which returned. *)
Inductive LoopReaches {protocol : Type} (d : Deps protocol)
  : LoopState protocol -> LoopState protocol -> Prop :=
| reaches_here (x : LoopState protocol) : LoopReaches d x x
| reaches_round s walltime got w s' walltime' got' w' (y : LoopState protocol) :
    runRound d s walltime got w = (Continue s' walltime' got', w') ->
    LoopReaches d (s', walltime', got', w') y ->
    LoopReaches d (s, walltime, got, w) y.

(** A computation that only appends events satisfying [P] to the trace. *)
Definition emitsOnly {protocol A : Type} (P : Event -> bool)
           (m : M (World protocol) A) : Prop :=
  forall w, exists evs,
    trace (snd (m w)) = trace w ++ evs /\ forallb P evs = true.

Definition notCompleteHare (e : Event) : bool :=
  match e with EvCompleteHare _ => false | _ => true end.

(** Did the round have a result, before or now. *)
Definition gotResult (got : bool) (out : output) : bool :=
  match result out with Some _ => true | None => got end.

(** The eligibility slots of a round of the loop of [run]. *)
Definition roundVrfs {protocol : Type} (d : Deps protocol)
           (s : session protocol) : list (option HareEligibility) :=
  let current := protoIterRound d (proto s) in
  setVrfs (fun signer =>
             if IsMessageRound d current
             then oracle_active d signer (beacon s) (lid s) current
             else None) 0 (signers s) (vrfs s).

(** ** The registry of sessions *)

(** [Hare.Running]: the number of sessions in the registry ([Running] is
    already an outcome of a task here). *)
Definition HareRunning {protocol : Type} (w : World protocol) : nat :=
  size (sessions w).

(** [w'] differs from [w] at most in the registry entry of layer [l] and in
    the trace, which has only grown. *)
Definition sameOutside {protocol : Type} (l : LayerID)
           (w w' : World protocol) : Prop :=
  config w' = config w /\ hsigners w' = hsigners w /\ synced w' = synced w
  /\ beacons w' = beacons w /\ maliciousIDs w' = maliciousIDs w
  /\ atxIDs w' = atxIDs w /\ atxsdataGet w' = atxsdataGet w
  /\ proposalsFor w' = proposalsFor w /\ tasks w' = tasks w
  /\ (forall k, k <> l -> sessions w' !! k = sessions w !! k)
  /\ trace w `prefix_of` trace w'.

(** A computation that, from any world, leaves one as [sameOutside] says and
    returns a value that satisfies [Q]. *)
Definition touchesOnly {protocol A : Type} (l : LayerID) (Q : A -> Prop)
           (m : M (World protocol) A) : Prop :=
  forall w, sameOutside l w (snd (m w)) /\ Q (fst (m w)).

(** The session a step of [run] hands on is of layer [l]. *)
Definition loopOf {protocol : Type} (l : LayerID)
           (r : LoopResult (protocol := protocol)) : Prop :=
  match r with
  | Continue s _ _ => lid s = l
  | Return _ => True
  end.

Definition startOf {protocol : Type} (l : LayerID)
           (r : RunError + session protocol * Time) : Prop :=
  match r with
  | inl _ => True
  | inr (s, _) => lid s = l
  end.

(** ** The deadlines a task waits for *)

(** The deadlines of the waits that were not cut short by the context. *)
Definition waits (t : list Event) : list Time :=
  omap (fun e => match e with EvWait walltime => Some walltime | _ => None end) t.

(** From a world configured with [cfg], the computation leaves the
    configuration alone, waits only for deadlines of [allowed], in their
    order, and returns a value that satisfies [Q]. *)
Definition waitsIn {protocol A : Type} (cfg : Config) (allowed : list Time)
           (Q : A -> Prop) (m : M (World protocol) A) : Prop :=
  forall w, config w = cfg ->
    exists evs, trace (snd (m w)) = trace w ++ evs
                /\ waits evs `sublist_of` allowed
                /\ config (snd (m w)) = cfg
                /\ Q (fst (m w)).

(** The deadline of the k-th round of a session of layer [layer]. *)
Definition deadline {protocol : Type} (d : Deps protocol) (cfg : Config)
           (layer : LayerID) (k : Z) : Time :=
  Time_Add (LayerToTime d layer) (PreroundDelay cfg) + k * RoundDuration cfg.

(** * Conservative-state cache (package txs, second half of [hare3/hare.go])

    The account cache keeps, per principal, the best transaction of every
    nonce in nonce order together with the balance that is left after it
    ([candidate], [accountCache]); [Cache] holds the accounts and the map of
    cached transactions that all accounts share.  The doubly linked list
    [txsByNonce] is a [list candidate] from front to back, a list element
    handed from [precheck] to [accept] is the list split at that element
    ([position]), and the shared map [cachedTXs] is threaded through the
    functions that write it.  Balances and nonces are [uint64]. *)

Module txs.

Definition maxTXsPerAcct : nat := 100.
Definition maxTXsPerNonce : nat := 100.

Definition uint64 (x : Z) : Z := x mod 2 ^ 64.
Definition in_uint64 (x : Z) : Prop := 0 <= x < 2 ^ 64.

Definition Address := Z.
Definition TransactionID := Z.
Definition BlockID := Z.
Definition EmptyBlockID : BlockID := 0.

Inductive error :=
| errBadNonce
| errInsufficientBalance
| errTooManyNonce (len : nat)  (* fmt.Errorf("%w: len %d", errTooManyNonce, ...) *)
| errDB (code : Z).            (* an error of the transactions table *)

(** [NanoTX] (nanotx.go) is not embedded here; the record has the fields this
    file reads, and [MaxSpending] and [Fee] hold what the methods of those
    names return. *)
Record NanoTX := mkNanoTX {
  ID : TransactionID;
  Principal : Address;
  Nonce : Z;
  Layer : LayerID;
  Block : BlockID;
  MaxSpending : Z;
  Fee : Z
}.

(** The fields of types.Transaction and types.MeshTransaction read here. *)
Record Transaction := mkTransaction {
  txID : TransactionID;
  txPrincipal : Address;
  txNonce : Z;
  txRaw : bytes
}.

Record MeshTransaction := mkMeshTransaction {
  mtxTransaction : Transaction;
  mtxReceived : Time;
  mtxLayerID : LayerID;
  mtxBlockID : BlockID
}.

(** a candidate for the mempool. *)
Record candidate := mkCandidate {
  best : NanoTX;
  postBalance : Z
}.

Definition id (s : candidate) : TransactionID := ID (best s).
Definition layer (s : candidate) : LayerID := Layer (best s).
Definition block (s : candidate) : BlockID := Block (best s).
Definition nonce (s : candidate) : Z := Nonce (best s).
Definition maxSpending (s : candidate) : Z := MaxSpending (best s).

Record accountCache := mkAccountCache {
  addr : Address;
  txsByNonce : list candidate;
  startNonce : Z;
  startBalance : Z;
  moreInDB : bool
}.

Definition set_txsByNonce (l : list candidate) (ac : accountCache) : accountCache :=
  mkAccountCache (addr ac) l (startNonce ac) (startBalance ac) (moreInDB ac).

Definition set_moreInDB (b : bool) (ac : accountCache) : accountCache :=
  mkAccountCache (addr ac) (txsByNonce ac) (startNonce ac) (startBalance ac) b.

Definition nextNonce (ac : accountCache) : Z :=
  match last (txsByNonce ac) with
  | None => startNonce ac
  | Some back => uint64 (nonce back + 1)
  end.

Definition availBalance (ac : accountCache) : Z :=
  match last (txsByNonce ac) with
  | None => startBalance ac
  | Some back => postBalance back
  end.

(** A list element as [precheck] returns it: the candidates in front of it,
    the element ([None] for a nil element) and the candidates behind it. *)
Record position := mkPosition {
  before : list candidate;
  prev : option candidate;
  after : list candidate
}.

(** The loop of [precheck], from the back of the list ([rl] is the list
    reversed): candidates of a higher nonce are passed over, the first other
    one is [prev]. *)
Fixpoint scanBack (rl : list candidate) (n : Z) (passed : list candidate)
  : position :=
  match rl with
  | [] => mkPosition [] None passed
  | cand :: rl' =>
      if n <? nonce cand then scanBack rl' n (cand :: passed)
      else mkPosition (rev rl') (Some cand) passed
  end.

Definition precheck (ac : accountCache) (ntx : NanoTX)
  : accountCache * (error + position * candidate) :=
  if (maxTXsPerAcct <=? length (txsByNonce ac))%nat then
    (set_moreInDB true ac, inl (errTooManyNonce (length (txsByNonce ac))))
  else
    let pos := scanBack (rev (txsByNonce ac)) (Nonce ntx) [] in
    let balance :=
      match prev pos with
      | None => startBalance ac
      | Some cand =>
          if nonce cand =? Nonce ntx
          then uint64 (postBalance cand + maxSpending cand)
          else postBalance cand
      end in
    if balance <? MaxSpending ntx then (ac, inl errInsufficientBalance)
    else (ac, inr (pos, mkCandidate ntx (balance - MaxSpending ntx))).

(** The last loop of [accept]: the balance change is carried along the
    candidates behind the accepted one; a candidate that can no longer be
    paid is removed from the list and from the shared map. *)
Fixpoint propagate (newBalance : Z) (next : list candidate)
    (cachedTXs : gmap Z NanoTX) (more : bool)
  : list candidate * gmap Z NanoTX * bool :=
  match next with
  | [] => ([], cachedTXs, more)
  | nextCand :: rest =>
      if maxSpending nextCand <=? newBalance then
        let newBalance := newBalance - maxSpending nextCand in
        let '(l, cachedTXs, more) := propagate newBalance rest cachedTXs more in
        (mkCandidate (best nextCand) newBalance :: l, cachedTXs, more)
      else
        propagate newBalance rest (delete (id nextCand) cachedTXs) true
  end.

Section Better.

(** [NanoTX.Better] (nanotx.go) is not embedded here. *)
Variable Better : NanoTX -> NanoTX -> bytes -> bool.

Definition accept (ac : accountCache) (cachedTXs : gmap Z NanoTX)
    (ntx : NanoTX) (blockSeed : bytes)
  : accountCache * gmap Z NanoTX * option error :=
  match precheck ac ntx with
  | (ac, inl err) => (ac, cachedTXs, Some err)
  | (ac, inr (pos, cand)) =>
      let finish (front : list candidate) (cachedTXs : gmap Z NanoTX) :=
        let cachedTXs := <[ID ntx := ntx]> cachedTXs in
        let '(l, cachedTXs, more) :=
          propagate (postBalance cand) (after pos) cachedTXs (moreInDB ac) in
        (set_moreInDB more (set_txsByNonce (front ++ l) ac), cachedTXs, None) in
      match prev pos with
      | None => (* insert at the first position *)
          finish (before pos ++ [cand]) cachedTXs
      | Some prevCand =>
          if nonce prevCand <? Nonce ntx then
            finish (before pos ++ [prevCand; cand]) cachedTXs
          else (* existing nonce *)
            if negb (Better ntx (best prevCand) blockSeed) then
              (ac, cachedTXs, None)
            else
              finish (before pos ++ [mkCandidate ntx (postBalance cand)])
                     (delete (ID (best prevCand)) cachedTXs)
      end
  end.

Definition findBest (ntxs : list NanoTX) (balance : Z) (blockSeed : bytes)
  : option NanoTX :=
  fold_left
    (fun best ntx =>
       if (MaxSpending ntx <=? balance)
          && match best with
             | None => true
             | Some b => Better ntx b blockSeed
             end
       then Some ntx else best)
    ntxs None.

(** The nonces of a batch that [addBatch] tries, in the order it tries
    them. *)
Definition sortedNonce (nonce2TXs : gmap Z (list NanoTX)) (nextNonce : Z)
  : list Z :=
  merge_sort Z.le
    (filter (fun n => nextNonce <= n) (fst <$> map_to_list nonce2TXs)).

Fixpoint addBatchLoop (nonces : list Z) (nonce2TXs : gmap Z (list NanoTX))
    (blockSeed : bytes) (ac : accountCache) (cachedTXs : gmap Z NanoTX)
    (balance : Z) (added : nat)
  : accountCache * gmap Z NanoTX * nat :=
  match nonces with
  | [] => (ac, cachedTXs, added)
  | n :: rest =>
      match findBest (default [] (nonce2TXs !! n)) balance blockSeed with
      | None => addBatchLoop rest nonce2TXs blockSeed ac cachedTXs balance added
      | Some b =>
          match accept ac cachedTXs b blockSeed with
          | (ac, cachedTXs, Some (errTooManyNonce _)) => (ac, cachedTXs, added)
          | (ac, cachedTXs, Some _) =>
              addBatchLoop rest nonce2TXs blockSeed ac cachedTXs balance added
          | (ac, cachedTXs, None) =>
              addBatchLoop rest nonce2TXs blockSeed ac cachedTXs
                (availBalance ac) (S added)
          end
      end
  end.

Definition addBatch (ac : accountCache) (cachedTXs : gmap Z NanoTX)
    (nonce2TXs : gmap Z (list NanoTX)) (blockSeed : bytes)
  : accountCache * gmap Z NanoTX * option error :=
  let nonces := sortedNonce nonce2TXs (nextNonce ac) in
  let '(ac, cachedTXs, added) :=
    addBatchLoop nonces nonce2TXs blockSeed ac cachedTXs (availBalance ac) 0 in
  (set_moreInDB (added <? length nonces)%nat ac, cachedTXs, None).

(** [NewNanoTX] (nanotx.go) is not embedded here. *)
Variable NewNanoTX : MeshTransaction -> NanoTX.

Definition add (ac : accountCache) (cachedTXs : gmap Z NanoTX)
    (tx : Transaction) (received : Time)
  : accountCache * gmap Z NanoTX * option error :=
  if txNonce tx <? startNonce ac then (ac, cachedTXs, Some errBadNonce)
  else
    let ntx := NewNanoTX (mkMeshTransaction tx received 0 EmptyBlockID) in
    accept ac cachedTXs ntx [].

(** The loop of [getMempool]; [found] is its flag. *)
Fixpoint getMempoolFrom (found : bool) (l : list candidate) : list NanoTX :=
  match l with
  | [] => []
  | cand :: l' =>
      let found := found || (layer cand =? 0) in
      (if found then [best cand] else []) ++ getMempoolFrom found l'
  end.

Definition getMempool (ac : accountCache) : list NanoTX :=
  getMempoolFrom false (txsByNonce ac).

Definition shouldEvict (ac : accountCache) : bool :=
  (length (txsByNonce ac) =? 0)%nat && negb (moreInDB ac).

Record Cache := mkCache {
  pending : gmap Z accountCache;
  cachedTXs : gmap Z NanoTX
}.

Definition set_pending (p : gmap Z accountCache) (c : Cache) : Cache :=
  mkCache p (cachedTXs c).

(** The state function of the cache: next nonce and balance of an address. *)
Variable stateF : Address -> Z * Z.

Definition groupStep (byPrincipal : gmap Z (gmap Z (list NanoTX)))
    (mtx : MeshTransaction) : gmap Z (gmap Z (list NanoTX)) :=
  let principal := txPrincipal (mtxTransaction mtx) in
  let n := txNonce (mtxTransaction mtx) in
  let byNonce := default ∅ (byPrincipal !! principal) in
  let group := default [] (byNonce !! n) in
  if (length group <? maxTXsPerNonce)%nat
  then <[principal := <[n := group ++ [NewNanoTX mtx]]> byNonce]> byPrincipal
  else <[principal := <[n := group]> byNonce]> byPrincipal.

Definition groupTXsByPrincipal (mtxs : list MeshTransaction)
  : gmap Z (gmap Z (list NanoTX)) :=
  fold_left groupStep mtxs ∅.

Definition createAcctIfNotPresent (a : Address) (c : Cache) : Cache :=
  match pending c !! a with
  | Some _ => c
  | None =>
      let '(nextNonce, balance) := stateF a in
      set_pending (<[a := mkAccountCache a [] nextNonce balance false]> (pending c)) c
  end.

Definition MoreInDB (c : Cache) (a : Address) : bool :=
  match pending c !! a with
  | None => false
  | Some acct => moreInDB acct
  end.

Fixpoint cleanupAccounts (accounts : list Address) (c : Cache) : Cache :=
  match accounts with
  | [] => c
  | a :: rest =>
      match pending c !! a with
      | Some acct =>
          if shouldEvict acct
          then cleanupAccounts rest (set_pending (delete a (pending c)) c)
          else cleanupAccounts rest c
      | None => cleanupAccounts rest c
      end
  end.

(** The loop of [BuildFromTXs] over the accounts; [order] is the order in
    which the map [byPrincipal] is iterated. *)
Fixpoint buildAccounts (byPrincipal : gmap Z (gmap Z (list NanoTX)))
    (blockSeed : bytes) (order : list Address) (c : Cache)
  : Cache * option error :=
  match order with
  | [] => (c, None)
  | principal :: rest =>
      let c := createAcctIfNotPresent principal c in
      match pending c !! principal with
      | None => (c, None) (* not reached: the account was just created *)
      | Some ac =>
          let '(ac, cached, err) :=
            addBatch ac (cachedTXs c) (default ∅ (byPrincipal !! principal))
                     blockSeed in
          let c := mkCache (<[principal := ac]> (pending c)) cached in
          match err with
          | Some e => (c, Some e)
          | None => buildAccounts byPrincipal blockSeed rest c
          end
      end
  end.

(** [BuildFromTXs]; [order] is the order in which the accounts are built
    and [toCleanup] the order in which the principals of [rst] are handed to
    the deferred [cleanupAccounts] (both come from iterating a map). *)
Definition BuildFromTXs (order toCleanup : list Address) (c : Cache)
    (rst : list MeshTransaction) (blockSeed : bytes) : Cache * option error :=
  let c := set_pending ∅ c in
  let byPrincipal := groupTXsByPrincipal rst in
  let '(c, err) := buildAccounts byPrincipal blockSeed order c in
  (cleanupAccounts toCleanup c, err).

Definition acceptable (err : option error) : bool :=
  match err with
  | None | Some (errTooManyNonce _) => true
  | Some _ => false
  end.

(** [Add]; [dbAdd] is what transactions.Add returns for the row.  Beside the
    cache and the error the result tells whether the row was handed to the
    database. *)
Definition Add (dbAdd : Transaction -> Time -> option error) (c : Cache)
    (tx : Transaction) (received : Time) : Cache * bool * option error :=
  let principal := txPrincipal tx in
  let c := createAcctIfNotPresent principal c in
  match pending c !! principal with
  | None => (c, false, None) (* not reached: the account was just created *)
  | Some ac =>
      let '(ac, cached, err) := add ac (cachedTXs c) tx received in
      let c := mkCache (<[principal := ac]> (pending c)) cached in
      if negb (acceptable err) then (cleanupAccounts [principal] c, false, err)
      else (cleanupAccounts [principal] c, true, dbAdd tx received)
  end.

Definition Get (c : Cache) (tid : TransactionID) : option NanoTX :=
  cachedTXs c !! tid.

Definition has (c : Cache) (tid : TransactionID) : bool :=
  match cachedTXs c !! tid with Some _ => true | None => false end.

Definition GetProjection (c : Cache) (a : Address) : Z * Z :=
  match pending c !! a with
  | None => stateF a
  | Some ac => (nextNonce ac, availBalance ac)
  end.

Definition GetMempool (c : Cache) : gmap Z (list NanoTX) :=
  omap (fun accCache =>
          match getMempool accCache with
          | [] => None
          | txs => Some txs
          end) (pending c).

End Better.

End txs.

(** ** Observations on an account (used in the statements below) *)

(** The balances along the list are consistent: every candidate can be paid
    from what the one in front of it leaves, and [postBalance] is what is
    left after it. *)
Fixpoint chained (balance : Z) (l : list txs.candidate) : Prop :=
  match l with
  | [] => True
  | c :: l' =>
      0 <= txs.maxSpending c <= balance
      /\ txs.postBalance c = balance - txs.maxSpending c
      /\ chained (txs.postBalance c) l'
  end.

(** The nonces grow strictly from front to back. *)
Definition increasing (l : list txs.candidate) : Prop :=
  StronglySorted Z.lt (txs.nonce <$> l).

(** The sum of the maximum spending of the candidates. *)
Definition spending (l : list txs.candidate) : Z :=
  foldr (fun c acc => txs.maxSpending c + acc) 0 l.

(** The balance left behind the candidates of [l], from [balance]. *)
Definition balanceAfter (balance : Z) (l : list txs.candidate) : Z :=
  match last l with
  | None => balance
  | Some c => txs.postBalance c
  end.

(** The balance [precheck] computes for a transaction that goes behind the
    candidates [lo], in the place of [same] if that is a candidate. *)
Definition balanceFor (ac : txs.accountCache) (lo : list txs.candidate)
    (same : option txs.candidate) : Z :=
  match same with
  | Some p => txs.uint64 (txs.postBalance p + txs.maxSpending p)
  | None => balanceAfter (txs.startBalance ac) lo
  end.

(** The account and the shared map after [ntx] has taken its place between
    [lo] and [hi]. *)
Definition accepted (ac : txs.accountCache) (cachedTXs : gmap Z txs.NanoTX)
    (ntx : txs.NanoTX) (lo : list txs.candidate) (same : option txs.candidate)
    (hi : list txs.candidate)
  : txs.accountCache * gmap Z txs.NanoTX * option txs.error :=
  let post := balanceFor ac lo same - txs.MaxSpending ntx in
  let cachedTXs :=
    <[txs.ID ntx := ntx]>
      (match same with
       | Some p => delete (txs.id p) cachedTXs
       | None => cachedTXs
       end) in
  let '(l, cachedTXs, more) :=
    txs.propagate post hi cachedTXs (txs.moreInDB ac) in
  (txs.set_moreInDB more
     (txs.set_txsByNonce (lo ++ txs.mkCandidate ntx post :: l) ac),
   cachedTXs, None).


(** What [accept] does with a transaction whose nonce is above all cached
    ones: it goes to the back of the list. *)
Definition appended (ac : txs.accountCache) (cachedTXs : gmap Z txs.NanoTX)
    (ntx : txs.NanoTX)
  : txs.accountCache * gmap Z txs.NanoTX * option txs.error :=
  let l := txs.txsByNonce ac in
  if (txs.maxTXsPerAcct <=? length l)%nat then
    (txs.set_moreInDB true ac, cachedTXs,
     Some (txs.errTooManyNonce (length l)))
  else if txs.availBalance ac <? txs.MaxSpending ntx then
    (ac, cachedTXs, Some txs.errInsufficientBalance)
  else
    (txs.set_txsByNonce
       (l ++ [txs.mkCandidate ntx (txs.availBalance ac - txs.MaxSpending ntx)])
       ac,
     <[txs.ID ntx := ntx]> cachedTXs, None).

(** The group of a principal and a nonce in the result of
    [groupTXsByPrincipal]. *)
Definition group (byPrincipal : gmap Z (gmap Z (list txs.NanoTX)))
    (principal : txs.Address) (n : Z) : list txs.NanoTX :=
  default [] (default ∅ (byPrincipal !! principal) !! n).

(** Whether a transaction is of the principal and the nonce. *)
Definition ofGroup (principal : txs.Address) (n : Z)
    (mtx : txs.MeshTransaction) : bool :=
  (txs.txPrincipal (txs.mtxTransaction mtx) =? principal)
  && (txs.txNonce (txs.mtxTransaction mtx) =? n).

(** The account [Add] works on: the one of the cache, or a new one from the
    state. *)
Definition accountFor (stateF : txs.Address -> Z * Z) (c : txs.Cache)
    (a : txs.Address) : txs.accountCache :=
  match txs.pending c !! a with
  | Some ac => ac
  | None => txs.mkAccountCache a [] (stateF a).1 (stateF a).2 false
  end.

(** An account as the cache keeps it: nonces in strictly increasing order,
    consistent balances, at most maxTXsPerAcct candidates and a 64-bit
    start balance. *)
Definition wellFormed (ac : txs.accountCache) : Prop :=
  increasing (txs.txsByNonce ac)
  /\ chained (txs.startBalance ac) (txs.txsByNonce ac)
  /\ (length (txs.txsByNonce ac) <= txs.maxTXsPerAcct)%nat
  /\ txs.in_uint64 (txs.startBalance ac).

(** The transaction [ntx] is made from a transaction of [a] in [rst]. *)
Definition fromTXs (NewNanoTX : txs.MeshTransaction -> txs.NanoTX)
    (rst : list txs.MeshTransaction) (a : txs.Address) (ntx : txs.NanoTX)
  : Prop :=
  exists mtx, mtx ∈ rst /\ txs.txPrincipal (txs.mtxTransaction mtx) = a
              /\ ntx = NewNanoTX mtx.

(** ** A small cache, for the examples *)

Module ToyTxs.

(** The transaction of id [i] and nonce [n] of principal 7, with its maximum
    spending and its fee. *)
Definition tx (i n spending fee : Z) : txs.NanoTX :=
  txs.mkNanoTX i 7 n 0 0 spending fee.

(** The higher fee is the better transaction. *)
Definition better (a b : txs.NanoTX) (seed : bytes) : bool :=
  txs.Fee b <? txs.Fee a.

(** A transaction spends ten for each byte of its body, at a fee of one. *)
Definition newNanoTX (mtx : txs.MeshTransaction) : txs.NanoTX :=
  let t := txs.mtxTransaction mtx in
  txs.mkNanoTX (txs.txID t) (txs.txPrincipal t) (txs.txNonce t)
               (txs.mtxLayerID mtx) (txs.mtxBlockID mtx)
               (10 * Z.of_nat (length (txs.txRaw t))) 1.

(** Every address is at nonce 5 with a balance of 100. *)
Definition stateF (a : txs.Address) : Z * Z := (5, 100).

(** Principal 7 with the nonces 5, 6 and 8 pending. *)
Definition account7 : txs.accountCache :=
  txs.mkAccountCache 7
    [ txs.mkCandidate (tx 1 5 30 3) 70;
      txs.mkCandidate (tx 2 6 50 2) 20;
      txs.mkCandidate (tx 3 8 20 1) 0 ]
    5 100 false.

Definition cached7 : gmap Z txs.NanoTX :=
  <[1 := tx 1 5 30 3]> (<[2 := tx 2 6 50 2]> (<[3 := tx 3 8 20 1]> ∅)).

(** A better transaction for nonce 6 that leaves too little for nonce 8. *)
Definition tx4 : txs.NanoTX := tx 4 6 60 5.

(** A transaction for nonce 7 that the balance does not cover. *)
Definition tx5 : txs.NanoTX := tx 5 7 21 1.

Definition cache7 : txs.Cache := txs.mkCache (<[7 := account7]> ∅) cached7.

(** A batch for an account that has nothing pending. *)
Definition fresh : txs.accountCache := txs.mkAccountCache 7 [] 5 100 false.

Definition batch : gmap Z (list txs.NanoTX) :=
  <[5 := [tx 1 5 30 3; tx 6 5 40 4]]> (<[6 := [tx 2 6 50 2]]>
    (<[4 := [tx 7 4 1 1]]> ∅)).

(** Principal 9 with maxTXsPerAcct nonces pending. *)
Definition account9 : txs.accountCache :=
  txs.mkAccountCache 9
    ((fun n => txs.mkCandidate (txs.mkNanoTX (1000 + n) 9 n 0 0 0 0) 100)
       <$> seqZ 0 100)
    0 100 false.

Definition cache9 : txs.Cache := txs.mkCache (<[9 := account9]> ∅) ∅.

(** A transaction of principal 7 with a stale nonce, one of principal 9
    beyond the full account, and one of principal 8 that fits. *)
Definition stale : txs.Transaction := txs.mkTransaction 50 7 4 [].
Definition beyond : txs.Transaction := txs.mkTransaction 51 9 100 [].
Definition fits : txs.Transaction :=
  txs.mkTransaction 52 8 5 [Byte.x00; Byte.x00].

(** Pending transactions of the principals 7 and 8; the one of principal 8
    has a nonce the state is past. *)
Definition pendingTXs : list txs.MeshTransaction :=
  [ txs.mkMeshTransaction (txs.mkTransaction 60 7 5 [Byte.x00]) 0 0 0;
    txs.mkMeshTransaction (txs.mkTransaction 61 7 6 [Byte.x00; Byte.x00]) 0 0 0;
    txs.mkMeshTransaction (txs.mkTransaction 62 8 3 []) 0 0 0 ].

Definition dbDown (t : txs.Transaction) (received : Time) : option txs.error :=
  Some (txs.errDB 1).

End ToyTxs.

(** * Properties *)

(** ** Machine integers *)

Lemma int64_small (x : Z) : in_int64 x -> int64 x = x.
Proof.
  unfold in_int64, int64. intros H.
  rewrite Z.mod_small; lia.
Qed.

Lemma uint16_small (x : Z) : in_uint16 x -> uint16 x = x.
Proof. unfold in_uint16, uint16. intros H. apply Z.mod_small. lia. Qed.

Lemma uint32_small (x : Z) : in_uint32 x -> uint32 x = x.
Proof. unfold in_uint32, uint32. intros H. apply Z.mod_small. lia. Qed.

Lemma uint32_range (x : Z) : in_uint32 (uint32 x).
Proof. unfold in_uint32, uint32. apply Z.mod_pos_bound. lia. Qed.

(** ** Configuration: Validate and roundStart *)

Section ConfigFacts.
Variable rounds_per_iter : Z.

(** Past the preround the start of a round is the preround delay plus one
    round duration for each earlier round, in 64-bit arithmetic. *)
Lemma roundStart_later (cfg : Config) (ir : IterRound) :
  Round ir <> 0 ->
  roundStart rounds_per_iter cfg ir =
  int64 (PreroundDelay cfg
         + int64 ((Absolute rounds_per_iter ir - 1) * RoundDuration cfg)).
Proof.
  intros H. unfold roundStart.
  destruct (Z.eqb_spec (Round ir) 0); [contradiction | reflexivity].
Qed.

Lemma roundStart_exact (cfg : Config) (ir : IterRound) :
  Round ir <> 0 ->
  in_int64 ((Absolute rounds_per_iter ir - 1) * RoundDuration cfg) ->
  in_int64 (PreroundDelay cfg
            + (Absolute rounds_per_iter ir - 1) * RoundDuration cfg) ->
  roundStart rounds_per_iter cfg ir =
  PreroundDelay cfg + (Absolute rounds_per_iter ir - 1) * RoundDuration cfg.
Proof.
  intros H Hm Hs. rewrite roundStart_later by assumption.
  rewrite (int64_small _ Hm). apply int64_small, Hs.
Qed.

Lemma roundStart_round0 (cfg : Config) (ir : IterRound) :
  Round ir = 0 -> roundStart rounds_per_iter cfg ir = PreroundDelay cfg.
Proof. intros H. unfold roundStart. rewrite H. reflexivity. Qed.

(** What [Validate] tests, for any index of the hardlock round: both of
    its guards. *)
Lemma Validate_nil_iff (hardlock : Z) (cfg : Config) (zdist : Duration) :
  Validate rounds_per_iter hardlock cfg zdist = None <->
  roundStart rounds_per_iter cfg
             {| Iter := IterationsLimit cfg; Round := hardlock |} <= zdist
  /\ ~ (Enable cfg = true /\ DisableLayer cfg <= EnableLayer cfg).
Proof.
  unfold Validate.
  destruct (Z.ltb_spec zdist
              (roundStart rounds_per_iter cfg
                 {| Iter := IterationsLimit cfg; Round := hardlock |})).
  - split; [discriminate | lia].
  - destruct (Enable cfg); simpl.
    + destruct (Z.leb_spec (DisableLayer cfg) (EnableLayer cfg)).
      * split; [discriminate | tauto].
      * split; [intros _; split; [lia | lia] | reflexivity].
    + split; [intros _; split; [lia | intros [? _]; discriminate]
             | reflexivity].
Qed.
End ConfigFacts.

(** C1 (as amended).  With [hardlock] the round of index 1 and a bound that
    fits 64 bits, [Validate] succeeds exactly when
    preround_delay + (iterations_limit * rounds_per_iter) * round_duration
    is at most zdist and, in addition, the configuration is not enabled with
    disable_layer <= enable_layer; when the bound is violated it returns the
    "terminates later" error. *)
Theorem Validate_succeeds_iff (rounds_per_iter : Z) (cfg : Config)
        (zdist : Duration) :
  in_int64 (IterationsLimit cfg * rounds_per_iter * RoundDuration cfg) ->
  in_int64 (PreroundDelay cfg
            + IterationsLimit cfg * rounds_per_iter * RoundDuration cfg) ->
  let bound := PreroundDelay cfg
               + (IterationsLimit cfg * rounds_per_iter) * RoundDuration cfg in
  (Validate rounds_per_iter 1 cfg zdist = None <->
   bound <= zdist
   /\ ~ (Enable cfg = true /\ DisableLayer cfg <= EnableLayer cfg))
  /\ (zdist < bound ->
      Validate rounds_per_iter 1 cfg zdist = Some (ErrTerminatesLater bound zdist)).
Proof.
  intros Hm Hs bound.
  assert (Hstart :
    roundStart rounds_per_iter cfg {| Iter := IterationsLimit cfg; Round := 1 |}
    = bound).
  { assert (Habs : Absolute rounds_per_iter
                      {| Iter := IterationsLimit cfg; Round := 1 |} - 1
                    = IterationsLimit cfg * rounds_per_iter)
      by (unfold Absolute; simpl; lia).
    rewrite roundStart_exact; rewrite ?Habs;
      [reflexivity | simpl; lia | assumption | assumption]. }
  split.
  - rewrite Validate_nil_iff, Hstart. reflexivity.
  - intros Hlt. unfold Validate. rewrite Hstart.
    destruct (Z.ltb_spec zdist bound); [reflexivity | lia].
Qed.

Lemma Validate_succeeds_iff_witness :
  (Validate 7 1 DefaultConfig (600 * second) = None <->
   25 * second + (4 * 7) * (12 * second) <= 600 * second
   /\ ~ (false = true /\ MaxUint32 <= 0))
  /\ (600 * second < 25 * second + (4 * 7) * (12 * second) ->
      Validate 7 1 DefaultConfig (600 * second)
      = Some (ErrTerminatesLater (25 * second + (4 * 7) * (12 * second))
                                 (600 * second))).
Proof.
  apply (Validate_succeeds_iff 7 DefaultConfig (600 * second));
    unfold in_int64; simpl; unfold second; lia.
Defined.

(** C1, the claim as stated fails: an enabled configuration whose disable
    layer is not above its enable layer meets the time bound and is still
    refused. *)
Lemma Validate_bound_not_sufficient :
  PreroundDelay Toy.configDisabledBelow
  + (IterationsLimit Toy.configDisabledBelow * 7)
    * RoundDuration Toy.configDisabledBelow
  <= 600 * second
  /\ Validate 7 1 Toy.configDisabledBelow (600 * second)
     = Some (ErrDisabledLayer 5 10).
Proof. split; [simpl; unfold second; lia | reflexivity]. Qed.

(** ** onLayer *)

(** Reduces the projections of the records of the embedding, and nothing
    else. *)
Ltac world_cbn :=
  cbn [config hsigners sessions synced beacons maliciousIDs atxIDs atxsdataGet
       proposalsFor tasks trace set_trace set_sessions set_maliciousIDs
       set_tasks proto lid beacon signers vrfs set_vrfs set_proto
       fst snd negb andb orb].

(** Unfolds the monadic plumbing of a straight-line function. *)
Ltac run_monad :=
  unfold countEvents; unfold bind, ret, emit, gets; world_cbn.

Section OnLayerFacts.
Context {protocol : Type}.
Variable d : Deps protocol.

(** The three ways [onLayer] can go. *)
Lemma onLayer_not_synced (layer : LayerID) (w : World protocol) :
  synced w = false ->
  fst (onLayer d layer w) = None
  /\ sessions (snd (onLayer d layer w)) = sessions w
  /\ tasks (snd (onLayer d layer w)) = tasks w.
Proof. intros H. unfold onLayer, GetEpoch in *. run_monad. rewrite H. simpl. auto. Qed.

Lemma onLayer_no_beacon (layer : LayerID) (w : World protocol) :
  beacons w (GetEpoch d layer) = None
  \/ beacons w (GetEpoch d layer) = Some EmptyBeacon ->
  fst (onLayer d layer w) = None
  /\ sessions (snd (onLayer d layer w)) = sessions w
  /\ tasks (snd (onLayer d layer w)) = tasks w.
Proof.
  intros H. unfold onLayer, GetEpoch in *. run_monad.
  destruct (synced w); simpl; [| auto].
  destruct H as [H | H]; rewrite H; simpl; auto.
Qed.

Lemma onLayer_session (layer : LayerID) (w : World protocol) (b : Beacon) :
  synced w = true ->
  beacons w (GetEpoch d layer) = Some b ->
  b <> EmptyBeacon ->
  let s := {| lid := layer; beacon := b; signers := hsigners w;
              vrfs := replicate (length (hsigners w)) None;
              proto := newProtocol d
                         (uint16 (CommitteeFor (config w) layer / 2 + 1)) |} in
  fst (onLayer d layer w) = Some s
  /\ sessions (snd (onLayer d layer w)) = <[layer := proto s]> (sessions w)
  /\ tasks (snd (onLayer d layer w)) = tasks w ++ [layer].
Proof.
  intros Hs Hb Hne. unfold onLayer, GetEpoch in *. run_monad.
  rewrite Hs. simpl. rewrite Hb. simpl.
  destruct (Z.eqb_spec b EmptyBeacon); [contradiction |]. simpl. auto.
Qed.

(** Both slices of a fresh session have the same length, so the indexed
    reads [session.signers[i]] of [run] and [onOutput] stay in range. *)
Lemma onLayer_session_lengths (layer : LayerID) (w : World protocol)
      (s : session protocol) :
  fst (onLayer d layer w) = Some s -> length (vrfs s) = length (signers s).
Proof.
  unfold onLayer, GetEpoch. run_monad.
  destruct (synced w); simpl; [| discriminate].
  destruct (beacons w (layer / layersPerEpoch d)) as [b |]; simpl;
    [| discriminate].
  destruct (b =? EmptyBeacon); simpl; [discriminate |].
  intros [= <-]. simpl. apply length_replicate.
Qed.

Lemma onLayer_some_inv (layer : LayerID) (w : World protocol) :
  is_Some (fst (onLayer d layer w)) ->
  exists b, synced w = true /\ beacons w (GetEpoch d layer) = Some b
            /\ b <> EmptyBeacon.
Proof.
  intros [s Hs].
  destruct (synced w) eqn:Hsy.
  - destruct (beacons w (GetEpoch d layer)) as [b |] eqn:Hb.
    + destruct (Z.eq_dec b EmptyBeacon) as [-> | Hne]; [| eauto].
      destruct (onLayer_no_beacon layer w (or_intror Hb)) as (Hr & _).
      congruence.
    + destruct (onLayer_no_beacon layer w (or_introl Hb)) as (Hr & _).
      congruence.
  - destruct (onLayer_not_synced layer w Hsy) as (Hr & _). congruence.
Qed.
End OnLayerFacts.

(** C6.  [onLayer] creates a session, registers it under the layer and starts
    its task exactly when the node is synced and the beacon of the layer's
    epoch is found and is not the empty beacon; otherwise the sessions map
    and the started tasks are left as they were. *)
Theorem onLayer_starts_session_iff {protocol : Type} (d : Deps protocol)
        (layer : LayerID) (w : World protocol) :
  let r := onLayer d layer w in
  (is_Some (fst r) <->
   synced w = true
   /\ exists b, beacons w (GetEpoch d layer) = Some b /\ b <> EmptyBeacon)
  /\ (forall s, fst r = Some s ->
        lid s = layer
        /\ sessions (snd r) = <[layer := proto s]> (sessions w)
        /\ tasks (snd r) = tasks w ++ [layer])
  /\ (fst r = None ->
        sessions (snd r) = sessions w /\ tasks (snd r) = tasks w).
Proof.
  intros r. subst r.
  destruct (synced w) eqn:Hs.
  - destruct (beacons w (GetEpoch d layer)) as [b |] eqn:Hb.
    + destruct (Z.eq_dec b EmptyBeacon) as [-> | Hne].
      * destruct (onLayer_no_beacon d layer w (or_intror Hb)) as (Hr & Hm & Ht).
        rewrite Hr. split; [| split].
        -- split; [intros [? ?]; discriminate |].
           intros (_ & b' & Hb' & Hne'). congruence.
        -- discriminate.
        -- auto.
      * destruct (onLayer_session d layer w b Hs Hb Hne) as (Hr & Hm & Ht).
        rewrite Hr. split; [| split].
        -- split; [eauto | intros _; eexists; reflexivity].
        -- intros s [= <-]. simpl. auto.
        -- discriminate.
    + destruct (onLayer_no_beacon d layer w (or_introl Hb)) as (Hr & Hm & Ht).
      rewrite Hr. split; [| split].
      * split; [intros [? ?]; discriminate |].
        intros (_ & b' & Hb' & _). discriminate.
      * discriminate.
      * auto.
  - destruct (onLayer_not_synced d layer w Hs) as (Hr & Hm & Ht).
    rewrite Hr. split; [| split].
    + split; [intros [? ?]; discriminate | intros [? _]; discriminate].
    + discriminate.
    + auto.
Qed.

Lemma onLayer_starts_session_iff_witness :
  is_Some (fst (onLayer Toy.d0 21 Toy.world))
  /\ fst (onLayer Toy.d0 35 Toy.world) = None
  /\ sessions (snd (onLayer Toy.d0 35 Toy.world)) = sessions Toy.world.
Proof.
  split.
  - apply (proj1 (onLayer_starts_session_iff Toy.d0 21 Toy.world)).
    split; [reflexivity |]. exists 77. split; [reflexivity | discriminate].
  - destruct (onLayer_starts_session_iff Toy.d0 35 Toy.world)
      as (_ & _ & Hunchanged).
    assert (Hnone : fst (onLayer Toy.d0 35 Toy.world) = None) by reflexivity.
    split; [exact Hnone | exact (proj1 (Hunchanged Hnone))].
Defined.

(** C2.  The committee of a layer is the upgrade size when an upgrade is
    configured and the layer is at or after the upgrade layer, the default
    size otherwise, and the state machine of the layer's session is made with
    threshold committee / 2 + 1. *)
Theorem committee_and_threshold {protocol : Type} (d : Deps protocol)
        (cfg : Config) (layer : LayerID) :
  Config_wf cfg ->
  (forall u, Upgrade cfg = Some u -> Layer u <= layer ->
             CommitteeFor cfg layer = Size u)
  /\ (Upgrade cfg = None
      \/ (exists u, Upgrade cfg = Some u /\ layer < Layer u) ->
      CommitteeFor cfg layer = Committee cfg)
  /\ (forall (w : World protocol) s,
        config w = cfg -> fst (onLayer d layer w) = Some s ->
        proto s = newProtocol d (CommitteeFor cfg layer / 2 + 1)
        /\ sessions (snd (onLayer d layer w)) !! layer
           = Some (newProtocol d (CommitteeFor cfg layer / 2 + 1))).
Proof.
  intros Hwf.
  assert (Hsize : in_uint16 (CommitteeFor cfg layer)).
  { destruct Hwf as (_ & _ & Hc & Hu & _). unfold CommitteeFor.
    destruct (Upgrade cfg) as [u |]; [| exact Hc].
    destruct (Layer u <=? layer); [apply Hu | exact Hc]. }
  split; [| split].
  - intros u Hu Hle. unfold CommitteeFor. rewrite Hu.
    destruct (Z.leb_spec (Layer u) layer); [reflexivity | lia].
  - intros [Hn | (u & Hu & Hlt)]; unfold CommitteeFor.
    + rewrite Hn. reflexivity.
    + rewrite Hu. destruct (Z.leb_spec (Layer u) layer); [lia | reflexivity].
  - intros w s Hcfg Hs.
    assert (Hsome : is_Some (fst (onLayer d layer w))) by (rewrite Hs; eauto).
    destruct (onLayer_some_inv d layer w Hsome) as (b & Hsy & Hb & Hne).
    destruct (onLayer_session d layer w b Hsy Hb Hne) as (Hr & Hm & _).
    rewrite Hs in Hr. injection Hr as ->. simpl in *.
    rewrite Hm, Hcfg, lookup_insert_eq.
    rewrite uint16_small; [auto |].
    unfold in_uint16 in *.
    split; [apply Z.add_nonneg_nonneg; [apply Z.div_pos |]; lia |].
    assert (CommitteeFor cfg layer / 2 < 2 ^ 15); [| lia].
    apply Z.div_lt_upper_bound; lia.
Qed.

Lemma committee_and_threshold_witness :
  Config_wf (config Toy.worldLast)
  /\ sessions (snd (onLayer Toy.d0 21 Toy.worldLast)) !! 21
     = Some (newProtocol Toy.d0 401)
  /\ sessions (snd (onLayer Toy.d0 23 Toy.worldLast)) !! 23
     = Some (newProtocol Toy.d0 301).
Proof.
  assert (Hwf : Config_wf (config Toy.worldLast)).
  { unfold Config_wf, in_uint32, in_uint16, in_uint8, in_int64. simpl.
    unfold second. lia. }
  split; [exact Hwf |]. split.
  - destruct (committee_and_threshold Toy.d0 (config Toy.worldLast) 21 Hwf)
      as (_ & _ & Hthreshold).
    destruct (Hthreshold Toy.worldLast
                (mkSession (newProtocol Toy.d0 401) 21 77
                           (hsigners Toy.worldLast) [None; None])
                eq_refl eq_refl) as [_ Hreg].
    exact Hreg.
  - destruct (committee_and_threshold Toy.d0 (config Toy.worldLast) 23 Hwf)
      as (_ & _ & Hthreshold).
    destruct (Hthreshold Toy.worldLast
                (mkSession (newProtocol Toy.d0 301) 23 77
                           (hsigners Toy.worldLast) [None; None])
                eq_refl eq_refl) as [_ Hreg].
    exact Hreg.
Defined.

(** ** Handler *)

Ltac handler_unfold :=
  unfold Handler, lookupSession, IsMalicious, sessionOnInput,
    identitiesSetMalicious, atxsdataSetMalicious;
  unfold bind, ret, emit, gets, countEvents; simpl.

Lemma pair_with_snd {A B : Type} (p : A * B) (a : A) :
  fst p = a -> p = (a, snd p).
Proof. intros <-. destruct p; reflexivity. Qed.

Lemma newEvents_app {protocol : Type} (w w' : World protocol) (evs : list Event) :
  trace w' = trace w ++ evs -> newEvents w w' = evs.
Proof. intros H. unfold newEvents. rewrite H. apply drop_app_length. Qed.

Lemma newEvents_set_trace {protocol : Type} (w w' : World protocol)
      (evs : list Event) :
  newEvents w (set_trace (trace w ++ evs) w') = evs.
Proof. apply newEvents_app. reflexivity. Qed.

Section HandlerFacts.
Context {protocol : Type}.
Variable d : Deps protocol.
Implicit Types (w : World protocol) (buf : bytes) (msg : Message).

Lemma Handler_decode_fail buf w :
  Decode d buf = None ->
  Handler d buf w = (Some ErrDecoding, set_trace (trace w ++ [EvDecode buf]) w).
Proof. intros H. destruct w. handler_unfold. rewrite H. reflexivity. Qed.

Lemma Handler_invalid buf w msg :
  Decode d buf = Some msg -> MsgValidate d msg = false ->
  Handler d buf w
  = (Some ErrValidation,
     set_trace (trace w ++ [EvDecode buf; EvMsgValidate msg]) w).
Proof.
  intros H1 H2. destruct w. handler_unfold. rewrite H1. simpl. rewrite H2.
  simpl. rewrite <- ?app_assoc. reflexivity.
Qed.

Lemma Handler_not_registered buf w msg :
  Decode d buf = Some msg -> MsgValidate d msg = true ->
  sessions w !! msgLayer msg = None ->
  Handler d buf w
  = (Some (ErrNotRegistered (msgLayer msg)),
     set_trace (trace w ++ [EvDecode buf; EvMsgValidate msg;
                            EvMessageReceived msg;
                            EvSessionLookup (msgLayer msg)]) w).
Proof.
  intros H1 H2 H3. destruct w. simpl in H3. handler_unfold. rewrite H1.
  simpl. rewrite H2. simpl. rewrite H3. simpl. rewrite <- ?app_assoc.
  reflexivity.
Qed.

Lemma Handler_bad_signature buf w msg (p : protocol) :
  Decode d buf = Some msg -> MsgValidate d msg = true ->
  sessions w !! msgLayer msg = Some p -> Verify d msg = false ->
  Handler d buf w
  = (Some ErrInvalidSignature,
     set_trace (trace w ++ [EvDecode buf; EvMsgValidate msg;
                            EvMessageReceived msg;
                            EvSessionLookup (msgLayer msg);
                            EvVerify msg]) w).
Proof.
  intros H1 H2 H3 H4. destruct w. simpl in H3. handler_unfold. rewrite H1.
  simpl. rewrite H2. simpl. rewrite H3. simpl. rewrite H4. simpl.
  rewrite <- ?app_assoc. reflexivity.
Qed.

Lemma Handler_zero_grade buf w msg (p : protocol) :
  Decode d buf = Some msg -> MsgValidate d msg = true ->
  sessions w !! msgLayer msg = Some p -> Verify d msg = true ->
  oracle_validate d msg = grade0 ->
  Handler d buf w
  = (Some ErrZeroGrade,
     set_trace (trace w ++ [EvDecode buf; EvMsgValidate msg;
                            EvMessageReceived msg;
                            EvSessionLookup (msgLayer msg);
                            EvVerify msg; EvIsMalicious (Sender msg);
                            EvOracleValidate msg]) w).
Proof.
  intros H1 H2 H3 H4 H5. destruct w. simpl in H3. handler_unfold.
  rewrite H1. simpl. rewrite H2. simpl. rewrite H3. simpl. rewrite H4.
  simpl. rewrite H5. simpl. rewrite <- ?app_assoc. reflexivity.
Qed.

Lemma setMalicious_count_prefix w buf msg :
  length (filter (fun e => isSetMalicious e = true)
                 (trace w ++ handledPrefix d w buf msg))
  = length (filter (fun e => isSetMalicious e = true) (trace w)).
Proof.
  rewrite filter_app, length_app. simpl. lia.
Qed.

Lemma Handler_handled buf w msg (p : protocol) :
  Decode d buf = Some msg -> MsgValidate d msg = true ->
  sessions w !! msgLayer msg = Some p -> Verify d msg = true ->
  oracle_validate d msg <> grade0 ->
  let mal := bool_decide (Sender msg ∈ maliciousIDs w) in
  let i := handlerInput d w msg in
  let gossip := fst (snd (OnInput d p i)) in
  let equivocation := snd (snd (OnInput d p i)) in
  let r := Handler d buf w in
  fst r = (if gossip then None else Some ErrDropped)
  /\ sessions (snd r) = <[msgLayer msg := fst (OnInput d p i)]> (sessions w)
  /\ maliciousIDs (snd r)
     = match equivocation with
       | Some e => if mal then maliciousIDs w
                   else {[SmesherID (fst (Messages e))]} ∪ maliciousIDs w
       | None => maliciousIDs w
       end
  /\ trace (snd r)
     = trace w ++ handledPrefix d w buf msg
       ++ match equivocation with
          | Some e =>
            if mal then []
            else EvIdentitiesSetMalicious (SmesherID (fst (Messages e)))
                                          (ToMalfeasanceProof d e)
                 :: (if setMaliciousFails d
                          (length (filter (fun e => isSetMalicious e = true)
                                          (trace w)))
                     then [EvLogError "failed to save malicious identity"]
                     else [])
                 ++ [EvAtxsdataSetMalicious (SmesherID (fst (Messages e)))]
          | None => []
          end
       ++ (if gossip
           then [EvReportMessageLatency
                   (Round (msgIterRound msg))
                   (Time_Add (LayerToTime d (msgLayer msg))
                             (roundStart (rounds_per_iter d) (config w)
                                         (msgIterRound msg)))]
           else []).
Proof.
  intros H1 H2 H3 H4 H5 mal i gossip equivocation r.
  pose proof (setMalicious_count_prefix w buf msg) as Hcount.
  subst r gossip equivocation. unfold handledPrefix in *.
  fold i in Hcount.
  destruct w as [cfg hs ss sy bs ms ai ag pf ts t].
  simpl in H3, Hcount, mal |- *.
  handler_unfold. rewrite H1. simpl. rewrite H2. simpl. rewrite H3. simpl.
  rewrite H4. simpl.
  destruct (Z.eqb_spec (oracle_validate d msg) grade0); [contradiction |].
  fold mal.
  change {| inMessage := msg; msgHash := ToHash d msg;
            malicious := mal;
            atxgrade := oracle_validate d msg |} with i in *.
  rewrite <- ?app_assoc. simpl.
  destruct (OnInput d p i) as [p' [g [e |]]]; simpl;
    [destruct mal; simpl;
     [| rewrite <- ?app_assoc; simpl; rewrite Hcount;
        destruct (setMaliciousFails d _); simpl] |];
    destruct g; simpl; rewrite <- ?app_assoc; simpl; auto.
Qed.
End HandlerFacts.

Lemma stages_app (t1 t2 : list Event) : stages (t1 ++ t2) = stages t1 ++ stages t2.
Proof. apply omap_app. Qed.

Lemma persisted_app (t1 t2 : list Event) :
  persisted (t1 ++ t2) = persisted t1 ++ persisted t2.
Proof. apply omap_app. Qed.

Lemma flagged_app (t1 t2 : list Event) :
  flagged (t1 ++ t2) = flagged t1 ++ flagged t2.
Proof. apply omap_app. Qed.

Lemma latencyReports_app (t1 t2 : list Event) :
  latencyReports (t1 ++ t2) = latencyReports t1 ++ latencyReports t2.
Proof. apply omap_app. Qed.

(** C3.  [Handler] goes through decode, syntactic validation, session
    lookup, signature verification and grading in this order; its error wraps
    the transport's reject error exactly after a decode failure, a validation
    failure or a failed signature check of a registered layer; an
    unregistered layer and a zero grade give a plain error, and for an
    unregistered layer the signature is not looked at. *)
Theorem Handler_order_and_verdicts {protocol : Type} (d : Deps protocol)
        (buf : bytes) (w : World protocol) :
  let r := Handler d buf w in
  let evs := newEvents w (snd r) in
  stages evs `prefix_of` [SDecode; SValidate; SLookup; SVerify; SGrade]
  /\ ((exists e, fst r = Some e /\ wrapsValidationReject e = true) <->
      Decode d buf = None
      \/ exists msg, Decode d buf = Some msg
                     /\ (MsgValidate d msg = false
                         \/ (is_Some (sessions w !! msgLayer msg)
                             /\ Verify d msg = false)))
  /\ (forall msg,
        Decode d buf = Some msg -> MsgValidate d msg = true ->
        (sessions w !! msgLayer msg = None ->
         fst r = Some (ErrNotRegistered (msgLayer msg))
         /\ wrapsValidationReject (ErrNotRegistered (msgLayer msg)) = false
         /\ SVerify ∉ stages evs)
        /\ (is_Some (sessions w !! msgLayer msg) -> Verify d msg = true ->
            oracle_validate d msg = grade0 ->
            fst r = Some ErrZeroGrade
            /\ wrapsValidationReject ErrZeroGrade = false)).
Proof.
  intros r evs. subst r evs.
  destruct (Decode d buf) as [msg |] eqn:Hdec.
  2:{ rewrite (Handler_decode_fail d buf w Hdec). simpl.
      rewrite (newEvents_app w _ [EvDecode buf]) by reflexivity.
      split; [exists [SValidate; SLookup; SVerify; SGrade]; reflexivity |].
      split; [split; [auto | intros _; eexists; split; reflexivity] |].
      intros msg [=]. }
  destruct (MsgValidate d msg) eqn:Hval.
  2:{ rewrite (Handler_invalid d buf w msg Hdec Hval). simpl.
      rewrite (newEvents_app w _ [EvDecode buf; EvMsgValidate msg])
        by reflexivity.
      split; [exists [SLookup; SVerify; SGrade]; reflexivity |].
      split; [split; [eauto | intros _; eexists; split; reflexivity] |].
      intros msg' [= <-] Hv. congruence. }
  destruct (sessions w !! msgLayer msg) as [p |] eqn:Hreg.
  2:{ rewrite (Handler_not_registered d buf w msg Hdec Hval Hreg). simpl.
      rewrite (newEvents_app w _ [EvDecode buf; EvMsgValidate msg;
                                  EvMessageReceived msg;
                                  EvSessionLookup (msgLayer msg)])
        by reflexivity.
      split; [exists [SVerify; SGrade]; reflexivity |].
      split.
      - split.
        + intros (e & [= <-] & [=]).
        + intros [[=] | (msg' & [= <-] & [Hf | [[? Hs] _]])]; congruence.
      - intros msg' [= <-] _. split.
        + intros _. split; [reflexivity |]. split; [reflexivity |].
          simpl. intros Hin.
          repeat (apply elem_of_cons in Hin as [Hin | Hin]; [discriminate |]).
          apply elem_of_nil in Hin. exact Hin.
        + intros [? Hs]. congruence. }
  destruct (Verify d msg) eqn:Hver.
  2:{ rewrite (Handler_bad_signature d buf w msg p Hdec Hval Hreg Hver). simpl.
      rewrite (newEvents_app w _ [EvDecode buf; EvMsgValidate msg;
                                  EvMessageReceived msg;
                                  EvSessionLookup (msgLayer msg);
                                  EvVerify msg])
        by reflexivity.
      split; [exists [SGrade]; reflexivity |].
      split.
      - split; [| intros _; eexists; split; reflexivity].
        intros _. right. exists msg. split; [reflexivity |]. right.
        split; [rewrite Hreg; eauto | exact Hver].
      - intros msg' [= <-] _. split; [intros Hn; congruence |].
        intros _ Hv. congruence. }
  assert (Hnothard :
    ~ (Some msg = None
       \/ exists msg0, Some msg = Some msg0
                       /\ (MsgValidate d msg0 = false
                           \/ (is_Some (sessions w !! msgLayer msg0)
                               /\ Verify d msg0 = false)))).
  { intros [Hn | (msg' & [= <-] & [Hf | [_ Hf]])]; congruence. }
  destruct (Z.eq_dec (oracle_validate d msg) grade0) as [Hg | Hg].
  { rewrite (Handler_zero_grade d buf w msg p Hdec Hval Hreg Hver Hg). simpl.
    rewrite (newEvents_app w _ [EvDecode buf; EvMsgValidate msg;
                                EvMessageReceived msg;
                                EvSessionLookup (msgLayer msg);
                                EvVerify msg; EvIsMalicious (Sender msg);
                                EvOracleValidate msg])
      by reflexivity.
    split; [exists []; reflexivity |].
    split.
    - split; [intros (e & [= <-] & [=]) | intros H; contradiction].
    - intros msg' [= <-] _. split; [intros Hn; congruence | auto]. }
  destruct (Handler_handled d buf w msg p Hdec Hval Hreg Hver Hg)
    as (Hr & _ & _ & Ht).
  rewrite (newEvents_app w _ _ Ht), Hr.
  split.
  { exists []. rewrite !stages_app. unfold handledPrefix.
    destruct (snd (snd (OnInput d p (handlerInput d w msg)))) as [e |];
      [destruct (bool_decide _); [| destruct (setMaliciousFails d _)] |];
      destruct (fst (snd (OnInput d p (handlerInput d w msg))));
      reflexivity. }
  split.
  - split; [| intros H; contradiction].
    destruct (fst (snd (OnInput d p (handlerInput d w msg))));
      intros (e & [= <-] & [=]).
  - intros msg' [= <-] _. split; [intros Hn; congruence |].
    intros _ _ Hg'. contradiction.
Qed.

Lemma Handler_order_and_verdicts_witness :
  Verify Toy.d0 {| msgLayer := 21; msgIterRound := {| Iter := 0; Round := 3 |};
                   Value := []; Eligibility := {| VrfProof := 0; Count := 1 |};
                   Sender := 9; Signature := 0 |} = false
  /\ fst (Handler Toy.d0 (Toy.buf Byte.x03 Byte.x09 Byte.x00) Toy.world)
     = Some (ErrNotRegistered 21)
  /\ SVerify ∉ stages (newEvents Toy.world
                          (snd (Handler Toy.d0
                                        (Toy.buf Byte.x03 Byte.x09 Byte.x00)
                                        Toy.world))).
Proof.
  split; [reflexivity |].
  destruct (Handler_order_and_verdicts Toy.d0
              (Toy.buf Byte.x03 Byte.x09 Byte.x00) Toy.world)
    as (_ & _ & Hsoft).
  destruct (Hsoft {| msgLayer := 21;
                     msgIterRound := {| Iter := 0; Round := 3 |};
                     Value := []; Eligibility := {| VrfProof := 0; Count := 1 |};
                     Sender := 9; Signature := 0 |} eq_refl eq_refl)
    as [Hunregistered _].
  destruct (Hunregistered eq_refl) as (Herr & _ & Hnoverify).
  split; [exact Herr | exact Hnoverify].
Defined.

Lemma Handler_nil_inv {protocol : Type} (d : Deps protocol) (buf : bytes)
      (w : World protocol) :
  fst (Handler d buf w) = None ->
  exists msg p,
    Decode d buf = Some msg /\ MsgValidate d msg = true
    /\ sessions w !! msgLayer msg = Some p /\ Verify d msg = true
    /\ oracle_validate d msg <> grade0
    /\ fst (snd (OnInput d p (handlerInput d w msg))) = true.
Proof.
  intros Hnil.
  destruct (Decode d buf) as [msg |] eqn:Hdec;
    [| rewrite (Handler_decode_fail d buf w Hdec) in Hnil; discriminate].
  destruct (MsgValidate d msg) eqn:Hval;
    [| rewrite (Handler_invalid d buf w msg Hdec Hval) in Hnil; discriminate].
  destruct (sessions w !! msgLayer msg) as [p |] eqn:Hreg;
    [| rewrite (Handler_not_registered d buf w msg Hdec Hval Hreg) in Hnil;
       discriminate].
  destruct (Verify d msg) eqn:Hver;
    [| rewrite (Handler_bad_signature d buf w msg p Hdec Hval Hreg Hver) in Hnil;
       discriminate].
  destruct (Z.eq_dec (oracle_validate d msg) grade0) as [Hg | Hg];
    [rewrite (Handler_zero_grade d buf w msg p Hdec Hval Hreg Hver Hg) in Hnil;
     discriminate |].
  destruct (Handler_handled d buf w msg p Hdec Hval Hreg Hver Hg) as (Hr & _).
  rewrite Hr in Hnil.
  exists msg, p. repeat split; try assumption.
  destruct (fst (snd (OnInput d p (handlerInput d w msg))));
    [reflexivity | discriminate].
Qed.

(** The latency metric of an accepted message is fed the layer start plus
    [roundStart] of the message's round. *)
Lemma Handler_latency_report {protocol : Type} (d : Deps protocol)
      (buf : bytes) (w : World protocol) (msg : Message) :
  Decode d buf = Some msg -> fst (Handler d buf w) = None ->
  latencyReports (newEvents w (snd (Handler d buf w)))
  = [Time_Add (LayerToTime d (msgLayer msg))
              (roundStart (rounds_per_iter d) (config w) (msgIterRound msg))].
Proof.
  intros Hdec Hnil.
  destruct (Handler_nil_inv d buf w Hnil)
    as (msg' & p & Hdec' & Hval & Hreg & Hver & Hg & Hgossip).
  assert (msg' = msg) as -> by congruence.
  destruct (Handler_handled d buf w msg p Hdec Hval Hreg Hver Hg)
    as (_ & _ & _ & Ht).
  rewrite (newEvents_app w _ _ Ht), Hgossip, !latencyReports_app.
  destruct (snd (snd (OnInput d p (handlerInput d w msg)))) as [e |];
    [destruct (bool_decide _); [| destruct (setMaliciousFails d _)] |];
    reflexivity.
Qed.

(** C4 (as amended).  For a message that is accepted, the expected arrival
    time handed to the latency metric is layer_start + preround_delay when the
    round index is 0 (the preround), and
    layer_start + preround_delay + (absolute(r) - 1) * round_duration for a
    round of index other than 0, as long as that duration fits 64 bits. *)
Theorem Handler_expected_arrival {protocol : Type} (d : Deps protocol)
        (buf : bytes) (w : World protocol) (msg : Message) :
  Decode d buf = Some msg -> fst (Handler d buf w) = None ->
  let ir := msgIterRound msg in
  let cfg := config w in
  let start := LayerToTime d (msgLayer msg) in
  let reports := latencyReports (newEvents w (snd (Handler d buf w))) in
  (Round ir = 0 -> reports = [start + PreroundDelay cfg])
  /\ (Round ir <> 0 ->
      in_int64 ((Absolute (rounds_per_iter d) ir - 1) * RoundDuration cfg) ->
      in_int64 (PreroundDelay cfg
                + (Absolute (rounds_per_iter d) ir - 1) * RoundDuration cfg) ->
      reports = [start + PreroundDelay cfg
                 + (Absolute (rounds_per_iter d) ir - 1) * RoundDuration cfg]).
Proof.
  intros Hdec Hnil ir cfg start reports. subst reports.
  rewrite (Handler_latency_report d buf w msg Hdec Hnil). unfold Time_Add.
  split.
  - intros H0. rewrite roundStart_round0 by exact H0. reflexivity.
  - intros Hne Hm Hs. rewrite roundStart_exact by assumption.
    subst start cfg ir. f_equal. lia.
Qed.

Lemma Handler_expected_arrival_witness :
  latencyReports
    (newEvents Toy.world21
       (snd (Handler Toy.d0 (Toy.buf Byte.x03 Byte.x09 Byte.x01) Toy.world21)))
  = [21 * 300 * second + 25 * second + (3 - 1) * (12 * second)].
Proof.
  assert (Hdec : Decode Toy.d0 (Toy.buf Byte.x03 Byte.x09 Byte.x01)
                 = Some {| msgLayer := 21;
                           msgIterRound := {| Iter := 0; Round := 3 |};
                           Value := [];
                           Eligibility := {| VrfProof := 0; Count := 1 |};
                           Sender := 9; Signature := 1 |})
    by reflexivity.
  assert (Hnil : fst (Handler Toy.d0 (Toy.buf Byte.x03 Byte.x09 Byte.x01)
                              Toy.world21) = None)
    by (vm_compute; reflexivity).
  destruct (Handler_expected_arrival Toy.d0 _ Toy.world21 _ Hdec Hnil)
    as [_ Hlater].
  assert (Hne : Round {| Iter := 0; Round := 3 |} <> 0) by discriminate.
  assert (Hm : in_int64 ((Absolute 7 {| Iter := 0; Round := 3 |} - 1)
                         * RoundDuration (config Toy.world21)))
    by (vm_compute; split; [discriminate | reflexivity]).
  assert (Hs : in_int64 (PreroundDelay (config Toy.world21)
                         + (Absolute 7 {| Iter := 0; Round := 3 |} - 1)
                           * RoundDuration (config Toy.world21)))
    by (vm_compute; split; [discriminate | reflexivity]).
  rewrite (Hlater Hne Hm Hs). vm_compute. reflexivity.
Defined.

(** C4, the claim as stated fails at the preround: its absolute index is 0
    and the expected arrival time is layer_start + preround_delay, one round
    duration later than the formula of the claim. *)
Lemma expected_arrival_preround_differs :
  fst (Handler Toy.d0 (Toy.buf Byte.x00 Byte.x09 Byte.x01) Toy.world21) = None
  /\ Absolute (rounds_per_iter Toy.d0) {| Iter := 0; Round := preround |} = 0
  /\ latencyReports
       (newEvents Toy.world21
          (snd (Handler Toy.d0 (Toy.buf Byte.x00 Byte.x09 Byte.x01)
                        Toy.world21)))
     = [LayerToTime Toy.d0 21 + PreroundDelay (config Toy.world21)]
  /\ LayerToTime Toy.d0 21 + PreroundDelay (config Toy.world21)
     <> LayerToTime Toy.d0 21 + PreroundDelay (config Toy.world21)
        + (Absolute (rounds_per_iter Toy.d0) {| Iter := 0; Round := preround |}
           - 1) * RoundDuration (config Toy.world21).
Proof.
  repeat split; try (vm_compute; reflexivity).
  vm_compute. discriminate.
Qed.

(** C8.  For a message that reaches the state machine, whose equivocation
    proofs name the sender: the proof is written to the identity store and
    the sender flagged in the ATX data, once, when the state machine returns
    an equivocation and the sender was not flagged malicious at receipt; with
    no equivocation, or a sender already flagged, nothing is written and the
    flags stay as they were. *)
Theorem equivocation_persisted_iff {protocol : Type} (d : Deps protocol)
        (buf : bytes) (w : World protocol) (msg : Message) (p : protocol) :
  Decode d buf = Some msg -> MsgValidate d msg = true ->
  sessions w !! msgLayer msg = Some p -> Verify d msg = true ->
  oracle_validate d msg <> grade0 ->
  let i := handlerInput d w msg in
  let equivocation := snd (snd (OnInput d p i)) in
  (forall e, equivocation = Some e -> SmesherID (fst (Messages e)) = Sender msg) ->
  let w' := snd (Handler d buf w) in
  let evs := newEvents w w' in
  (forall e, equivocation = Some e -> malicious i = false ->
             persisted evs = [(Sender msg, ToMalfeasanceProof d e)]
             /\ flagged evs = [Sender msg]
             /\ Sender msg ∈ maliciousIDs w')
  /\ (equivocation = None \/ malicious i = true ->
      persisted evs = [] /\ flagged evs = []
      /\ maliciousIDs w' = maliciousIDs w).
Proof.
  intros Hdec Hval Hreg Hver Hg i equivocation Hsender w' evs.
  destruct (Handler_handled d buf w msg p Hdec Hval Hreg Hver Hg)
    as (_ & _ & Hm & Ht).
  subst evs w'. rewrite (newEvents_app w _ _ Ht), Hm.
  fold i. fold equivocation. change (bool_decide (Sender msg ∈ maliciousIDs w))
    with (malicious i).
  rewrite !persisted_app, !flagged_app.
  split.
  - intros e He Hmal. rewrite He, Hmal, (Hsender e He). simpl.
    rewrite !persisted_app, !flagged_app.
    destruct (setMaliciousFails d _);
      destruct (fst (snd (OnInput d p i))); simpl;
      (split; [reflexivity | split; [reflexivity |]];
       apply elem_of_union_l, elem_of_singleton; reflexivity).
  - intros [Hnone | Hmal].
    + rewrite Hnone. destruct (fst (snd (OnInput d p i))); simpl; auto.
    + rewrite Hmal. destruct equivocation;
        destruct (fst (snd (OnInput d p i))); simpl; auto.
Qed.

Lemma equivocation_persisted_iff_witness :
  persisted
    (newEvents Toy.world21_seen9
       (snd (Handler Toy.d0 (Toy.buf Byte.x03 Byte.x09 Byte.x02)
                     Toy.world21_seen9)))
  = [(9, [])]
  /\ 9 ∈ maliciousIDs (snd (Handler Toy.d0 (Toy.buf Byte.x03 Byte.x09 Byte.x02)
                                     Toy.world21_seen9)).
Proof.
  pose (msg := {| msgLayer := 21; msgIterRound := {| Iter := 0; Round := 3 |};
                  Value := []; Eligibility := {| VrfProof := 0; Count := 1 |};
                  Sender := 9; Signature := 2 |}).
  pose (p := {| Toy.toyIterRound := {| Iter := 0; Round := 0 |};
                Toy.toyThreshold := 401; Toy.toySeen := [(9, 1)];
                Toy.toyStubborn := false |}).
  pose (e := {| Messages := ({| SmesherID := 9; proofSignature := 1 |},
                             {| SmesherID := 9; proofSignature := 2 |}) |}).
  assert (Hdec : Decode Toy.d0 (Toy.buf Byte.x03 Byte.x09 Byte.x02) = Some msg)
    by reflexivity.
  assert (Hval : MsgValidate Toy.d0 msg = true) by reflexivity.
  assert (Hreg : sessions Toy.world21_seen9 !! msgLayer msg = Some p)
    by (vm_compute; reflexivity).
  assert (Hver : Verify Toy.d0 msg = true) by reflexivity.
  assert (Hg : oracle_validate Toy.d0 msg <> grade0) by (vm_compute; discriminate).
  assert (Heq : snd (snd (OnInput Toy.d0 p (handlerInput Toy.d0 Toy.world21_seen9 msg)))
                = Some e)
    by (vm_compute; reflexivity).
  assert (Hsender : forall e',
             snd (snd (OnInput Toy.d0 p
                               (handlerInput Toy.d0 Toy.world21_seen9 msg)))
             = Some e' ->
             SmesherID (fst (Messages e')) = Sender msg).
  { intros e' He'. rewrite Heq in He'. injection He' as <-. reflexivity. }
  destruct (equivocation_persisted_iff Toy.d0 _ Toy.world21_seen9 msg p
              Hdec Hval Hreg Hver Hg Hsender) as [Hyes _].
  destruct (Hyes e Heq) as (Hp & _ & Hin).
  - vm_compute. reflexivity.
  - split; [exact Hp | exact Hin].
Defined.

(** ** selectProposals *)

Section SelectProposalsFacts.
Context {protocol : Type}.
Variable d : Deps protocol.
Variable w : World protocol.

(** The counting map holds, for each ATX, how many candidates point to
    it. *)
Lemma countATXs_fold (cs : list Proposal) (m : gmap Z Z) (a : ATXID) :
  default 0
    (fold_left (fun (m : gmap Z Z) p =>
                  <[pAtxID p := default 0 (m !! pAtxID p) + 1]> m) cs m !! a)
  = default 0 (m !! a)
    + Z.of_nat (length (filter (fun q => pAtxID q = a) cs)).
Proof.
  revert m. induction cs as [| p cs IH]; intros m; simpl.
  - lia.
  - rewrite IH. destruct (decide (pAtxID p = a)) as [Heq | Hne].
    + rewrite filter_cons_True by exact Heq. rewrite Heq, lookup_insert_eq.
      simpl length. simpl default. lia.
    + rewrite filter_cons_False by exact Hne.
      rewrite lookup_insert_ne by exact Hne. reflexivity.
Qed.

Lemma countATXs_spec (cs : list Proposal) (a : ATXID) :
  default 0 (countATXs cs !! a)
  = Z.of_nat (length (filter (fun q => pAtxID q = a) cs)).
Proof. unfold countATXs. rewrite countATXs_fold, lookup_empty. reflexivity. Qed.

Lemma filterProposals_sound (target : EpochID) (atxs : gmap Z Z) (min : ATX)
      (b : Beacon) (cs : list Proposal) (acc r : list ProposalID) :
  filterProposals w target atxs min b cs acc = Some r ->
  forall id, id ∈ r ->
             id ∈ acc
             \/ exists p, p ∈ cs /\ pID p = id
                          /\ passes w target atxs min b p.
Proof.
  revert acc. induction cs as [| p cs IH]; intros acc; simpl.
  - intros [= <-] id Hid. auto.
  - assert (Hskip : filterProposals w target atxs min b cs acc = Some r ->
                    forall id, id ∈ r ->
                      id ∈ acc
                      \/ exists q, q ∈ p :: cs /\ pID q = id
                                   /\ passes w target atxs min b q).
    { intros Hf id Hid.
      destruct (IH acc Hf id Hid) as [Hacc | (q & Hq & Hpass)];
        [left; exact Hacc |].
      right. exists q. split; [apply elem_of_cons; right; exact Hq |].
      exact Hpass. }
    destruct (bool_decide (pSmesherID p ∈ maliciousIDs w)) eqn:Hmal;
      simpl; [exact Hskip |].
    destruct (pIsMalicious p) eqn:Hpm; simpl; [exact Hskip |].
    destruct (Z.ltb_spec 1 (default 0 (atxs !! pAtxID p))) as [Hgt | Hle];
      [exact Hskip |].
    destruct (atxsdataGet w target (pAtxID p)) as [header |] eqn:Hh;
      [| discriminate].
    destruct (Z.leb_spec (Height min) (BaseHeight header)) as [Hhigh | Hlow];
      [exact Hskip |].
    destruct (Z.eqb_spec (pBeacon p) b) as [Hb | Hb]; [| exact Hskip].
    intros Hf id Hid.
    destruct (IH (acc ++ [pID p]) Hf id Hid) as [Hacc | (q & Hq & Hpass)].
    + apply elem_of_app in Hacc as [Hacc | Hone]; [left; exact Hacc |].
      apply list_elem_of_singleton in Hone. right. exists p.
      split; [apply elem_of_cons; left; reflexivity |].
      split; [congruence |].
      unfold passes. apply bool_decide_eq_false in Hmal.
      split; [exact Hmal |]. split; [exact Hpm |]. split; [exact Hle |].
      split; [exists header; split; [exact Hh | exact Hlow] | exact Hb].
    + right. exists q. split; [apply elem_of_cons; right; exact Hq |].
      exact Hpass.
Qed.

(** The first loop ends with an ATX of least height among the one it
    started from and the signers' own. *)
Lemma minATX_least (target publish : EpochID) (ss : list EdSigner)
      (acc : option ATX) (m : ATX) :
  minATX w target publish ss acc = Some (Some m) ->
  (acc = Some m \/ m ∈ ownATXs w target publish ss)
  /\ (forall a, acc = Some a -> Height m <= Height a)
  /\ (forall a, a ∈ ownATXs w target publish ss -> Height m <= Height a).
Proof.
  revert acc. induction ss as [| signer ss IH]; intros acc; simpl.
  - intros [= ->]. split; [left; reflexivity |]. split.
    + intros a [= ->]. lia.
    + intros a Ha. apply elem_of_nil in Ha. contradiction.
  - unfold ownATXs. simpl.
    destruct (atxIDs w publish (signerNodeID signer)) as [atxid | |];
      simpl; [| apply IH | discriminate].
    fold (ownATXs w target publish ss).
    destruct (atxsdataGet w target atxid) as [own |] eqn:Hown; simpl.
    + destruct acc as [cur |].
      * destruct (Z.ltb_spec (Height own) (Height cur)) as [Hlt | Hge];
          intros Hmin; destruct (IH _ Hmin) as (Hin & Hacc & Hall).
        -- split; [| split].
           ++ right. apply elem_of_cons.
              destruct Hin as [[= ->] | Hin]; [left; reflexivity | right; exact Hin].
           ++ intros a [= ->]. specialize (Hacc own eq_refl). lia.
           ++ intros a Ha. apply elem_of_cons in Ha as [-> | Ha];
                [apply Hacc; reflexivity | apply Hall; exact Ha].
        -- split; [| split].
           ++ destruct Hin as [Hin | Hin]; [left; exact Hin |].
              right. apply elem_of_cons. right. exact Hin.
           ++ exact Hacc.
           ++ intros a Ha. apply elem_of_cons in Ha as [-> | Ha];
                [| apply Hall; exact Ha].
              specialize (Hacc cur eq_refl). lia.
      * intros Hmin. destruct (IH _ Hmin) as (Hin & Hacc & Hall).
        split; [| split].
        -- right. apply elem_of_cons.
           destruct Hin as [[= ->] | Hin]; [left; reflexivity | right; exact Hin].
        -- discriminate.
        -- intros a Ha. apply elem_of_cons in Ha as [-> | Ha];
             [apply Hacc; reflexivity | apply Hall; exact Ha].
    + destruct acc as [cur |]; apply IH.
Qed.

Lemma minATX_none_found (target publish : EpochID) (ss : list EdSigner) :
  (forall signer, signer ∈ ss ->
                  atxIDs w publish (signerNodeID signer) = ErrNotFound) ->
  minATX w target publish ss None = Some None.
Proof.
  induction ss as [| signer ss IH]; intros Hnone; simpl; [reflexivity |].
  rewrite (Hnone signer) by (apply elem_of_cons; left; reflexivity).
  apply IH. intros s' Hs'. apply Hnone, elem_of_cons. right. exact Hs'.
Qed.
End SelectProposalsFacts.

(** C5 (as amended).  Every proposal id [selectProposals] returns is the id
    of a candidate of the layer whose smesher is not malicious, whose ATX
    occurs once among the candidates, whose beacon is the session's, and whose
    ATX base tick-height is strictly less than the least tick height
    ([Height]) among the local signers' ATXs; and when no local signer has an
    ATX for the prior epoch the result is empty. *)
Theorem selectProposals_sound {protocol : Type} (d : Deps protocol)
        (w : World protocol) (s : session protocol) :
  (forall id, id ∈ selectProposals d w s ->
     exists p header min,
       p ∈ proposalsFor w (lid s) /\ pID p = id
       /\ (pSmesherID p ∉ maliciousIDs w) /\ pIsMalicious p = false
       /\ length (filter (fun q => pAtxID q = pAtxID p)
                         (proposalsFor w (lid s))) = 1%nat
       /\ atxsdataGet w (GetEpoch d (lid s)) (pAtxID p) = Some header
       /\ min ∈ localATXs d w s
       /\ (forall a, a ∈ localATXs d w s -> Height min <= Height a)
       /\ BaseHeight header < Height min
       /\ pBeacon p = beacon s)
  /\ ((forall signer, signer ∈ signers s ->
         atxIDs w (uint32 (GetEpoch d (lid s) - 1)) (signerNodeID signer)
         = ErrNotFound) ->
      selectProposals d w s = []).
Proof.
  split.
  - intros id Hid. unfold selectProposals in Hid.
    destruct (minATX w (GetEpoch d (lid s)) (uint32 (GetEpoch d (lid s) - 1))
                     (signers s) None) as [[min |] |] eqn:Hmin;
      try (apply elem_of_nil in Hid; contradiction).
    destruct (filterProposals w (GetEpoch d (lid s))
                (countATXs (proposalsFor w (lid s))) min (beacon s)
                (proposalsFor w (lid s)) []) as [r |] eqn:Hf;
      try (apply elem_of_nil in Hid; contradiction).
    destruct (filterProposals_sound w _ _ _ _ _ _ _ Hf id Hid)
      as [Hnil | (p & Hp & Hpid & Hmal & Hpm & Hcount & (header & Hh & Hlt) & Hb)];
      [apply elem_of_nil in Hnil; contradiction |].
    destruct (minATX_least w _ _ _ _ _ Hmin) as ([[=] | Hin] & _ & Hleast).
    exists p, header, min. repeat split; try assumption.
    rewrite countATXs_spec in Hcount.
    assert (p ∈ filter (fun q => pAtxID q = pAtxID p) (proposalsFor w (lid s)))
      as Hpin by (apply list_elem_of_filter; auto).
    destruct (filter (fun q => pAtxID q = pAtxID p) (proposalsFor w (lid s)))
      as [| q [| q' l]]; simpl in *;
      [apply elem_of_nil in Hpin; contradiction | reflexivity | lia].
  - intros Hnone. unfold selectProposals.
    rewrite (minATX_none_found w _ _ _ Hnone). reflexivity.
Qed.

Lemma selectProposals_sound_witness :
  500 ∈ selectProposals Toy.d0 Toy.world Toy.session21
  /\ exists p header min,
       p ∈ proposalsFor Toy.world 21 /\ pID p = 500
       /\ min ∈ localATXs Toy.d0 Toy.world Toy.session21
       /\ BaseHeight header < Height min.
Proof.
  assert (Hin : 500 ∈ selectProposals Toy.d0 Toy.world Toy.session21)
    by (vm_compute; left).
  split; [exact Hin |].
  destruct (proj1 (selectProposals_sound Toy.d0 Toy.world Toy.session21)
                  500 Hin)
    as (p & header & min & Hp & Hid & _ & _ & _ & _ & Hmin & _ & Hlt & _).
  exists p, header, min. auto.
Defined.

(** C5, the claim as stated fails: the proposal 500 is selected, its ATX has
    base tick-height 7, and the only local ATX has base tick-height 5 (and
    tick height 10). *)
Lemma selectProposals_compares_with_height :
  selectProposals Toy.d0 Toy.world Toy.session21 = [500]
  /\ proposalsFor Toy.world 21
     = [ {| pID := 500; pAtxID := 200; pSmesherID := 2; pBeacon := 77;
            pIsMalicious := false |} ]
  /\ atxsdataGet Toy.world (GetEpoch Toy.d0 21) 200 = Some Toy.atx7
  /\ localATXs Toy.d0 Toy.world Toy.session21 = [Toy.atx5]
  /\ ~ (BaseHeight Toy.atx7 < BaseHeight Toy.atx5).
Proof.
  repeat split; try (vm_compute; reflexivity).
  vm_compute. discriminate.
Qed.

(** ** onOutput *)

Lemma count_app (f : Event -> bool) (t1 t2 : list Event) :
  count f (t1 ++ t2) = (count f t1 + count f t2)%nat.
Proof. unfold count. rewrite filter_app, length_app. reflexivity. Qed.

Lemma count_cons (f : Event -> bool) (e : Event) (t : list Event) :
  count f (e :: t) = ((if f e then 1 else 0) + count f t)%nat.
Proof.
  unfold count. destruct (f e) eqn:He.
  - rewrite filter_cons_True by exact He. reflexivity.
  - rewrite filter_cons_False by congruence. reflexivity.
Qed.

Lemma count_nil (f : Event -> bool) : count f [] = 0%nat.
Proof. reflexivity. Qed.

Section OnOutputFacts.
Context {protocol : Type}.
Variable d : Deps protocol.
Implicit Types (w : World protocol) (s : session protocol).

Lemma selectCtx_spec (other : Event) w :
  selectCtx d other w
  = if ctxDone d (count isSelect (trace w))
    then (true, set_trace (trace w ++ [EvCtxDone]) w)
    else (false, set_trace (trace w ++ [other]) w).
Proof.
  unfold selectCtx. run_monad. fold (count isSelect (trace w)).
  destruct (ctxDone d _); reflexivity.
Qed.

Lemma publishEvents_no_select (topic : string) (n : nat) (msgs : list Message) :
  count isSelect (publishEvents d topic n msgs) = 0%nat.
Proof.
  revert n. induction msgs as [| m ms IH]; intros n; simpl; [reflexivity |].
  rewrite count_cons, count_app, IH. simpl.
  destruct (publishFails d n); reflexivity.
Qed.

Lemma publishEvents_count (topic : string) (n : nat) (msgs : list Message) :
  count isPublish (publishEvents d topic n msgs) = length msgs.
Proof.
  revert n. induction msgs as [| m ms IH]; intros n; simpl; [reflexivity |].
  rewrite count_cons, count_app, IH. simpl.
  destruct (publishFails d n); reflexivity.
Qed.

Lemma publishEvents_published (topic : string) (n : nat) (msgs : list Message) :
  published (publishEvents d topic n msgs) = msgs.
Proof.
  revert n. induction msgs as [| m ms IH]; intros n; simpl; [reflexivity |].
  unfold published in *. rewrite omap_app, IH.
  destruct (publishFails d n); reflexivity.
Qed.

Lemma publishEvents_delivered (topic : string) (n : nat) (msgs : list Message) :
  delivered (publishEvents d topic n msgs) = [].
Proof.
  revert n. induction msgs as [| m ms IH]; intros n; simpl; [reflexivity |].
  unfold delivered in *. rewrite omap_app, IH.
  destruct (publishFails d n); reflexivity.
Qed.

Lemma set_trace_same w : set_trace (trace w) w = w.
Proof. destruct w; reflexivity. Qed.

Lemma set_trace_eq (t1 t2 : list Event) w :
  t1 = t2 -> set_trace t1 w = set_trace t2 w.
Proof. intros ->. reflexivity. Qed.

Lemma set_trace_set_trace (t1 t2 : list Event) w :
  set_trace t2 (set_trace t1 w) = set_trace t2 w.
Proof. reflexivity. Qed.

(** Publishing goes through all the slots, whatever the publishes answer. *)
Lemma publishAll_spec (topic : string) (layer : LayerID)
      (ss : list EdSigner) (vs : list (option HareEligibility))
      (out : output) w :
  publishAll d topic layer ss vs out w
  = (tt, set_trace (trace w
                    ++ publishEvents d topic (count isPublish (trace w))
                                     (outgoing d layer ss vs out)) w).
Proof.
  revert ss w. induction vs as [| vrf vs IH]; intros ss w.
  - simpl. unfold ret. rewrite app_nil_r, set_trace_same. reflexivity.
  - destruct ss as [| signer ss].
    { simpl. unfold ret. rewrite app_nil_r, set_trace_same. reflexivity. }
    simpl.
    destruct vrf as [v |]; [destruct (message out) as [m |] |];
      try (unfold bind at 1; unfold ret at 1; rewrite IH; reflexivity).
    unfold bind at 1. unfold bind at 1. unfold Publish.
    unfold countEvents, bind, gets, emit, ret.
    fold (count isPublish (trace w)).
    destruct (publishFails d (count isPublish (trace w))) eqn:Hf;
      rewrite IH; cbn [trace set_trace fst snd];
      rewrite !set_trace_set_trace;
      f_equal; apply set_trace_eq;
      rewrite ?count_app, ?count_cons, ?count_nil; cbn [isPublish isLogError];
      simpl publishEvents; rewrite Hf; rewrite <- ?app_assoc; simpl;
      repeat f_equal; lia.
Qed.

Lemma resultSelect_next (n : nat) (layer : LayerID) (out : output)
      (t : list Event) w :
  count isSelect t = n ->
  (cancelled <- match result out with
                | Some r =>
                  selectCtx d (EvResult {| coLayer := layer; Proposals := r |})
                | None => ret false
                end ;;
   if cancelled then ret (Some CtxErr) else ret None) (set_trace t w)
  = (fst (resultSelect d n layer out),
     set_trace (t ++ snd (resultSelect d n layer out)) w).
Proof.
  intros Hn. unfold resultSelect, bind, ret.
  destruct (result out) as [r |]; simpl.
  - rewrite selectCtx_spec. simpl. rewrite Hn.
    destruct (ctxDone d n); reflexivity.
  - rewrite app_nil_r. reflexivity.
Qed.

Lemma onOutput_spec s (ir : IterRound) (out : output) w :
  let n := count isSelect (trace w) in
  onOutput d s ir out w
  = (fst (outputSelects d n (lid s) out),
     set_trace (trace w
                ++ publishEvents d (ProtocolName (config w))
                     (count isPublish (trace w))
                     (outgoing d (lid s) (signers s) (vrfs s) out)
                ++ [EvMessageSent (message out)]
                ++ snd (outputSelects d n (lid s) out)) w).
Proof.
  intros n. unfold onOutput.
  unfold bind at 1. unfold gets at 1.
  unfold bind at 1. rewrite publishAll_spec.
  unfold bind at 1. unfold emit at 1. simpl.
  set (t := (trace w ++ publishEvents d (ProtocolName (config w))
                       (count isPublish (trace w))
                       (outgoing d (lid s) (signers s) (vrfs s) out))
            ++ [EvMessageSent (message out)]).
  assert (Ht : count isSelect t = n).
  { subst t. rewrite !count_app, publishEvents_no_select. simpl.
    unfold n. rewrite count_cons, count_nil. simpl. lia. }
  change (set_trace t (set_trace _ w)) with (set_trace t w).
  unfold outputSelects.
  destruct (coin out) as [c |].
  - unfold bind at 1. rewrite selectCtx_spec. simpl. rewrite Ht.
    destruct (ctxDone d n).
    + unfold ret. simpl. subst t. rewrite <- !app_assoc. reflexivity.
    + change (set_trace (t ++ [EvCoin {| wcLayer := lid s; Coin := c |}])
                        (set_trace t w))
        with (set_trace (t ++ [EvCoin {| wcLayer := lid s; Coin := c |}]) w).
      rewrite (resultSelect_next (S n)).
      * destruct (resultSelect d (S n) (lid s) out) as [err evs]. simpl.
        subst t. rewrite <- !app_assoc. reflexivity.
      * rewrite count_app, Ht, count_cons, count_nil. simpl. lia.
  - unfold bind at 1. unfold ret at 1.
    rewrite (resultSelect_next n _ _ _ _ Ht).
    subst t. rewrite <- !app_assoc. reflexivity.
Qed.
End OnOutputFacts.

Lemma ctxDoneTaken_app (t1 t2 : list Event) :
  ctxDoneTaken (t1 ++ t2) = ctxDoneTaken t1 || ctxDoneTaken t2.
Proof. apply existsb_app. Qed.

Lemma published_app (t1 t2 : list Event) :
  published (t1 ++ t2) = published t1 ++ published t2.
Proof. apply omap_app. Qed.

Lemma delivered_app (t1 t2 : list Event) :
  delivered (t1 ++ t2) = delivered t1 ++ delivered t2.
Proof. apply omap_app. Qed.

Section OnOutputClaims.
Context {protocol : Type}.
Variable d : Deps protocol.

Lemma publishEvents_no_ctxDone (topic : string) (n : nat) (msgs : list Message) :
  ctxDoneTaken (publishEvents d topic n msgs) = false.
Proof.
  revert n. induction msgs as [| m ms IH]; intros n; simpl; [reflexivity |].
  rewrite ctxDoneTaken_app, IH. destruct (publishFails d n); reflexivity.
Qed.

Lemma publishEvents_logged (topic : string) (n : nat) (msgs : list Message) :
  count isLogError (publishEvents d topic n msgs)
  = failedPublishes d n (length msgs).
Proof.
  revert n. induction msgs as [| m ms IH]; intros n; simpl; [reflexivity |].
  rewrite count_cons, count_app, IH. simpl.
  destruct (publishFails d n); reflexivity.
Qed.

(** The sends report an error exactly when one of them took the done
    case, and they write no log line and publish nothing. *)
Lemma outputSelects_verdict (n : nat) (layer : LayerID) (out : output) :
  let r := outputSelects d n layer out in
  (fst r = None \/ fst r = Some CtxErr)
  /\ ctxDoneTaken (snd r) = match fst r with Some _ => true | None => false end
  /\ count isLogError (snd r) = 0%nat
  /\ published (snd r) = [].
Proof.
  unfold outputSelects, resultSelect.
  destruct (coin out) as [c |], (result out) as [r |]; simpl;
    repeat (match goal with |- context [ctxDone d ?k] =>
              destruct (ctxDone d k) end; simpl);
    repeat split; auto.
Qed.

Lemma outgoing_senders (layer : LayerID) (ss : list EdSigner)
      (vs : list (option HareEligibility)) (out : output) :
  Sender <$> outgoing d layer ss vs out
  = match message out with
    | Some _ => signerNodeID <$> eligibleSigners ss vs
    | None => []
    end.
Proof.
  revert ss. induction vs as [| vrf vs IH]; intros ss; simpl.
  - destruct (message out); reflexivity.
  - destruct ss as [| signer ss]; simpl; [destruct (message out); reflexivity |].
    rewrite fmap_app, IH.
    destruct vrf as [v |], (message out) as [m |]; reflexivity.
Qed.

Lemma outgoing_withPublishFails (fails : nat -> bool) (layer : LayerID)
      (ss : list EdSigner) (vs : list (option HareEligibility))
      (out : output) :
  outgoing (withPublishFails fails d) layer ss vs out
  = outgoing d layer ss vs out.
Proof.
  revert ss. induction vs as [| vrf vs IH]; intros ss; simpl; [reflexivity |].
  destruct ss as [| signer ss]; simpl; [reflexivity |].
  rewrite IH. reflexivity.
Qed.
End OnOutputClaims.

(** C9.  [onOutput] returns an error only when one of its sends took the
    done case of the context, and the error is then the context's.  Whatever
    the publishes answer, a message is published for every eligible signer,
    each failure is logged, and the error returned and the coin and result
    delivered are the same as with any other answers. *)
Theorem onOutput_publish_failures_harmless {protocol : Type}
        (d : Deps protocol) (s : session protocol) (ir : IterRound)
        (out : output) (w : World protocol) :
  let r := onOutput d s ir out w in
  let evs := newEvents w (snd r) in
  (forall e, fst r = Some e -> e = CtxErr /\ ctxDoneTaken evs = true)
  /\ (fst r = None -> ctxDoneTaken evs = false)
  /\ Sender <$> published evs
     = match message out with
       | Some _ => signerNodeID <$> eligibleSigners (signers s) (vrfs s)
       | None => []
       end
  /\ count isLogError evs
     = failedPublishes d (count isPublish (trace w)) (length (published evs))
  /\ (forall fails,
        let r' := onOutput (withPublishFails fails d) s ir out w in
        fst r' = fst r
        /\ published (newEvents w (snd r')) = published evs
        /\ delivered (newEvents w (snd r')) = delivered evs).
Proof.
  intros r evs. subst evs r.
  rewrite onOutput_spec. cbn [fst snd].
  rewrite newEvents_set_trace.
  destruct (outputSelects_verdict d (count isSelect (trace w)) (lid s) out)
    as (Hv & Hdone & Hlog & Hpub).
  cbv zeta in Hv, Hdone, Hlog, Hpub.
  rewrite !ctxDoneTaken_app, publishEvents_no_ctxDone, Hdone.
  rewrite !published_app, publishEvents_published, Hpub, app_nil_r.
  change (ctxDoneTaken [EvMessageSent (message out)]) with false.
  cbn [orb].
  split; [| split; [| split; [| split]]].
  - intros e He. rewrite He in *. destruct Hv as [[=] | [= ->]].
    split; reflexivity.
  - intros ->. reflexivity.
  - apply outgoing_senders.
  - rewrite !count_app, publishEvents_logged, Hlog, count_cons, count_nil.
    cbn [isLogError]. lia.
  - intros fails. rewrite onOutput_spec. cbn [fst snd].
    rewrite newEvents_set_trace, outgoing_withPublishFails.
    change (outputSelects (withPublishFails fails d)) with (outputSelects d).
    split; [reflexivity |]. split.
    + rewrite !published_app, publishEvents_published, Hpub, app_nil_r.
      reflexivity.
    + rewrite !delivered_app, !publishEvents_delivered. reflexivity.
Qed.

Lemma onOutput_publish_failures_harmless_witness :
  fst (onOutput Toy.dFailing Toy.sessionActive
                {| Iter := 0; Round := 3 |} Toy.outCoin Toy.world21) = None
  /\ Sender <$> published
                  (newEvents Toy.world21
                     (snd (onOutput Toy.dFailing Toy.sessionActive
                                    {| Iter := 0; Round := 3 |} Toy.outCoin
                                    Toy.world21)))
     = [1]
  /\ count isLogError
           (newEvents Toy.world21
              (snd (onOutput Toy.dFailing Toy.sessionActive
                             {| Iter := 0; Round := 3 |} Toy.outCoin
                             Toy.world21)))
     = 1%nat
  /\ delivered
       (newEvents Toy.world21
          (snd (onOutput Toy.dFailing Toy.sessionActive
                         {| Iter := 0; Round := 3 |} Toy.outCoin
                         Toy.world21)))
     = [EvCoin {| wcLayer := 21; Coin := true |}].
Proof.
  destruct (onOutput_publish_failures_harmless Toy.dFailing Toy.sessionActive
              {| Iter := 0; Round := 3 |} Toy.outCoin Toy.world21)
    as (_ & _ & Hsenders & Hlogged & Hsame).
  split; [vm_compute; reflexivity |].
  split; [rewrite Hsenders; reflexivity |].
  split; [rewrite Hlogged; vm_compute; reflexivity |].
  destruct (Hsame Toy.never) as (_ & _ & Hdelivered).
  rewrite <- Hdelivered. vm_compute. reflexivity.
Defined.

(** ** run *)

Section EmitsOnly.
Context {protocol : Type}.
Variable P : Event -> bool.
Implicit Types (w : World protocol).

Lemma emitsOnly_ret {A} (a : A) : emitsOnly (protocol := protocol) P (ret a).
Proof. intros w. exists []. simpl. rewrite app_nil_r. auto. Qed.

Lemma emitsOnly_gets {A} (f : World protocol -> A) : emitsOnly P (gets f).
Proof. intros w. exists []. simpl. rewrite app_nil_r. auto. Qed.

Lemma emitsOnly_emit (e : Event) :
  P e = true -> emitsOnly (protocol := protocol) P (emit e).
Proof. intros H w. exists [e]. simpl. rewrite H. auto. Qed.

(** An update of the world that leaves the trace alone. *)
Lemma emitsOnly_update {A} (f : World protocol -> A * World protocol) :
  (forall w, trace (snd (f w)) = trace w) -> emitsOnly P f.
Proof. intros H w. exists []. rewrite app_nil_r. auto. Qed.

Lemma emitsOnly_bind {A B} (m : M (World protocol) A)
      (k : A -> M (World protocol) B) :
  emitsOnly P m -> (forall a, emitsOnly P (k a)) -> emitsOnly P (bind m k).
Proof.
  intros Hm Hk w. unfold bind.
  destruct (Hm w) as (e1 & Ht1 & Hp1).
  destruct (m w) as [a w1]. simpl in *.
  destruct (Hk a w1) as (e2 & Ht2 & Hp2).
  exists (e1 ++ e2). rewrite Ht2, Ht1, <- app_assoc.
  split; [reflexivity |]. rewrite forallb_app, Hp1, Hp2. reflexivity.
Qed.
End EmitsOnly.

Section RunQuiet.
Context {protocol : Type}.
Variable d : Deps protocol.
Variable P : Event -> bool.
Hypothesis P_select : forall e, isSelect e = true -> P e = true.
Hypothesis P_publish : forall e, isPublish e = true -> P e = true.
Hypothesis P_log : forall e, isLogError e = true -> P e = true.
Hypothesis P_sent : forall m, P (EvMessageSent m) = true.
Hypothesis P_active : forall v, P (EvOnActive v) = true.

Lemma emitsOnly_selectCtx (other : Event) :
  isSelect other = true -> emitsOnly P (selectCtx d other).
Proof.
  intros H. unfold selectCtx, countEvents.
  apply emitsOnly_bind; [apply emitsOnly_gets | intros n].
  destruct (ctxDone d n);
    (apply emitsOnly_bind; [apply emitsOnly_emit, P_select | intros; apply emitsOnly_ret]);
    [reflexivity | exact H].
Qed.

Lemma emitsOnly_publishAll (topic : string) (layer : LayerID)
      (ss : list EdSigner) (vs : list (option HareEligibility))
      (out : output) :
  emitsOnly P (publishAll d topic layer ss vs out).
Proof.
  revert ss. induction vs as [| vrf vs IH]; intros ss; simpl;
    [apply emitsOnly_ret |].
  destruct ss as [| signer ss]; [apply emitsOnly_ret |].
  apply emitsOnly_bind; [| intros; apply IH].
  destruct vrf as [v |]; [destruct (message out) as [m |] |];
    try apply emitsOnly_ret.
  unfold Publish, countEvents.
  apply emitsOnly_bind.
  - apply emitsOnly_bind; [apply emitsOnly_gets | intros n].
    apply emitsOnly_bind; [apply emitsOnly_emit, P_publish; reflexivity |].
    intros; apply emitsOnly_ret.
  - intros [|]; [apply emitsOnly_emit, P_log; reflexivity | apply emitsOnly_ret].
Qed.

Lemma emitsOnly_onOutput (s : session protocol) (ir : IterRound)
      (out : output) :
  emitsOnly P (onOutput d s ir out).
Proof.
  unfold onOutput.
  apply emitsOnly_bind; [apply emitsOnly_gets | intros cfg].
  apply emitsOnly_bind; [apply emitsOnly_publishAll | intros _].
  apply emitsOnly_bind; [apply emitsOnly_emit, P_sent | intros _].
  apply emitsOnly_bind.
  { destruct (coin out);
      [apply emitsOnly_selectCtx; reflexivity | apply emitsOnly_ret]. }
  intros [|]; [apply emitsOnly_ret |].
  apply emitsOnly_bind.
  { destruct (result out);
      [apply emitsOnly_selectCtx; reflexivity | apply emitsOnly_ret]. }
  intros [|]; apply emitsOnly_ret.
Qed.

Lemma emitsOnly_storeProto (s : session protocol) (p : protocol) :
  emitsOnly P (storeProto s p).
Proof. apply emitsOnly_update. intros w. reflexivity. Qed.

Lemma emitsOnly_runRound (s : session protocol) (walltime : Time)
      (got : bool) :
  emitsOnly P (runRound d s walltime got).
Proof.
  unfold runRound.
  apply emitsOnly_bind; [apply emitsOnly_gets | intros cfg].
  apply emitsOnly_bind; [apply emitsOnly_emit, P_active | intros _].
  apply emitsOnly_bind; [apply emitsOnly_selectCtx; reflexivity |].
  intros [|]; [apply emitsOnly_ret |].
  destruct (Next d _) as [p out].
  apply emitsOnly_bind; [apply emitsOnly_storeProto | intros s'].
  apply emitsOnly_bind; [apply emitsOnly_onOutput | intros err].
  destruct err; [apply emitsOnly_ret |].
  destruct (terminated out);
    [destruct (negb _); apply emitsOnly_ret |].
  destruct (_ =? _); apply emitsOnly_ret.
Qed.

Lemma emitsOnly_runLoop (rounds : nat) (s : session protocol)
      (walltime : Time) (got : bool) :
  emitsOnly P (runLoop d rounds s walltime got).
Proof.
  revert s walltime got. induction rounds as [| n IH]; intros s walltime got;
    simpl; [apply emitsOnly_ret |].
  apply emitsOnly_bind; [apply emitsOnly_runRound |].
  intros [s' walltime' got' | err]; [apply IH | apply emitsOnly_ret].
Qed.

Lemma emitsOnly_runStart (s : session protocol) :
  emitsOnly P (runStart d s).
Proof.
  unfold runStart.
  apply emitsOnly_bind; [apply emitsOnly_gets | intros cfg].
  apply emitsOnly_bind; [apply emitsOnly_emit, P_active | intros _].
  apply emitsOnly_bind.
  { destruct (existsb _ _); [| apply emitsOnly_ret].
    apply emitsOnly_bind; [apply emitsOnly_selectCtx; reflexivity |].
    intros [|]; [apply emitsOnly_ret |].
    apply emitsOnly_bind; [apply emitsOnly_gets | intros proposals].
    apply emitsOnly_bind; [apply emitsOnly_storeProto | intros s'].
    apply emitsOnly_ret. }
  intros [e | s']; [apply emitsOnly_ret |].
  destruct (Next d _) as [p out].
  apply emitsOnly_bind; [apply emitsOnly_storeProto | intros s''].
  apply emitsOnly_bind; [apply emitsOnly_onOutput | intros err].
  destruct err; apply emitsOnly_ret.
Qed.

Lemma emitsOnly_run (rounds : nat) (s : session protocol) :
  emitsOnly P (run d rounds s).
Proof.
  unfold run.
  apply emitsOnly_bind; [apply emitsOnly_runStart |].
  intros [e | [s' walltime]]; [apply emitsOnly_ret | apply emitsOnly_runLoop].
Qed.
End RunQuiet.

(** With a slot for each signer the in-place writes fill every slot, in
    range, with the signer's answer. *)
Lemma setVrfs_from (f : EdSigner -> option HareEligibility) (i : nat)
      (ss : list EdSigner) (vs : list (option HareEligibility)) :
  (i + length ss = length vs)%nat ->
  setVrfs f i ss vs = take i vs ++ (f <$> ss).
Proof.
  revert i vs. induction ss as [| signer ss IH]; intros i vs Hlen; simpl in *.
  - rewrite app_nil_r, take_ge by lia. reflexivity.
  - rewrite IH by (rewrite length_insert; lia).
    assert (Hslot : <[i := f signer]> vs !! i = Some (f signer))
      by (apply list_lookup_insert_eq; lia).
    rewrite (take_S_r _ _ _ Hslot), take_insert_ge by lia.
    rewrite <- app_assoc. reflexivity.
Qed.

Lemma setVrfs_all (f : EdSigner -> option HareEligibility)
      (ss : list EdSigner) (vs : list (option HareEligibility)) :
  length vs = length ss -> setVrfs f 0 ss vs = f <$> ss.
Proof. intros Hlen. rewrite setVrfs_from by (simpl; lia). reflexivity. Qed.

Section RunFacts.
Context {protocol : Type}.
Variable d : Deps protocol.
Implicit Types (w : World protocol) (s : session protocol).

(** One round of the loop, without the world: what it returns is fixed by
    whether its wait is cancelled, what [Next] puts out, and whether the
    sends of [onOutput] are cancelled. *)
Lemma runRound_fst s (walltime : Time) (got : bool) w :
  let n := count isSelect (trace w) in
  let cfg := config w in
  let current := protoIterRound d (proto s) in
  let out := snd (Next d (proto s)) in
  fst (runRound d s walltime got w)
  = if ctxDone d n then Return None
    else match fst (outputSelects d (S n) (lid s) out) with
         | Some e => Return (Some e)
         | None =>
           if terminated out then
             if negb (gotResult got out)
             then Return (Some ErrTerminatedWithoutResult)
             else Return None
           else if Iter current =? IterationsLimit cfg
           then Return (Some (ErrNoConsensus (IterationsLimit cfg)))
           else Continue (set_proto (fst (Next d (proto s)))
                                    (set_vrfs (roundVrfs d s) s))
                         (Time_Add walltime (RoundDuration cfg))
                         (gotResult got out)
         end.
Proof.
  intros n cfg current out. subst out current.
  unfold runRound. unfold bind at 1. unfold gets at 1.
  unfold bind at 1. unfold emit at 1.
  unfold bind at 1. rewrite selectCtx_spec. cbn [trace set_trace].
  rewrite count_app, count_cons, count_nil. cbn [isSelect].
  rewrite !Nat.add_0_r. fold n.
  destruct (ctxDone d n); [reflexivity |].
  cbn [proto set_vrfs].
  destruct (Next d (proto s)) as [p out] eqn:HNext. cbn [fst snd].
  unfold bind at 1. unfold storeProto at 1.
  unfold bind at 1. rewrite onOutput_spec.
  cbn [trace set_trace set_sessions lid set_proto set_vrfs fst snd].
  rewrite !count_app, !count_cons, count_nil. cbn [isSelect].
  match goal with
  | |- context [outputSelects d ?k _ _] =>
    replace k with (S n) by (unfold n; lia)
  end.
  unfold gotResult.
  destruct (fst (outputSelects d (S n) (lid s) out)); [reflexivity |].
  cbn [config set_trace set_sessions]. fold cfg.
  destruct (terminated out).
  - destruct (result out); destruct got; reflexivity.
  - destruct (Iter _ =? IterationsLimit cfg); reflexivity.
Qed.

(** A loop that returns did so in a round it reached. *)
Lemma runLoop_returned_inv (rounds : nat) s (walltime : Time) (got : bool)
      w (err : option RunError) w' :
  runLoop d rounds s walltime got w = (Returned err, w') ->
  exists s1 walltime1 got1 w1,
    LoopReaches d (s, walltime, got, w) (s1, walltime1, got1, w1)
    /\ runRound d s1 walltime1 got1 w1 = (Return err, w').
Proof.
  revert s walltime got w.
  induction rounds as [| n IH]; intros s walltime got w; simpl;
    [discriminate |].
  unfold bind. destruct (runRound d s walltime got w) as [r w1] eqn:Hr.
  destruct r as [s' walltime' got' | e].
  - intros H. destruct (IH _ _ _ _ H) as (s1 & wt1 & got1 & w2 & Hreach & Hret).
    exists s1, wt1, got1, w2. split; [| exact Hret].
    eapply reaches_round; eassumption.
  - intros [= <- <-]. exists s, walltime, got, w.
    split; [apply reaches_here | exact Hr].
Qed.

(** A round that is reached and returns makes the loop return, once the
    loop is given enough rounds. *)
Lemma runLoop_returns (x y : LoopState protocol) (err : option RunError) w' :
  LoopReaches d x y ->
  runRound d (fst (fst (fst y))) (snd (fst (fst y))) (snd (fst y)) (snd y)
  = (Return err, w') ->
  exists k, forall rounds, (k <= rounds)%nat ->
    runLoop d rounds (fst (fst (fst x))) (snd (fst (fst x))) (snd (fst x))
            (snd x)
    = (Returned err, w').
Proof.
  induction 1 as [x | s wt got w s' wt' got' w1 y Hstep Hreach IH];
    intros Hret.
  - exists 1%nat. intros [| n] Hle; [lia |]. simpl. unfold bind.
    rewrite Hret. reflexivity.
  - destruct (IH Hret) as (k & Hk). exists (S k).
    intros [| n] Hle; [lia |]. simpl. unfold bind. rewrite Hstep.
    apply Hk. lia.
Qed.

Lemma run_returned_inv (rounds : nat) s w (err : option RunError) w' :
  run d rounds s w = (Returned err, w') ->
  (exists e, runStart d s w = (inl e, w') /\ err = Some e)
  \/ exists s0 walltime0 w0 s1 walltime1 got1 w1,
       runStart d s w = (inr (s0, walltime0), w0)
       /\ LoopReaches d (s0, walltime0, false, w0) (s1, walltime1, got1, w1)
       /\ runRound d s1 walltime1 got1 w1 = (Return err, w').
Proof.
  unfold run, bind.
  destruct (runStart d s w) as [[e | [s0 wt0]] w0].
  - intros [= <- <-]. left. eauto.
  - intros H. right.
    destruct (runLoop_returned_inv _ _ _ _ _ _ _ H)
      as (s1 & wt1 & got1 & w1 & Hreach & Hret).
    exists s0, wt0, w0, s1, wt1, got1, w1. auto.
Qed.

(** The preround part of [run] returns only errors. *)
Lemma completed_of_quiet (evs : list Event) :
  forallb notCompleteHare evs = true -> completed evs = [].
Proof.
  induction evs as [| e evs IH]; simpl; [reflexivity |].
  intros H. apply andb_true_iff in H as [He Hevs].
  unfold completed in *. simpl. rewrite (IH Hevs).
  destruct e; try reflexivity. discriminate.
Qed.

Lemma run_completes_nothing (rounds : nat) s w :
  exists evs, trace (snd (run d rounds s w)) = trace w ++ evs
              /\ completed evs = [].
Proof.
  destruct (emitsOnly_run d notCompleteHare) with (rounds := rounds)
                                                  (s := s) (w := w)
    as (evs & Ht & Hq);
    try (intros []; simpl; intros; (reflexivity || discriminate)).
  exists evs. split; [exact Ht | apply completed_of_quiet, Hq].
Qed.

Lemma sessionTask_completed (rounds : nat) s w (err : option RunError) w' :
  sessionTask d rounds s w = (Returned err, w') ->
  completed (newEvents w w')
  = match err with Some _ => [lid s] | None => [] end.
Proof.
  unfold sessionTask. unfold bind at 1.
  destruct (run_completes_nothing rounds s w) as (evs & Ht & Hc).
  destruct (run d rounds s w) as [[| e] w1]; simpl in Ht.
  - discriminate.
  - destruct e as [e |]; run_monad; intros [= <- <-]; simpl;
      unfold newEvents; simpl; rewrite Ht, <- !app_assoc, drop_app_length;
      unfold completed in *; rewrite omap_app, Hc; reflexivity.
Qed.
End RunFacts.

(** C7 (as amended).  A round of the loop of [run] returns without error
    exactly when its wait is cut short by the context, or its output is
    delivered, the protocol reports terminated and this or an earlier round
    of the loop had a result; it returns an error when the protocol
    terminates with no result, and when the output is delivered without
    termination in a round whose iteration is the iterations limit.  [run]
    returns without error only out of such a round, a round that returns
    makes [run] return when given enough rounds, and the task calls
    CompleteHare for the layer, once, exactly when [run] returned an
    error. *)
Theorem run_returns_nil_iff {protocol : Type} (d : Deps protocol) :
  (forall (s : session protocol) walltime got (w : World protocol),
     let n := count isSelect (trace w) in
     let current := protoIterRound d (proto s) in
     let out := snd (Next d (proto s)) in
     let delivery := fst (outputSelects d (S n) (lid s) out) in
     let r := fst (runRound d s walltime got w) in
     (r = Return None <->
      ctxDone d n = true
      \/ (ctxDone d n = false /\ delivery = None /\ terminated out = true
          /\ gotResult got out = true))
     /\ (ctxDone d n = false -> delivery = None -> terminated out = true ->
         gotResult got out = false ->
         r = Return (Some ErrTerminatedWithoutResult))
     /\ (ctxDone d n = false -> delivery = None -> terminated out = false ->
         Iter current = IterationsLimit (config w) ->
         r = Return (Some (ErrNoConsensus (IterationsLimit (config w))))))
  /\ (forall rounds (s : session protocol) (w w' : World protocol),
        run d rounds s w = (Returned None, w') ->
        exists s0 walltime0 w0 s1 walltime1 got1 w1,
          runStart d s w = (inr (s0, walltime0), w0)
          /\ LoopReaches d (s0, walltime0, false, w0) (s1, walltime1, got1, w1)
          /\ runRound d s1 walltime1 got1 w1 = (Return None, w'))
  /\ (forall (s : session protocol) (w : World protocol) s0 walltime0 w0
             s1 walltime1 got1 w1 err w',
        runStart d s w = (inr (s0, walltime0), w0) ->
        LoopReaches d (s0, walltime0, false, w0) (s1, walltime1, got1, w1) ->
        runRound d s1 walltime1 got1 w1 = (Return err, w') ->
        exists k, forall rounds, (k <= rounds)%nat ->
                                 run d rounds s w = (Returned err, w'))
  /\ (forall rounds (s : session protocol) (w w' : World protocol) err,
        sessionTask d rounds s w = (Returned err, w') ->
        completed (newEvents w w')
        = match err with Some _ => [lid s] | None => [] end).
Proof.
  split; [| split; [| split]].
  - intros s walltime got w n current out delivery r. subst r.
    rewrite runRound_fst. fold n. fold out. fold delivery. fold current.
    destruct (ctxDone d n).
    { split; [split; [auto | reflexivity] |]. split; discriminate. }
    destruct delivery as [e |].
    { split; [| split; discriminate].
      split; [discriminate | intros [[=] | (_ & [=] & _)]]. }
    destruct (terminated out).
    + destruct (gotResult got out); simpl.
      * split; [split; [auto 6 | reflexivity] |]. split; discriminate.
      * split; [| split; [reflexivity | discriminate]].
        split; [discriminate | intros [[=] | (_ & _ & _ & [=])]].
    + split; [| split; [discriminate |]].
      * split.
        -- destruct (Iter current =? IterationsLimit (config w)); discriminate.
        -- intros [[=] | (_ & _ & [=] & _)].
      * intros _ _ _ Hlimit. rewrite Hlimit, Z.eqb_refl. reflexivity.
  - intros rounds s w w' Hrun.
    destruct (run_returned_inv d rounds s w None w' Hrun)
      as [(e & _ & [=]) | Hloop].
    exact Hloop.
  - intros s w s0 walltime0 w0 s1 walltime1 got1 w1 err w' Hstart Hreach Hret.
    destruct (runLoop_returns d _ _ err w' Hreach Hret) as (k & Hk).
    exists k. intros rounds Hle. unfold run, bind. rewrite Hstart.
    apply (Hk rounds Hle).
  - intros rounds s w w' err. apply sessionTask_completed.
Qed.

Lemma run_returns_nil_iff_witness :
  fst (sessionTask Toy.dStubborn 40 Toy.sessionCancel Toy.worldCancel)
  = Returned (Some (ErrNoConsensus 4))
  /\ completed (newEvents Toy.worldCancel
                  (snd (sessionTask Toy.dStubborn 40 Toy.sessionCancel
                                    Toy.worldCancel))) = [21]
  /\ fst (sessionTask Toy.d0 40 Toy.session21 Toy.world21) = Returned None
  /\ results (newEvents Toy.world21
                (snd (sessionTask Toy.d0 40 Toy.session21 Toy.world21)))
     = [{| coLayer := 21; Proposals := [] |}]
  /\ completed (newEvents Toy.world21
                  (snd (sessionTask Toy.d0 40 Toy.session21 Toy.world21)))
     = [].
Proof.
  destruct (run_returns_nil_iff Toy.dStubborn) as (_ & _ & _ & Hfailed).
  destruct (run_returns_nil_iff Toy.d0) as (_ & _ & _ & Hdone).
  assert (Hstubborn :
    sessionTask Toy.dStubborn 40 Toy.sessionCancel Toy.worldCancel
    = (Returned (Some (ErrNoConsensus 4)),
       snd (sessionTask Toy.dStubborn 40 Toy.sessionCancel Toy.worldCancel))).
  { apply pair_with_snd. vm_compute. reflexivity. }
  assert (Hresult :
    sessionTask Toy.d0 40 Toy.session21 Toy.world21
    = (Returned None, snd (sessionTask Toy.d0 40 Toy.session21 Toy.world21))).
  { apply pair_with_snd. vm_compute. reflexivity. }
  split; [rewrite Hstubborn at 1; reflexivity |].
  split; [exact (Hfailed _ _ _ _ _ Hstubborn) |].
  split; [rewrite Hresult at 1; reflexivity |].
  split; [vm_compute; reflexivity |].
  exact (Hdone _ _ _ _ _ Hresult).
Defined.

(** C7, the claim as stated fails: with a state machine that never has a
    result and never terminates, [run] still returns without error when the
    context is done during the wait of a round, and CompleteHare is not
    called. *)
Lemma run_cancelled_returns_nil :
  (forall p, Toy.toyStubborn p = true ->
             result (snd (Toy.toyNext p)) = None
             /\ terminated (snd (Toy.toyNext p)) = false
             /\ Toy.toyStubborn (fst (Toy.toyNext p)) = true)
  /\ fst (run Toy.dCancel 3 Toy.sessionCancel Toy.worldCancel) = Returned None
  /\ results (trace (snd (sessionTask Toy.dCancel 3 Toy.sessionCancel
                                      Toy.worldCancel))) = []
  /\ completed (trace (snd (sessionTask Toy.dCancel 3 Toy.sessionCancel
                                        Toy.worldCancel))) = [].
Proof.
  split; [| repeat split; vm_compute; reflexivity].
  intros p Hp. unfold Toy.toyNext. simpl. rewrite Hp.
  rewrite !andb_false_r. auto.
Qed.

(** ** Start *)

Lemma onLayerCalls_app (t1 t2 : list Event) :
  onLayerCalls (t1 ++ t2) = onLayerCalls t1 ++ onLayerCalls t2.
Proof. apply omap_app. Qed.

Section StartFacts.
Context {protocol : Type}.
Variable d : Deps protocol.
Implicit Types (w : World protocol).

(** [onLayer] announces the layer to the proposal store, once. *)
Lemma onLayer_events (layer : LayerID) w :
  exists evs, trace (snd (onLayer d layer w)) = trace w ++ evs
              /\ onLayerCalls evs = [layer].
Proof.
  destruct w as [cfg hs ss sy bs ms ai ag pf ts t].
  unfold onLayer, GetEpoch. unfold bind, emit, gets, ret. simpl.
  destruct sy; simpl;
    [| eexists; rewrite <- ?app_assoc; split; reflexivity].
  destruct (bs (layer / layersPerEpoch d)) as [b |]; simpl;
    [| eexists; rewrite <- ?app_assoc; split; reflexivity].
  destruct (b =? EmptyBeacon); simpl;
    eexists; rewrite <- ?app_assoc; split; reflexivity.
Qed.

(** The layers the loop hands to [onLayer] are consecutive, starting with
    [next]; with a context that is never done they go up to the last layer
    below [disabled]. *)
Lemma layerLoop_events (n : nat) (next disabled : LayerID) w :
  0 <= next -> disabled <= MaxUint32 ->
  n = Z.to_nat (disabled - next) ->
  exists k evs,
    0 <= k <= Z.max 0 (disabled - next)
    /\ trace (snd (layerLoop d n next disabled w)) = trace w ++ evs
    /\ onLayerCalls evs = seqZ next k
    /\ ((forall i, ctxDone d i = false) -> k = Z.max 0 (disabled - next)).
Proof.
  revert next w. induction n as [| n IH]; intros next w Hnext Hdis Hn.
  - exists 0, []. simpl. rewrite app_nil_r. split; [lia |].
    split; [reflexivity |]. split; [reflexivity | intros _; lia].
  - assert (Hlt : next < disabled) by lia.
    simpl. destruct (Z.ltb_spec next disabled) as [_ | Hge]; [| lia].
    unfold bind at 1. rewrite selectCtx_spec.
    destruct (ctxDone d (count isSelect (trace w))) eqn:Hdone.
    + exists 0, [EvCtxDone]. unfold ret. simpl.
      split; [lia |]. split; [reflexivity |]. split; [reflexivity |].
      intros Hnever. rewrite Hnever in Hdone. discriminate.
    + unfold bind at 1.
      destruct (onLayer_events next
                  (set_trace (trace w ++ [EvAwaitLayer next]) w))
        as (e1 & Ht1 & Hc1).
      destruct (onLayer d next
                        (set_trace (trace w ++ [EvAwaitLayer next]) w))
        as [o w1]. simpl in Ht1.
      assert (Hsucc : uint32 (next + 1) = next + 1).
      { apply uint32_small. unfold in_uint32, MaxUint32 in *. lia. }
      rewrite Hsucc.
      destruct (IH (next + 1) w1) as (k & e2 & Hk & Ht2 & Hc2 & Hall);
        try lia.
      exists (k + 1), (EvAwaitLayer next :: e1 ++ e2). split; [lia |].
      split; [| split].
      * rewrite Ht2, Ht1, <- !app_assoc. reflexivity.
      * change (EvAwaitLayer next :: e1 ++ e2)
          with ([EvAwaitLayer next] ++ e1 ++ e2).
        rewrite !onLayerCalls_app, Hc1, Hc2. simpl.
        rewrite (seqZ_cons next (k + 1)) by lia.
        replace (Z.succ next) with (next + 1) by lia.
        replace (Z.pred (k + 1)) with k by lia. reflexivity.
      * intros Hnever. specialize (Hall Hnever). lia.
Qed.
End StartFacts.

Lemma seqZ_max0 (m n : Z) : seqZ m (Z.max 0 n) = seqZ m n.
Proof. unfold seqZ. f_equal. f_equal. lia. Qed.

(** C10.  [Start] hands to [onLayer], in increasing order, the layers from
    max(current layer + 1, EnableLayer, effective genesis + 1) on; with a
    context that is never done these are all the layers below the disable
    bound, which is DisableLayer when it is positive and 2^32 - 1 when it is
    zero, and when the context ends the loop earlier they are the first
    layers of that range. *)
Theorem Start_schedules_layers {protocol : Type} (d : Deps protocol)
        (w : World protocol) :
  in_uint32 (DisableLayer (config w)) ->
  0 <= CurrentLayer d < MaxUint32 ->
  0 <= GetEffectiveGenesis d < MaxUint32 ->
  let cfg := config w in
  let enabled := Z.max (Z.max (CurrentLayer d + 1) (EnableLayer cfg))
                       (GetEffectiveGenesis d + 1) in
  let disabled := if DisableLayer cfg =? 0 then 2 ^ 32 - 1
                  else DisableLayer cfg in
  let calls := onLayerCalls (newEvents w (snd (Start d w))) in
  calls `prefix_of` seqZ enabled (disabled - enabled)
  /\ ((forall i, ctxDone d i = false) ->
      calls = seqZ enabled (disabled - enabled)
      /\ forall layer, layer ∈ calls <-> enabled <= layer < disabled).
Proof.
  intros Hdis Hcur Hgen cfg enabled disabled calls.
  assert (Hen : StartEnabled d cfg = enabled).
  { unfold StartEnabled. rewrite !uint32_small; [reflexivity | |];
      unfold in_uint32, MaxUint32 in *; lia. }
  assert (Hdi : StartDisabled cfg = disabled).
  { unfold StartDisabled. subst disabled. unfold in_uint32 in Hdis.
    fold cfg in Hdis.
    destruct (Z.ltb_spec 0 (DisableLayer cfg)),
             (Z.eqb_spec (DisableLayer cfg) 0);
      try reflexivity; lia. }
  assert (Hbound : disabled <= MaxUint32).
  { subst disabled. unfold in_uint32, MaxUint32 in *. fold cfg in Hdis.
    destruct (DisableLayer cfg =? 0); lia. }
  assert (Hpos : 0 <= enabled) by (subst enabled; lia).
  destruct (layerLoop_events d (Z.to_nat (disabled - enabled)) enabled disabled
              (set_trace (trace w ++ [EvRegister (ProtocolName cfg)]) w)
              Hpos Hbound eq_refl)
    as (k & evs & Hk & Ht & Hcalls & Hall).
  assert (Hstart : calls = seqZ enabled k).
  { subst calls. unfold Start. unfold bind at 1. unfold gets at 1.
    unfold bind at 1. unfold emit at 1. fold cfg. rewrite Hen, Hdi.
    cbn [trace set_trace] in Ht.
    rewrite (newEvents_app w _ ([EvRegister (ProtocolName cfg)] ++ evs)).
    - rewrite onLayerCalls_app, Hcalls. reflexivity.
    - rewrite Ht, <- app_assoc. reflexivity. }
  rewrite Hstart. split.
  - destruct (Z.le_gt_cases 0 (disabled - enabled)) as [Hle | Hgt].
    + exists (seqZ (enabled + k) (disabled - enabled - k)).
      rewrite <- seqZ_app by lia. f_equal. lia.
    + assert (k = 0) as -> by lia. apply prefix_nil.
  - intros Hnever. rewrite (Hall Hnever), seqZ_max0. split; [reflexivity |].
    intros layer. rewrite elem_of_seqZ. lia.
Qed.

Lemma Start_schedules_layers_witness :
  onLayerCalls
    (newEvents Toy.worldLast
               (snd (Start (Toy.deps false Toy.never Toy.never) Toy.worldLast)))
  = [21; 22; 23].
Proof.
  assert (Hdis : in_uint32 (DisableLayer (config Toy.worldLast)))
    by (vm_compute; split; [discriminate | reflexivity]).
  assert (Hcur : 0 <= CurrentLayer (Toy.deps false Toy.never Toy.never)
                 < MaxUint32)
    by (vm_compute; split; [discriminate | reflexivity]).
  assert (Hgen : 0 <= GetEffectiveGenesis (Toy.deps false Toy.never Toy.never)
                 < MaxUint32)
    by (vm_compute; split; [discriminate | reflexivity]).
  destruct (Start_schedules_layers (Toy.deps false Toy.never Toy.never)
              Toy.worldLast Hdis Hcur Hgen) as [_ Hall].
  rewrite (proj1 (Hall (fun i => eq_refl))). vm_compute. reflexivity.
Defined.

(** * Further properties of the session scheduler *)

(** ** selectProposals and the order of the signers *)

Section SelectOrderFacts.
Context {protocol : Type}.
Variable w : World protocol.

Lemma minATX_error_iff (target publish : EpochID) (ss : list EdSigner)
      (acc : option ATX) :
  minATX w target publish ss acc = None <->
  exists signer, signer ∈ ss
                 /\ atxIDs w publish (signerNodeID signer) = DbError.
Proof.
  revert acc. induction ss as [| signer ss IH]; intros acc; simpl.
  - split; [discriminate |]. intros (x & Hx & _). inversion Hx.
  - destruct (atxIDs w publish (signerNodeID signer)) as [atxid | |] eqn:E.
    + rewrite IH. split.
      * intros (x & Hx & Hd). exists x. split; [| exact Hd].
        apply elem_of_cons. right. exact Hx.
      * intros (x & Hx & Hd). apply elem_of_cons in Hx as [-> | Hx];
          [congruence |]. exists x. auto.
    + rewrite IH. split.
      * intros (x & Hx & Hd). exists x. split; [| exact Hd].
        apply elem_of_cons. right. exact Hx.
      * intros (x & Hx & Hd). apply elem_of_cons in Hx as [-> | Hx];
          [congruence |]. exists x. auto.
    + split; [| reflexivity]. intros _. exists signer.
      split; [apply elem_of_cons; left; reflexivity | exact E].
Qed.

Lemma minATX_none_inv (target publish : EpochID) (ss : list EdSigner)
      (acc : option ATX) :
  minATX w target publish ss acc = Some None ->
  acc = None /\ ownATXs w target publish ss = [].
Proof.
  revert acc. induction ss as [| signer ss IH]; intros acc; simpl.
  - intros [= ->]. auto.
  - unfold ownATXs. simpl.
    destruct (atxIDs w publish (signerNodeID signer)) as [atxid | |];
      simpl; [| apply IH | discriminate].
    fold (ownATXs w target publish ss).
    destruct (atxsdataGet w target atxid) as [own |]; simpl.
    + destruct acc as [cur |].
      * destruct (Height own <? Height cur); intros H;
          destruct (IH _ H) as [Habs _]; discriminate.
      * intros H. destruct (IH _ H) as [Habs _]. discriminate.
    + destruct acc as [cur |]; apply IH.
Qed.

Lemma ownATXs_elem_of (target publish : EpochID) (ss : list EdSigner) (a : ATX) :
  a ∈ ownATXs w target publish ss <->
  exists signer atxid,
    signer ∈ ss /\ atxIDs w publish (signerNodeID signer) = Found atxid
    /\ atxsdataGet w target atxid = Some a.
Proof.
  unfold ownATXs. rewrite list_elem_of_omap. split.
  - intros (signer & Hin & Ha).
    destruct (atxIDs w publish (signerNodeID signer)) as [atxid | |] eqn:E;
      try discriminate.
    exists signer, atxid. auto.
  - intros (signer & atxid & Hin & E & Ha). exists signer.
    split; [exact Hin |]. rewrite E. exact Ha.
Qed.

Lemma filterProposals_height (target : EpochID) (atxs : gmap Z Z)
      (m m' : ATX) (b : Beacon) (cs : list Proposal) (acc : list ProposalID) :
  Height m = Height m' ->
  filterProposals w target atxs m b cs acc
  = filterProposals w target atxs m' b cs acc.
Proof.
  intros Hh. revert acc. induction cs as [| p cs IH]; intros acc; simpl;
    [reflexivity |].
  rewrite Hh.
  destruct (bool_decide (pSmesherID p ∈ maliciousIDs w) || pIsMalicious p);
    [apply IH |].
  destruct (1 <? default 0 (atxs !! pAtxID p)); [apply IH |].
  destruct (atxsdataGet w target (pAtxID p)) as [header |]; [| reflexivity].
  destruct (Height m' <=? BaseHeight header); [apply IH |].
  destruct (pBeacon p =? b); apply IH.
Qed.
End SelectOrderFacts.

(** X1.  [selectProposals] does not depend on the order in which the
    session holds its signers (they are the values of a map): two sessions
    of the same layer and beacon with the same signers select the same
    proposals, in the same order. *)
Theorem selectProposals_signer_order {protocol : Type} (d : Deps protocol)
        (w : World protocol) (s s' : session protocol) :
  lid s' = lid s -> beacon s' = beacon s ->
  (forall signer, signer ∈ signers s' <-> signer ∈ signers s) ->
  selectProposals d w s' = selectProposals d w s.
Proof.
  intros Hlid Hbeacon Hsame. unfold selectProposals. rewrite Hlid, Hbeacon.
  set (target := GetEpoch d (lid s)).
  set (publish := uint32 (target - 1)).
  assert (Hown : forall a, a ∈ ownATXs w target publish (signers s')
                           <-> a ∈ ownATXs w target publish (signers s)).
  { intros a. rewrite !ownATXs_elem_of. split;
      intros (signer & atxid & Hin & H1 & H2); exists signer, atxid;
      (split; [apply Hsame; exact Hin | auto]). }
  destruct (minATX w target publish (signers s') None) as [[m' |] |] eqn:E';
    destruct (minATX w target publish (signers s) None) as [[m |] |] eqn:E.
  - destruct (minATX_least w _ _ _ _ _ E') as ([Habs | Hin'] & _ & Hall');
      [discriminate |].
    destruct (minATX_least w _ _ _ _ _ E) as ([Habs | Hin] & _ & Hall);
      [discriminate |].
    assert (Hh : Height m' = Height m).
    { apply Hown in Hin'. apply Hown in Hin.
      specialize (Hall _ Hin'). specialize (Hall' _ Hin). lia. }
    rewrite (filterProposals_height w _ _ m' m _ _ _ Hh). reflexivity.
  - destruct (minATX_least w _ _ _ _ _ E') as ([Habs | Hin'] & _);
      [discriminate |].
    apply minATX_none_inv in E. destruct E as [_ E].
    apply Hown in Hin'. rewrite E in Hin'. inversion Hin'.
  - apply minATX_error_iff in E. destruct E as (x & Hx & Hd).
    assert (Hnone : minATX w target publish (signers s') None = None).
    { apply minATX_error_iff. exists x. split; [apply Hsame; exact Hx | exact Hd]. }
    congruence.
  - destruct (minATX_least w _ _ _ _ _ E) as ([Habs | Hin] & _);
      [discriminate |].
    apply minATX_none_inv in E'. destruct E' as [_ E'].
    apply Hown in Hin. rewrite E' in Hin. inversion Hin.
  - reflexivity.
  - reflexivity.
  - apply minATX_error_iff in E'. destruct E' as (x & Hx & Hd).
    assert (Hnone : minATX w target publish (signers s) None = None).
    { apply minATX_error_iff. exists x. split; [apply Hsame; exact Hx | exact Hd]. }
    congruence.
  - reflexivity.
  - reflexivity.
Qed.

Lemma selectProposals_signer_order_witness :
  selectProposals Toy.d0 Toy.world
    (mkSession (newProtocol Toy.d0 401) 21 77
               [ {| signerNodeID := 3; signerKey := 0 |};
                 {| signerNodeID := 1; signerKey := 11 |} ] [None; None])
  = selectProposals Toy.d0 Toy.world Toy.session21.
Proof.
  apply (selectProposals_signer_order Toy.d0 Toy.world Toy.session21);
    [reflexivity | reflexivity |].
  intros signer. simpl. rewrite !elem_of_cons. tauto.
Defined.

(** ** Handler and the registry *)

Section HandlerRegistry.
Context {protocol : Type}.
Variable d : Deps protocol.
Implicit Types (w : World protocol) (buf : bytes) (msg : Message).

(** The ways of a message through [Handler]: an early return that only
    adds to the trace, or the state machine of the layer is fed. *)
Lemma Handler_cases buf w :
  (exists t e, Handler d buf w = (Some e, set_trace t w)
               /\ e <> ErrDropped)
  \/ (exists msg p,
        Decode d buf = Some msg /\ MsgValidate d msg = true
        /\ sessions w !! msgLayer msg = Some p /\ Verify d msg = true
        /\ oracle_validate d msg <> grade0).
Proof.
  destruct (Decode d buf) as [msg |] eqn:H1.
  2:{ left. do 2 eexists. split; [apply Handler_decode_fail; exact H1 |].
      discriminate. }
  destruct (MsgValidate d msg) eqn:H2.
  2:{ left. do 2 eexists. split; [eapply Handler_invalid; eauto |].
      discriminate. }
  destruct (sessions w !! msgLayer msg) as [p |] eqn:H3.
  2:{ left. do 2 eexists. split; [eapply Handler_not_registered; eauto |].
      discriminate. }
  destruct (Verify d msg) eqn:H4.
  2:{ left. do 2 eexists. split; [eapply Handler_bad_signature; eauto |].
      discriminate. }
  destruct (Z.eq_dec (oracle_validate d msg) grade0) as [H5 | H5].
  { left. do 2 eexists. split; [eapply Handler_zero_grade; eauto |].
    discriminate. }
  right. exists msg, p. auto.
Qed.
End HandlerRegistry.

(** X2.  [Handler] never adds a session to the registry nor removes one, so
    [Running] is the same before and after; it never clears a malicious
    flag; and a message it rejects before the state machine (any error but
    the dropped one) changes neither the registry nor the flags. *)
Theorem Handler_never_registers {protocol : Type} (d : Deps protocol)
        (buf : bytes) (w : World protocol) :
  let r := Handler d buf w in
  dom (sessions (snd r)) = dom (sessions w)
  /\ HareRunning (snd r) = HareRunning w
  /\ maliciousIDs w ⊆ maliciousIDs (snd r)
  /\ (fst r <> None -> fst r <> Some ErrDropped ->
      sessions (snd r) = sessions w
      /\ maliciousIDs (snd r) = maliciousIDs w).
Proof.
  simpl.
  destruct (Handler_cases d buf w)
    as [(t & e & -> & He) | (msg & p & H1 & H2 & H3 & H4 & H5)].
  - simpl. unfold HareRunning. simpl. auto.
  - destruct (Handler_handled d buf w msg p H1 H2 H3 H4 H5)
      as (Hr & Hs & Hm & _).
    rewrite Hr, Hs, Hm.
    split; [apply dom_insert_lookup_L; exists p; exact H3 |].
    split.
    { unfold HareRunning. rewrite Hs. apply map_size_insert_Some.
      exists p. exact H3. }
    split.
    { destruct (snd (snd (OnInput d p (handlerInput d w msg)))) as [e |];
        [| reflexivity].
      destruct (bool_decide (Sender msg ∈ maliciousIDs w)); [reflexivity |].
      apply union_subseteq_r. }
    intros Hn Hd.
    destruct (fst (snd (OnInput d p (handlerInput d w msg))));
      [contradiction Hn | contradiction Hd]; reflexivity.
Qed.

(** X3.  [Handler] returns nil or the dropped error exactly for a message
    that decodes, is valid, is of a layer with a session, is signed and has
    a grade above zero; the state machine of the layer has then taken the
    message, and nil is returned exactly when it asks for the message to be
    gossiped. *)
Theorem Handler_feeds_state_machine_iff {protocol : Type} (d : Deps protocol)
        (buf : bytes) (w : World protocol) :
  let r := Handler d buf w in
  ((fst r = None \/ fst r = Some ErrDropped) <->
   exists msg p,
     Decode d buf = Some msg /\ MsgValidate d msg = true
     /\ sessions w !! msgLayer msg = Some p /\ Verify d msg = true
     /\ oracle_validate d msg <> grade0)
  /\ (forall msg p,
        Decode d buf = Some msg -> MsgValidate d msg = true ->
        sessions w !! msgLayer msg = Some p -> Verify d msg = true ->
        oracle_validate d msg <> grade0 ->
        let fed := OnInput d p (handlerInput d w msg) in
        sessions (snd r) !! msgLayer msg = Some (fst fed)
        /\ (fst r = None <-> fst (snd fed) = true)
        /\ (fst r = Some ErrDropped <-> fst (snd fed) = false)).
Proof.
  simpl. split.
  - split.
    + intros Hr.
      destruct (Handler_cases d buf w) as [(t & e & E & He) | H]; [| exact H].
      rewrite E in Hr. simpl in Hr. destruct Hr as [Hr | Hr]; congruence.
    + intros (msg & p & H1 & H2 & H3 & H4 & H5).
      destruct (Handler_handled d buf w msg p H1 H2 H3 H4 H5) as (Hr & _).
      rewrite Hr.
      destruct (fst (snd (OnInput d p (handlerInput d w msg)))); auto.
  - intros msg p H1 H2 H3 H4 H5.
    destruct (Handler_handled d buf w msg p H1 H2 H3 H4 H5) as (Hr & Hs & _).
    rewrite Hr, Hs, lookup_insert_eq.
    split; [reflexivity |].
    destruct (fst (snd (OnInput d p (handlerInput d w msg))));
      split; split; congruence.
Qed.

Lemma Handler_feeds_state_machine_iff_witness :
  fst (Handler Toy.d0 (Toy.buf Byte.x03 Byte.x09 Byte.x01) Toy.world21) = None
  /\ exists msg p,
       Decode Toy.d0 (Toy.buf Byte.x03 Byte.x09 Byte.x01) = Some msg
       /\ sessions Toy.world21 !! msgLayer msg = Some p.
Proof.
  destruct (Handler_feeds_state_machine_iff Toy.d0
              (Toy.buf Byte.x03 Byte.x09 Byte.x01) Toy.world21) as [Hiff _].
  assert (Hnil : fst (Handler Toy.d0 (Toy.buf Byte.x03 Byte.x09 Byte.x01)
                              Toy.world21) = None)
    by (vm_compute; reflexivity).
  split; [exact Hnil |].
  destruct (proj1 Hiff (or_introl Hnil)) as (msg & p & H1 & _ & H3 & _).
  exists msg, p. auto.
Defined.

(** ** What a session's task leaves alone *)

Section TouchesOnly.
Context {protocol : Type}.
Variable d : Deps protocol.
Variable l : LayerID.
Implicit Types (w : World protocol) (s : session protocol).

Lemma sameOutside_refl w : sameOutside l w w.
Proof. unfold sameOutside. repeat split; reflexivity. Qed.

Lemma sameOutside_trans w1 w2 w3 :
  sameOutside l w1 w2 -> sameOutside l w2 w3 -> sameOutside l w1 w3.
Proof.
  unfold sameOutside.
  intros (A1 & A2 & A3 & A4 & A5 & A6 & A7 & A8 & A9 & A10 & A11)
         (B1 & B2 & B3 & B4 & B5 & B6 & B7 & B8 & B9 & B10 & B11).
  repeat split; try congruence.
  - intros k Hk. rewrite B10, A10 by exact Hk. reflexivity.
  - etransitivity; eassumption.
Qed.

Lemma sameOutside_set_trace w (evs : list Event) :
  sameOutside l w (set_trace (trace w ++ evs) w).
Proof.
  unfold sameOutside. simpl. repeat split; try reflexivity.
  apply prefix_app_r. reflexivity.
Qed.

Lemma sameOutside_set_sessions w (p : protocol) :
  sameOutside l w (set_sessions (<[l := p]> (sessions w)) w).
Proof.
  unfold sameOutside. simpl. repeat split; try reflexivity.
  intros k Hk. apply lookup_insert_ne. congruence.
Qed.

Lemma sameOutside_delete w :
  sameOutside l w (set_sessions (delete l (sessions w)) w).
Proof.
  unfold sameOutside. simpl. repeat split; try reflexivity.
  intros k Hk. apply lookup_delete_ne. congruence.
Qed.

Lemma touchesOnly_weaken {A} (Q R : A -> Prop) (m : M (World protocol) A) :
  (forall a, Q a -> R a) -> touchesOnly l Q m -> touchesOnly l R m.
Proof. intros H Hm w. destruct (Hm w). auto. Qed.

Lemma touchesOnly_ret {A} (Q : A -> Prop) (a : A) :
  Q a -> touchesOnly (protocol := protocol) l Q (ret a).
Proof. intros H w. split; [apply sameOutside_refl | exact H]. Qed.

Lemma touchesOnly_gets {A} (f : World protocol -> A) :
  touchesOnly l (fun _ => True) (gets f).
Proof. intros w. split; [apply sameOutside_refl | exact I]. Qed.

Lemma touchesOnly_emit (e : Event) :
  touchesOnly (protocol := protocol) l (fun _ => True) (emit e).
Proof. intros w. split; [apply sameOutside_set_trace | exact I]. Qed.

Lemma touchesOnly_bind {A B} (Q : A -> Prop) (R : B -> Prop)
      (m : M (World protocol) A) (k : A -> M (World protocol) B) :
  touchesOnly l Q m -> (forall a, Q a -> touchesOnly l R (k a)) ->
  touchesOnly l R (bind m k).
Proof.
  intros Hm Hk w. unfold bind.
  destruct (Hm w) as [H1 HQ]. destruct (m w) as [a w1]. simpl in *.
  destruct (Hk a HQ w1) as [H2 HR].
  split; [eapply sameOutside_trans; eassumption | exact HR].
Qed.

Lemma touchesOnly_seq {A B} (R : B -> Prop)
      (m : M (World protocol) A) (k : M (World protocol) B) :
  touchesOnly l (fun _ => True) m -> touchesOnly l R k ->
  touchesOnly l R (bind m (fun _ => k)).
Proof. intros Hm Hk. eapply touchesOnly_bind; [exact Hm | auto]. Qed.

Lemma touchesOnly_selectCtx (other : Event) :
  touchesOnly l (fun _ => True) (selectCtx d other).
Proof.
  unfold selectCtx, countEvents.
  eapply touchesOnly_bind; [apply touchesOnly_gets |]. intros n _.
  destruct (ctxDone d n);
    (apply touchesOnly_seq; [apply touchesOnly_emit | apply touchesOnly_ret; exact I]).
Qed.

Lemma touchesOnly_Publish (topic : string) (msg : Message) :
  touchesOnly l (fun _ => True) (Publish d topic msg).
Proof.
  unfold Publish, countEvents.
  eapply touchesOnly_bind; [apply touchesOnly_gets |]. intros n _.
  apply touchesOnly_seq; [apply touchesOnly_emit | apply touchesOnly_ret; exact I].
Qed.

Lemma touchesOnly_publishAll (topic : string) (layer : LayerID)
      (ss : list EdSigner) (vs : list (option HareEligibility)) (out : output) :
  touchesOnly l (fun _ => True) (publishAll d topic layer ss vs out).
Proof.
  revert ss. induction vs as [| vrf vs IH]; intros ss; simpl.
  - apply touchesOnly_ret. exact I.
  - destruct ss as [| signer ss]; [apply touchesOnly_ret; exact I |].
    apply touchesOnly_seq; [| apply IH].
    destruct vrf as [v |]; [| apply touchesOnly_ret; exact I].
    destruct (message out) as [m |]; [| apply touchesOnly_ret; exact I].
    eapply touchesOnly_bind; [apply touchesOnly_Publish |]. intros failed _.
    destruct failed; [apply touchesOnly_emit | apply touchesOnly_ret; exact I].
Qed.

Lemma touchesOnly_onOutput s (ir : IterRound) (out : output) :
  touchesOnly l (fun _ => True) (onOutput d s ir out).
Proof.
  unfold onOutput.
  eapply touchesOnly_bind; [apply touchesOnly_gets |]. intros cfg _.
  apply touchesOnly_seq; [apply touchesOnly_publishAll |].
  apply touchesOnly_seq; [apply touchesOnly_emit |].
  eapply touchesOnly_bind with (Q := fun _ => True).
  { destruct (coin out); [apply touchesOnly_selectCtx | apply touchesOnly_ret; exact I]. }
  intros cancelled _. destruct cancelled; [apply touchesOnly_ret; exact I |].
  eapply touchesOnly_bind with (Q := fun _ => True).
  { destruct (result out); [apply touchesOnly_selectCtx | apply touchesOnly_ret; exact I]. }
  intros cancelled _. destruct cancelled; apply touchesOnly_ret; exact I.
Qed.

Lemma touchesOnly_storeProto s (p : protocol) :
  lid s = l -> touchesOnly l (fun s' => lid s' = l) (storeProto s p).
Proof.
  intros Hl w. unfold storeProto. simpl. rewrite Hl.
  split; [apply sameOutside_set_sessions | reflexivity].
Qed.

Lemma touchesOnly_runRound s (walltime : Time) (got : bool) :
  lid s = l -> touchesOnly l (loopOf l) (runRound d s walltime got).
Proof.
  intros Hl. unfold runRound.
  eapply touchesOnly_bind; [apply touchesOnly_gets |]. intros cfg _.
  apply touchesOnly_seq; [apply touchesOnly_emit |].
  eapply touchesOnly_bind; [apply touchesOnly_selectCtx |].
  intros cancelled _. destruct cancelled; [apply touchesOnly_ret; exact I |].
  cbn [proto set_vrfs].
  destruct (Next d (proto s)) as [p out].
  eapply touchesOnly_bind; [apply touchesOnly_storeProto; exact Hl |].
  intros s' Hs'.
  eapply touchesOnly_bind; [apply touchesOnly_onOutput |].
  intros err _. destruct err; [apply touchesOnly_ret; exact I |].
  destruct (terminated out).
  - destruct (negb _); apply touchesOnly_ret; exact I.
  - destruct (Iter _ =? IterationsLimit cfg);
      apply touchesOnly_ret; [exact I | exact Hs'].
Qed.

Lemma touchesOnly_runLoop (rounds : nat) s (walltime : Time) (got : bool) :
  lid s = l -> touchesOnly l (fun _ => True) (runLoop d rounds s walltime got).
Proof.
  revert s walltime got.
  induction rounds as [| n IH]; intros s walltime got Hl; simpl.
  - apply touchesOnly_ret. exact I.
  - eapply touchesOnly_bind; [apply touchesOnly_runRound; exact Hl |].
    intros r Hr. destruct r as [s' wt' got' | err].
    + apply IH. exact Hr.
    + apply touchesOnly_ret. exact I.
Qed.

Lemma touchesOnly_runStart s :
  lid s = l -> touchesOnly l (startOf l) (runStart d s).
Proof.
  intros Hl. unfold runStart.
  eapply touchesOnly_bind; [apply touchesOnly_gets |]. intros cfg _.
  apply touchesOnly_seq; [apply touchesOnly_emit |].
  eapply touchesOnly_bind
    with (Q := fun pre => match pre with
                          | inl _ => True
                          | inr s' => lid s' = l
                          end).
  { destruct (existsb _ _).
    - eapply touchesOnly_bind; [apply touchesOnly_selectCtx |].
      intros cancelled _. destruct cancelled; [apply touchesOnly_ret; exact I |].
      eapply touchesOnly_bind; [apply touchesOnly_gets |]. intros proposals _.
      eapply touchesOnly_bind; [apply touchesOnly_storeProto; exact Hl |].
      intros s' Hs'. apply touchesOnly_ret. exact Hs'.
    - apply touchesOnly_ret. exact Hl. }
  intros pre Hpre. destruct pre as [e | s1]; [apply touchesOnly_ret; exact I |].
  destruct (Next d (proto s1)) as [p out].
  eapply touchesOnly_bind; [apply touchesOnly_storeProto; exact Hpre |].
  intros s2 Hs2.
  eapply touchesOnly_bind; [apply touchesOnly_onOutput |].
  intros err _. destruct err; apply touchesOnly_ret; [exact I | exact Hs2].
Qed.

Lemma touchesOnly_run (rounds : nat) s :
  lid s = l -> touchesOnly l (fun _ => True) (run d rounds s).
Proof.
  intros Hl. unfold run.
  eapply touchesOnly_bind; [apply touchesOnly_runStart; exact Hl |].
  intros pre Hpre. destruct pre as [e | [s1 wt]].
  - apply touchesOnly_ret. exact I.
  - apply touchesOnly_runLoop. exact Hpre.
Qed.
End TouchesOnly.

(** X4.  The task of a session changes nothing of the node but the trace
    and the registry entry of its own layer, and when it returns that
    entry is gone: [Handler] then answers a message of the layer with the
    not-registered error. *)
Theorem sessionTask_isolated {protocol : Type} (d : Deps protocol)
        (rounds : nat) (s : session protocol) (w : World protocol) :
  is_Some (sessions w !! lid s) ->
  let r := sessionTask d rounds s w in
  sameOutside (lid s) w (snd r)
  /\ (forall err, fst r = Returned err ->
        sessions (snd r) !! lid s = None
        /\ forall buf msg,
             Decode d buf = Some msg -> MsgValidate d msg = true ->
             msgLayer msg = lid s ->
             fst (Handler d buf (snd r)) = Some (ErrNotRegistered (lid s))).
Proof.
  intros _. simpl. unfold sessionTask. unfold bind.
  destruct (touchesOnly_run d (lid s) rounds s eq_refl w) as [Hrun _].
  destruct (run d rounds s w) as [o w1]. simpl in Hrun.
  destruct o as [| err].
  - simpl. split; [exact Hrun |]. intros err H. inversion H.
  - set (w2 := snd (match err with
                    | Some _ => emit (EvCompleteHare (lid s))
                    | None => ret tt
                    end w1)).
    assert (Hfirst : sameOutside (lid s) w1 w2).
    { subst w2. destruct err; [apply sameOutside_set_trace | apply sameOutside_refl]. }
    assert (Hw : (let (_, w') := match err with
                                | Some _ => emit (EvCompleteHare (lid s))
                                | None => ret tt
                                end w1 in
                  let (_, w'0) := (tt, set_sessions (delete (lid s) (sessions w')) w') in
                  let (_, w'1) := emit (EvOnStop (lid s)) w'0 in
                  ret (Returned err) w'1)
                 = (Returned err,
                    set_trace (trace w2 ++ [EvOnStop (lid s)])
                              (set_sessions (delete (lid s) (sessions w2)) w2))).
    { subst w2. destruct (match err with
                          | Some _ => emit (EvCompleteHare (lid s))
                          | None => ret tt
                          end w1) as [u w']. reflexivity. }
    rewrite Hw. cbn [fst snd].
    assert (Hgone : sessions (set_trace (trace w2 ++ [EvOnStop (lid s)])
                       (set_sessions (delete (lid s) (sessions w2)) w2))
                    !! lid s = None).
    { simpl. apply lookup_delete_eq. }
    split.
    + eapply sameOutside_trans; [exact Hrun |].
      eapply sameOutside_trans; [exact Hfirst |].
      eapply sameOutside_trans; [apply sameOutside_delete |].
      apply (sameOutside_set_trace (lid s)
               (set_sessions (delete (lid s) (sessions w2)) w2) [EvOnStop (lid s)]).
    + intros err' _. split; [exact Hgone |].
      intros buf msg Hd Hv Hl.
      erewrite Handler_not_registered; [rewrite Hl; reflexivity | exact Hd | exact Hv |].
      rewrite Hl. exact Hgone.
Qed.

Lemma sessionTask_isolated_witness :
  fst (sessionTask Toy.d0 40 Toy.session21 Toy.world21) = Returned None
  /\ sessions (snd (sessionTask Toy.d0 40 Toy.session21 Toy.world21)) !! 21
     = None.
Proof.
  assert (Hreg : is_Some (sessions Toy.world21 !! lid Toy.session21))
    by (vm_compute; eauto).
  assert (Hret : fst (sessionTask Toy.d0 40 Toy.session21 Toy.world21)
                 = Returned None) by (vm_compute; reflexivity).
  split; [exact Hret |].
  destruct (sessionTask_isolated Toy.d0 40 Toy.session21 Toy.world21 Hreg)
    as [_ Hgone].
  destruct (Hgone None Hret) as [Hnone _]. exact Hnone.
Defined.

(** ** selectProposals: every candidate that passes, in the order of the
       store *)

Section SelectCompleteFacts.
Context {protocol : Type}.
Variable w : World protocol.

Lemma passes_height (target : EpochID) (atxs : gmap Z Z) (m m' : ATX)
      (b : Beacon) (p : Proposal) :
  Height m = Height m' ->
  passes w target atxs m b p -> passes w target atxs m' b p.
Proof. unfold passes. intros ->. tauto. Qed.

Lemma filterProposals_order (target : EpochID) (atxs : gmap Z Z) (min : ATX)
      (b : Beacon) (cs : list Proposal) (acc r : list ProposalID) :
  filterProposals w target atxs min b cs acc = Some r ->
  exists sel,
    r = acc ++ sel
    /\ sel `sublist_of` (pID <$> cs)
    /\ (forall p, p ∈ cs -> passes w target atxs min b p -> pID p ∈ sel).
Proof.
  revert acc. induction cs as [| p cs IH]; intros acc; simpl.
  - intros [= <-]. exists []. rewrite app_nil_r.
    split; [reflexivity |]. split; [constructor |].
    intros p Hp. inversion Hp.
  - assert (Hskip : ~ passes w target atxs min b p ->
              filterProposals w target atxs min b cs acc = Some r ->
              exists sel,
                r = acc ++ sel
                /\ sel `sublist_of` (pID p :: (pID <$> cs))
                /\ (forall q, q ∈ p :: cs -> passes w target atxs min b q ->
                              pID q ∈ sel)).
    { intros Hno Hf. destruct (IH acc Hf) as (sel & -> & Hsub & Hall).
      exists sel. split; [reflexivity |].
      split; [apply sublist_cons; exact Hsub |].
      intros q Hq Hpass. apply elem_of_cons in Hq as [-> | Hq];
        [contradiction | apply Hall; assumption]. }
    destruct (bool_decide (pSmesherID p ∈ maliciousIDs w)) eqn:Hmal; simpl.
    { apply Hskip. intros (Hn & _). apply bool_decide_eq_true in Hmal.
      contradiction. }
    destruct (pIsMalicious p) eqn:Hpm; simpl.
    { apply Hskip. intros (_ & Hn & _). congruence. }
    destruct (Z.ltb_spec 1 (default 0 (atxs !! pAtxID p))) as [Hgt | Hle].
    { apply Hskip. intros (_ & _ & Hn & _). lia. }
    destruct (atxsdataGet w target (pAtxID p)) as [header |] eqn:Hh;
      [| discriminate].
    destruct (Z.leb_spec (Height min) (BaseHeight header)) as [Hhigh | Hlow].
    { apply Hskip. intros (_ & _ & _ & (h & Hh' & Hlt) & _).
      assert (h = header) by congruence. subst h. lia. }
    destruct (Z.eqb_spec (pBeacon p) b) as [Hb | Hb].
    2:{ apply Hskip. intros (_ & _ & _ & _ & Hn). contradiction. }
    intros Hf. destruct (IH _ Hf) as (sel & -> & Hsub & Hall).
    exists (pID p :: sel). split; [rewrite <- app_assoc; reflexivity |].
    split; [apply sublist_skip; exact Hsub |].
    intros q Hq Hpass. apply elem_of_cons in Hq as [-> | Hq];
      [apply elem_of_cons; left; reflexivity |].
    apply elem_of_cons. right. apply Hall; assumption.
Qed.

Lemma filterProposals_loaded (target : EpochID) (atxs : gmap Z Z) (min : ATX)
      (b : Beacon) (cs : list Proposal) (acc : list ProposalID) :
  (forall p, p ∈ cs -> pSmesherID p ∉ maliciousIDs w ->
             pIsMalicious p = false -> default 0 (atxs !! pAtxID p) <= 1 ->
             is_Some (atxsdataGet w target (pAtxID p))) ->
  is_Some (filterProposals w target atxs min b cs acc).
Proof.
  revert acc. induction cs as [| p cs IH]; intros acc Hloaded; simpl;
    [eauto |].
  assert (Hrest : forall acc', is_Some (filterProposals w target atxs min b cs acc')).
  { intros acc'. apply IH. intros q Hq. apply Hloaded.
    apply elem_of_cons. right. exact Hq. }
  destruct (bool_decide (pSmesherID p ∈ maliciousIDs w)) eqn:Hmal; simpl;
    [apply Hrest |].
  destruct (pIsMalicious p) eqn:Hpm; simpl; [apply Hrest |].
  destruct (Z.ltb_spec 1 (default 0 (atxs !! pAtxID p))) as [Hgt | Hle];
    [apply Hrest |].
  destruct (Hloaded p) as [header Hh];
    [apply elem_of_cons; left; reflexivity
    | apply bool_decide_eq_false in Hmal; exact Hmal | exact Hpm | exact Hle |].
  rewrite Hh.
  destruct (Height min <=? BaseHeight header); [apply Hrest |].
  destruct (pBeacon p =? b); apply Hrest.
Qed.
End SelectCompleteFacts.

(** X5.  [selectProposals] returns the ids in the order of the proposal
    store.  When no lookup of a signer's ATX fails with a database error
    and the ATX of every candidate that is looked up is loaded, it returns
    every candidate that passes its tests against the local ATX of least
    height. *)
Theorem selectProposals_complete_in_order {protocol : Type}
        (d : Deps protocol) (w : World protocol) (s : session protocol) :
  let target := GetEpoch d (lid s) in
  let candidates := proposalsFor w (lid s) in
  selectProposals d w s `sublist_of` (pID <$> candidates)
  /\ forall m,
       m ∈ localATXs d w s ->
       (forall a, a ∈ localATXs d w s -> Height m <= Height a) ->
       (forall signer, signer ∈ signers s ->
          atxIDs w (uint32 (target - 1)) (signerNodeID signer) <> DbError) ->
       (forall p, p ∈ candidates -> pSmesherID p ∉ maliciousIDs w ->
          pIsMalicious p = false ->
          default 0 (countATXs candidates !! pAtxID p) <= 1 ->
          is_Some (atxsdataGet w target (pAtxID p))) ->
       forall p, p ∈ candidates ->
                 passes w target (countATXs candidates) m (beacon s) p ->
                 pID p ∈ selectProposals d w s.
Proof.
  simpl. unfold selectProposals, localATXs.
  set (target := GetEpoch d (lid s)).
  set (publish := uint32 (target - 1)).
  set (candidates := proposalsFor w (lid s)).
  split.
  - destruct (minATX w target publish (signers s) None) as [[min |] |];
      try apply sublist_nil_l.
    destruct (filterProposals w target (countATXs candidates) min (beacon s)
                candidates []) as [r |] eqn:Hf; [| apply sublist_nil_l].
    destruct (filterProposals_order w _ _ _ _ _ _ _ Hf) as (sel & -> & Hsub & _).
    exact Hsub.
  - intros m Hm Hleast Hdb Hloaded p Hp Hpass.
    destruct (minATX w target publish (signers s) None) as [[min |] |] eqn:E.
    + destruct (minATX_least w _ _ _ _ _ E) as ([Habs | Hin] & _ & Hall);
        [discriminate |].
      assert (Hh : Height m = Height min).
      { specialize (Hall _ Hm). specialize (Hleast _ Hin). lia. }
      destruct (filterProposals_loaded w target (countATXs candidates) min
                  (beacon s) candidates [] Hloaded) as [r Hf].
      rewrite Hf.
      destruct (filterProposals_order w _ _ _ _ _ _ _ Hf) as (sel & -> & _ & Hall').
      simpl. apply Hall'; [exact Hp |].
      eapply passes_height; [exact Hh | exact Hpass].
    + apply minATX_none_inv in E. destruct E as [_ E].
      rewrite E in Hm. inversion Hm.
    + apply minATX_error_iff in E. destruct E as (x & Hx & Hd).
      exfalso. exact (Hdb x Hx Hd).
Qed.

Lemma selectProposals_complete_in_order_witness :
  Toy.atx5 ∈ localATXs Toy.d0 Toy.world Toy.session21
  /\ 500 ∈ selectProposals Toy.d0 Toy.world Toy.session21.
Proof.
  assert (Elocal : localATXs Toy.d0 Toy.world Toy.session21 = [Toy.atx5])
    by (vm_compute; reflexivity).
  assert (Ecands : proposalsFor Toy.world (lid Toy.session21)
                   = [ {| pID := 500; pAtxID := 200; pSmesherID := 2;
                          pBeacon := 77; pIsMalicious := false |} ])
    by (vm_compute; reflexivity).
  assert (Hm : Toy.atx5 ∈ localATXs Toy.d0 Toy.world Toy.session21)
    by (rewrite Elocal; apply list_elem_of_singleton; reflexivity).
  split; [exact Hm |].
  destruct (selectProposals_complete_in_order Toy.d0 Toy.world Toy.session21)
    as [_ Hall].
  apply (Hall Toy.atx5 Hm) with
    (p := {| pID := 500; pAtxID := 200; pSmesherID := 2;
             pBeacon := 77; pIsMalicious := false |}).
  - intros a Ha. rewrite Elocal in Ha. apply list_elem_of_singleton in Ha.
    subst a. reflexivity.
  - intros signer Hin. simpl in Hin.
    rewrite !elem_of_cons, elem_of_nil in Hin.
    destruct Hin as [-> | [-> | []]]; vm_compute; discriminate.
  - intros p Hin _ _ _. rewrite Ecands in Hin.
    apply list_elem_of_singleton in Hin. subst p. vm_compute. eauto.
  - rewrite Ecands. apply list_elem_of_singleton. reflexivity.
  - unfold passes. split; [apply not_elem_of_empty |].
    split; [reflexivity |]. split; [vm_compute; discriminate |].
    split; [exists Toy.atx7; split; [reflexivity | vm_compute; reflexivity] |].
    reflexivity.
Defined.

(** ** The deadlines of run *)

Section WaitsIn.
Context {protocol : Type}.
Variable d : Deps protocol.
Variable cfg : Config.
Implicit Types (w : World protocol) (s : session protocol).

Lemma waits_app (t1 t2 : list Event) : waits (t1 ++ t2) = waits t1 ++ waits t2.
Proof. apply omap_app. Qed.

Lemma waitsIn_weaken {A} (a1 a2 : list Time) (Q R : A -> Prop)
      (m : M (World protocol) A) :
  a1 `sublist_of` a2 -> (forall x, Q x -> R x) ->
  waitsIn cfg a1 Q m -> waitsIn cfg a2 R m.
Proof.
  intros Hsub HQR Hm w Hw. destruct (Hm w Hw) as (evs & H1 & H2 & H3 & H4).
  exists evs. split; [exact H1 |]. split; [etransitivity; eassumption |].
  auto.
Qed.

Lemma waitsIn_ret {A} (Q : A -> Prop) (a : A) :
  Q a -> waitsIn (protocol := protocol) cfg [] Q (ret a).
Proof.
  intros H w Hw. exists []. simpl. rewrite app_nil_r.
  split; [reflexivity |]. split; [constructor | auto].
Qed.

Lemma waitsIn_gets {A} (f : World protocol -> A) :
  waitsIn cfg [] (fun _ => True) (gets f).
Proof.
  intros w Hw. exists []. simpl. rewrite app_nil_r.
  split; [reflexivity |]. split; [constructor | auto].
Qed.

Lemma waitsIn_config :
  waitsIn (protocol := protocol) cfg [] (fun c => c = cfg) (gets config).
Proof.
  intros w Hw. exists []. simpl. rewrite app_nil_r.
  split; [reflexivity |]. split; [constructor | auto].
Qed.

Lemma waitsIn_emit (e : Event) :
  waits [e] = [] ->
  waitsIn (protocol := protocol) cfg [] (fun _ => True) (emit e).
Proof.
  intros He w Hw. exists [e]. simpl.
  split; [reflexivity |]. split; [| auto].
  change (waits [e] `sublist_of` []). rewrite He. constructor.
Qed.

Lemma waitsIn_update {A} (f : World protocol -> A * World protocol) :
  (forall w, trace (snd (f w)) = trace w /\ config (snd (f w)) = config w) ->
  waitsIn cfg [] (fun _ => True) f.
Proof.
  intros H w Hw. destruct (H w) as [Ht Hc]. exists [].
  rewrite app_nil_r. split; [exact Ht |]. split; [constructor |].
  split; [congruence | exact I].
Qed.

Lemma waitsIn_bind {A B} (a1 a2 : list Time) (Q : A -> Prop) (R : B -> Prop)
      (m : M (World protocol) A) (k : A -> M (World protocol) B) :
  waitsIn cfg a1 Q m -> (forall x, Q x -> waitsIn cfg a2 R (k x)) ->
  waitsIn cfg (a1 ++ a2) R (bind m k).
Proof.
  intros Hm Hk w Hw. unfold bind.
  destruct (Hm w Hw) as (e1 & Ht1 & Hs1 & Hc1 & HQ).
  destruct (m w) as [x w1]. simpl in *.
  destruct (Hk x HQ w1 Hc1) as (e2 & Ht2 & Hs2 & Hc2 & HR).
  exists (e1 ++ e2). rewrite Ht2, Ht1, <- app_assoc.
  split; [reflexivity |]. rewrite waits_app.
  split; [apply sublist_app; assumption | auto].
Qed.

(** A step that waits for nothing, in front of one that may. *)
Lemma waitsIn_seq {A B} (a : list Time) (Q : A -> Prop) (R : B -> Prop)
      (m : M (World protocol) A) (k : A -> M (World protocol) B) :
  waitsIn cfg [] Q m -> (forall x, Q x -> waitsIn cfg a R (k x)) ->
  waitsIn cfg a R (bind m k).
Proof. intros Hm Hk. apply (waitsIn_bind [] a Q R); assumption. Qed.

Lemma waitsIn_countEvents (f : Event -> bool) :
  waitsIn (protocol := protocol) cfg [] (fun _ => True) (countEvents f).
Proof.
  intros w Hw. exists []. simpl. rewrite app_nil_r.
  split; [reflexivity |]. split; [constructor | auto].
Qed.

Lemma waitsIn_selectCtx (other : Event) :
  waitsIn cfg (waits [other]) (fun _ => True) (selectCtx d other).
Proof.
  unfold selectCtx.
  eapply waitsIn_seq; [apply waitsIn_countEvents |]. intros n _.
  destruct (ctxDone d n).
  - eapply waitsIn_weaken with (a1 := []) (Q := fun _ => True);
      [apply sublist_nil_l | auto |].
    eapply waitsIn_seq; [apply waitsIn_emit; reflexivity |].
    intros _ _. apply waitsIn_ret. exact I.
  - intros w Hw. exists [other]. unfold bind, emit, ret. simpl.
    split; [reflexivity |]. split; [reflexivity | auto].
Qed.

Lemma waitsIn_Publish (topic : string) (msg : Message) :
  waitsIn cfg [] (fun _ => True) (Publish d topic msg).
Proof.
  unfold Publish.
  eapply waitsIn_seq; [apply waitsIn_countEvents |]. intros n _.
  eapply waitsIn_seq; [apply waitsIn_emit; reflexivity |].
  intros _ _. apply waitsIn_ret. exact I.
Qed.

Lemma waitsIn_publishAll (topic : string) (layer : LayerID)
      (ss : list EdSigner) (vs : list (option HareEligibility)) (out : output) :
  waitsIn cfg [] (fun _ => True) (publishAll d topic layer ss vs out).
Proof.
  revert ss. induction vs as [| vrf vs IH]; intros ss; simpl.
  - apply waitsIn_ret. exact I.
  - destruct ss as [| signer ss]; [apply waitsIn_ret; exact I |].
    eapply waitsIn_seq with (Q := fun _ => True); [| intros _ _; apply IH].
    destruct vrf as [v |]; [| apply waitsIn_ret; exact I].
    destruct (message out) as [m |]; [| apply waitsIn_ret; exact I].
    eapply waitsIn_seq; [apply waitsIn_Publish |]. intros failed _.
    destruct failed; [apply waitsIn_emit; reflexivity
                     | apply waitsIn_ret; exact I].
Qed.

Lemma waitsIn_onOutput s (ir : IterRound) (out : output) :
  waitsIn cfg [] (fun _ => True) (onOutput d s ir out).
Proof.
  unfold onOutput.
  eapply waitsIn_seq; [apply waitsIn_config |]. intros c _.
  eapply waitsIn_seq; [apply waitsIn_publishAll |]. intros _ _.
  eapply waitsIn_seq; [apply waitsIn_emit; reflexivity |]. intros _ _.
  eapply waitsIn_seq with (Q := fun _ => True).
  { destruct (coin out); [apply (waitsIn_selectCtx (EvCoin _))
                         | apply waitsIn_ret; exact I]. }
  intros cancelled _. destruct cancelled; [apply waitsIn_ret; exact I |].
  eapply waitsIn_seq with (Q := fun _ => True).
  { destruct (result out); [apply (waitsIn_selectCtx (EvResult _))
                           | apply waitsIn_ret; exact I]. }
  intros cancelled _. destruct cancelled; apply waitsIn_ret; exact I.
Qed.

Lemma waitsIn_storeProto s (p : protocol) :
  waitsIn cfg [] (fun _ => True) (storeProto s p).
Proof. apply waitsIn_update. intros w. split; reflexivity. Qed.

(** One round waits for the wall time it started from plus one round
    duration, and hands that time on. *)
Lemma waitsIn_runRound s (walltime : Time) (got : bool) :
  waitsIn cfg [walltime + RoundDuration cfg]
          (fun r => match r with
                    | Continue _ walltime' _ =>
                        walltime' = walltime + RoundDuration cfg
                    | Return _ => True
                    end)
          (runRound d s walltime got).
Proof.
  unfold runRound.
  eapply waitsIn_seq; [apply waitsIn_config |]. intros c ->.
  eapply waitsIn_seq; [apply waitsIn_emit; reflexivity |]. intros _ _.
  change [walltime + RoundDuration cfg]
    with ([walltime + RoundDuration cfg] ++ []).
  eapply waitsIn_bind;
    [apply (waitsIn_selectCtx (EvWait (Time_Add walltime (RoundDuration cfg)))) |].
  intros cancelled _. destruct cancelled; [apply waitsIn_ret; exact I |].
  cbn [proto set_vrfs].
  destruct (Next d (proto s)) as [p out].
  eapply waitsIn_seq; [apply waitsIn_storeProto |]. intros s' _.
  eapply waitsIn_seq; [apply waitsIn_onOutput |]. intros err _.
  destruct err; [apply waitsIn_ret; exact I |].
  destruct (terminated out).
  - destruct (negb _); apply waitsIn_ret; exact I.
  - destruct (Iter _ =? IterationsLimit cfg);
      apply waitsIn_ret; [exact I | reflexivity].
Qed.

Lemma waitsIn_runLoop (rounds : nat) s (walltime : Time) (got : bool) :
  waitsIn cfg
          ((fun k => walltime + k * RoundDuration cfg)
             <$> seqZ 1 (Z.of_nat rounds))
          (fun _ => True) (runLoop d rounds s walltime got).
Proof.
  revert s walltime got.
  induction rounds as [| n IH]; intros s walltime got; simpl runLoop.
  - apply waitsIn_ret. exact I.
  - replace (Z.of_nat (S n)) with (1 + Z.of_nat n) by lia.
    rewrite seqZ_app by lia. rewrite fmap_app.
    eapply waitsIn_bind.
    { eapply waitsIn_weaken; [| | apply waitsIn_runRound];
        [| intros x Hx; exact Hx].
      replace (seqZ 1 1) with [1] by reflexivity.
      rewrite list_fmap_singleton.
      replace (walltime + 1 * RoundDuration cfg)
        with (walltime + RoundDuration cfg) by lia.
      reflexivity. }
    intros r Hr. destruct r as [s' wt' got' | err].
    + subst wt'. eapply waitsIn_weaken; [| | apply IH]; [| auto].
      rewrite <- fmap_add_seqZ, <- list_fmap_compose.
      match goal with
      | |- ?l1 `sublist_of` ?l2 => assert (E : l1 = l2); [| rewrite E; reflexivity]
      end.
      apply list_fmap_ext. intros i k _. simpl. lia.
    + eapply waitsIn_weaken with (a1 := []) (Q := fun _ => True);
        [apply sublist_nil_l | auto | apply waitsIn_ret; exact I].
Qed.

Lemma waitsIn_runStart s :
  waitsIn cfg [deadline d cfg (lid s) 0]
          (fun r => match r with
                    | inl _ => True
                    | inr (_, walltime) => walltime = deadline d cfg (lid s) 0
                    end)
          (runStart d s).
Proof.
  unfold runStart, deadline. rewrite Z.mul_0_l, Z.add_0_r.
  eapply waitsIn_seq; [apply waitsIn_config |]. intros c ->.
  eapply waitsIn_seq; [apply waitsIn_emit; reflexivity |]. intros _ _.
  cbn [lid set_vrfs].
  change [Time_Add (LayerToTime d (lid s)) (PreroundDelay cfg)]
    with ([Time_Add (LayerToTime d (lid s)) (PreroundDelay cfg)] ++ []).
  eapply waitsIn_bind with (Q := fun _ => True).
  { destruct (existsb _ _).
    - change [Time_Add (LayerToTime d (lid s)) (PreroundDelay cfg)]
        with ([Time_Add (LayerToTime d (lid s)) (PreroundDelay cfg)] ++ []).
      eapply waitsIn_bind;
        [apply (waitsIn_selectCtx
                  (EvWait (Time_Add (LayerToTime d (lid s)) (PreroundDelay cfg)))) |].
      intros cancelled _. destruct cancelled; [apply waitsIn_ret; exact I |].
      eapply waitsIn_seq; [apply waitsIn_gets |]. intros proposals _.
      eapply waitsIn_seq; [apply waitsIn_storeProto |]. intros s' _.
      apply waitsIn_ret. exact I.
    - eapply waitsIn_weaken with (a1 := []) (Q := fun _ => True);
        [apply sublist_nil_l | auto | apply waitsIn_ret; exact I]. }
  intros pre _. destruct pre as [e | s1]; [apply waitsIn_ret; exact I |].
  destruct (Next d (proto s1)) as [p out].
  eapply waitsIn_seq; [apply waitsIn_storeProto |]. intros s2 _.
  eapply waitsIn_seq; [apply waitsIn_onOutput |]. intros err _.
  destruct err; apply waitsIn_ret; [exact I | reflexivity].
Qed.

Lemma waitsIn_run (rounds : nat) s :
  waitsIn cfg
          (deadline d cfg (lid s) <$> seqZ 0 (1 + Z.of_nat rounds))
          (fun _ => True) (run d rounds s).
Proof.
  unfold run. rewrite seqZ_app by lia. rewrite fmap_app.
  eapply waitsIn_bind; [apply waitsIn_runStart |].
  intros pre Hpre. destruct pre as [e | [s1 wt]].
  - eapply waitsIn_weaken with (a1 := []) (Q := fun _ => True);
      [apply sublist_nil_l | auto | apply waitsIn_ret; exact I].
  - subst wt. eapply waitsIn_weaken; [| | apply waitsIn_runLoop]; [| auto].
    match goal with
    | |- ?l1 `sublist_of` ?l2 => assert (E : l1 = l2); [| rewrite E; reflexivity]
    end.
    apply list_fmap_ext. intros i k _. unfold deadline. simpl. lia.
Qed.
End WaitsIn.

(** X6.  The deadlines [run] waits for are those of the schedule of its
    layer, in order: the start of the layer plus the preround delay plus
    k round durations, k = 0, 1, 2, ...; the time a round takes does not
    shift the later ones. *)
Theorem run_waits_on_schedule {protocol : Type} (d : Deps protocol)
        (rounds : nat) (s : session protocol) (w : World protocol) :
  waits (newEvents w (snd (run d rounds s w)))
    `sublist_of` (deadline d (config w) (lid s)
                    <$> seqZ 0 (1 + Z.of_nat rounds)).
Proof.
  destruct (waitsIn_run d (config w) rounds s w eq_refl)
    as (evs & Ht & Hs & _).
  rewrite (newEvents_app w _ evs Ht). exact Hs.
Qed.

(** * Properties of the account cache *)

Section AccountFacts.
Import txs.

Lemma balanceAfter_cons (b : Z) (c : candidate) (l : list candidate) :
  balanceAfter b (c :: l) = balanceAfter (postBalance c) l.
Proof.
  unfold balanceAfter. destruct l as [|c' l]; [reflexivity|].
  rewrite last_cons_cons.
  destruct (last (c' :: l)) eqn:E; [reflexivity|].
  apply last_None in E. discriminate.
Qed.

Lemma balanceAfter_app (b : Z) (x y : list candidate) :
  balanceAfter b (x ++ y) = balanceAfter (balanceAfter b x) y.
Proof.
  revert b. induction x as [|c x IH]; intros b.
  - reflexivity.
  - rewrite <- app_comm_cons, !balanceAfter_cons. apply IH.
Qed.

Lemma chained_app (b : Z) (x y : list candidate) :
  chained b (x ++ y) <-> chained b x /\ chained (balanceAfter b x) y.
Proof.
  revert b. induction x as [|c x IH]; intros b.
  - simpl. unfold balanceAfter; simpl. tauto.
  - rewrite <- app_comm_cons, balanceAfter_cons. simpl. rewrite IH. tauto.
Qed.

Lemma chained_spending (b : Z) (l : list candidate) :
  chained b l -> balanceAfter b l = b - spending l /\ 0 <= spending l.
Proof.
  revert b. induction l as [|c l IH]; intros b.
  - simpl. unfold balanceAfter; simpl. lia.
  - rewrite balanceAfter_cons. simpl.
    intros (Hc & Hp & Hl). destruct (IH _ Hl) as [IH1 IH2]. lia.
Qed.

Lemma chained_bounds (b : Z) (l : list candidate) :
  chained b l -> 0 <= b -> 0 <= balanceAfter b l <= b.
Proof.
  revert b. induction l as [|c l IH]; intros b.
  - simpl. unfold balanceAfter; simpl. lia.
  - rewrite balanceAfter_cons. simpl.
    intros (Hc & Hp & Hl) Hb. specialize (IH _ Hl). lia.
Qed.

Lemma chained_nonneg (b : Z) (l : list candidate) :
  chained b l -> Forall (fun c => 0 <= maxSpending c) l.
Proof.
  revert b. induction l as [|c l IH]; intros b; simpl; [constructor|].
  intros (Hc & Hp & Hl). constructor; [lia | eauto].
Qed.

(** *** precheck: the scan from the back *)

Lemma scanBack_spec (rl : list candidate) (n : Z) (passed : list candidate) :
  let pos := scanBack rl n passed in
  rev rl ++ passed = before pos ++ option_list (prev pos) ++ after pos
  /\ (exists a, after pos = a ++ passed /\ Forall (fun c => n < nonce c) a)
  /\ match prev pos with
     | Some c => nonce c <= n
     | None => before pos = []
     end.
Proof.
  revert passed. induction rl as [|c rl IH]; intros passed; simpl.
  - split; [reflexivity|]. split; [|reflexivity].
    exists []. split; [reflexivity | constructor].
  - destruct (Z.ltb_spec n (nonce c)) as [Hlt|Hge].
    + destruct (IH (c :: passed)) as (H1 & (a & Ha & HF) & H3).
      split; [rewrite <- H1, <- app_assoc; reflexivity|].
      split; [|exact H3].
      exists (a ++ [c]). split.
      * rewrite Ha, <- app_assoc. reflexivity.
      * apply Forall_app. split; [exact HF|]. constructor; [exact Hlt | constructor].
    + simpl. split; [rewrite <- app_assoc; reflexivity|].
      split; [|exact Hge].
      exists []. split; [reflexivity | constructor].
Qed.

Lemma scanBack_split (l : list candidate) (n : Z) :
  let pos := scanBack (rev l) n [] in
  l = before pos ++ option_list (prev pos) ++ after pos
  /\ Forall (fun c => n < nonce c) (after pos)
  /\ match prev pos with
     | Some c => nonce c <= n
     | None => before pos = []
     end.
Proof.
  destruct (scanBack_spec (rev l) n []) as (H1 & (a & Ha & HF) & H3).
  rewrite rev_involutive, app_nil_r in H1. rewrite app_nil_r in Ha.
  simpl. split; [exact H1|]. split; [|exact H3].
  rewrite Ha. exact HF.
Qed.

(** *** accept: the propagation of the balance *)

Lemma propagate_spec (b : Z) (next : list candidate) (cached : gmap Z NanoTX)
    (more : bool) :
  let '(l, cached', more') := propagate b next cached more in
  (best <$> l) `sublist_of` (best <$> next)
  /\ (Forall (fun c => 0 <= maxSpending c) next -> chained b l)
  /\ (more = true -> more' = true)
  /\ (length l = length next -> more' = more /\ cached' = cached)
  /\ (length l <> length next -> more' = true)
  /\ (forall k, k ∉ (id <$> next) -> cached' !! k = cached !! k)
  /\ (forall k v, cached' !! k = Some v -> cached !! k = Some v).
Proof.
  revert b cached more. induction next as [|c next IH]; intros b cached more; simpl.
  - split; [constructor|]. split; [intros _; exact I|].
    split; [tauto|]. split; [tauto|]. split; [tauto|]. split; auto.
  - destruct (Z.leb_spec (maxSpending c) b) as [Hle|Hgt].
    + specialize (IH (b - maxSpending c) cached more).
      destruct (propagate (b - maxSpending c) next cached more) as [[l cached'] more'].
      destruct IH as (I1 & I2 & I3 & I4 & I5 & I6 & I7).
      split; [simpl; apply sublist_skip; exact I1|].
      split.
      { intros H. inversion H; subst. simpl. unfold maxSpending at 1 2 3; simpl.
        fold (maxSpending c). split; [lia|]. split; [reflexivity|].
        apply I2. assumption. }
      split; [exact I3|].
      split; [simpl; intros Hlen; apply I4; lia|].
      split; [simpl; intros Hlen; apply I5; lia|].
      split; [|exact I7].
      intros k Hk. apply I6. intros Hin. apply Hk. apply elem_of_cons. right. exact Hin.
    + specialize (IH b (delete (id c) cached) true).
      destruct (propagate b next (delete (id c) cached) true) as [[l cached'] more'].
      destruct IH as (I1 & I2 & I3 & I4 & I5 & I6 & I7).
      assert (Hlen : (length l <= length next)%nat).
      { apply sublist_length in I1. rewrite !length_fmap in I1. exact I1. }
      split; [simpl; apply sublist_cons; exact I1|].
      split; [intros H; inversion H; subst; apply I2; assumption|].
      split; [intros _; apply I3; reflexivity|].
      split; [simpl; lia|].
      split; [intros _; apply I3; reflexivity|].
      split.
      * intros k Hk. rewrite I6.
        -- apply lookup_delete_ne. intros E. apply Hk. apply elem_of_cons. left. symmetry. exact E.
        -- intros Hin. apply Hk. apply elem_of_cons. right. exact Hin.
      * intros k v Hkv. apply I7 in Hkv.
        apply lookup_delete_Some in Hkv. tauto.
Qed.

End AccountFacts.

Section AcceptFacts.
Import txs.
Variable Better : NanoTX -> NanoTX -> bytes -> bool.

Lemma StronglySorted_sublist {A} (R : relation A) (l1 l2 : list A) :
  l1 `sublist_of` l2 -> StronglySorted R l2 -> StronglySorted R l1.
Proof.
  induction 1 as [|x l1 l2 Hs IH|x l1 l2 Hs IH]; intros H2.
  - constructor.
  - apply StronglySorted_cons in H2. destruct H2 as [HF H2].
    apply StronglySorted_cons. split; [|auto].
    apply Forall_forall. intros y Hy.
    rewrite Forall_forall in HF. apply HF. eapply elem_of_sublist; eauto.
  - apply StronglySorted_cons in H2. destruct H2 as [HF H2]. auto.
Qed.

Lemma set_moreInDB_same (ac : accountCache) :
  set_moreInDB (moreInDB ac) ac = ac.
Proof. destruct ac; reflexivity. Qed.

(** accept, case by case: where the transaction goes and what comes of it *)
Lemma accept_cases (ac : accountCache) (cached : gmap Z NanoTX) (ntx : NanoTX)
    (seed : bytes) :
  ((maxTXsPerAcct <= length (txsByNonce ac))%nat
   /\ accept Better ac cached ntx seed
      = (set_moreInDB true ac, cached,
         Some (errTooManyNonce (length (txsByNonce ac)))))
  \/ ((length (txsByNonce ac) < maxTXsPerAcct)%nat
      /\ exists lo same hi,
          txsByNonce ac = lo ++ option_list same ++ hi
          /\ Forall (fun c => Nonce ntx < nonce c) hi
          /\ (forall p, same = Some p -> nonce p = Nonce ntx)
          /\ (same = None -> forall q, last lo = Some q -> nonce q < Nonce ntx)
          /\ ((balanceFor ac lo same < MaxSpending ntx
               /\ accept Better ac cached ntx seed
                  = (ac, cached, Some errInsufficientBalance))
              \/ (MaxSpending ntx <= balanceFor ac lo same
                  /\ exists p, same = Some p
                       /\ Better ntx (best p) seed = false
                       /\ accept Better ac cached ntx seed = (ac, cached, None))
              \/ (MaxSpending ntx <= balanceFor ac lo same
                  /\ (forall p, same = Some p -> Better ntx (best p) seed = true)
                  /\ accept Better ac cached ntx seed
                     = accepted ac cached ntx lo same hi))).
Proof.
  unfold accept, precheck.
  destruct (Nat.leb_spec maxTXsPerAcct (length (txsByNonce ac))) as [Hlen|Hlen].
  { left. split; [exact Hlen | reflexivity]. }
  right. split; [exact Hlen|].
  destruct (scanBack_split (txsByNonce ac) (Nonce ntx)) as (Hl & Ha & Hp).
  set (pos := scanBack (rev (txsByNonce ac)) (Nonce ntx) []) in *.
  destruct (prev pos) as [p|] eqn:Eprev.
  - destruct (Z.eqb_spec (nonce p) (Nonce ntx)) as [Heq|Hne].
    + (* existing nonce *)
      exists (before pos), (Some p), (after pos).
      split; [exact Hl|]. split; [exact Ha|].
      split; [intros p' [= <-]; exact Heq|]. split; [discriminate|].
      unfold balanceFor.
      destruct (Z.ltb_spec (uint64 (postBalance p + maxSpending p)) (MaxSpending ntx))
        as [Hb|Hb].
      { left. split; [exact Hb | reflexivity]. }
      right. rewrite Eprev.
      destruct (Z.ltb_spec (nonce p) (Nonce ntx)) as [Hlt|_]; [lia|].
      destruct (Better ntx (best p) seed) eqn:EB; simpl.
      * right. split; [exact Hb|]. split; [intros p' [= <-]; exact EB|].
        unfold accepted, balanceFor. simpl. unfold id.
        destruct (propagate _ _ _ _) as [[l c'] m'].
        rewrite <- app_assoc. reflexivity.
      * left. split; [exact Hb|]. exists p. auto.
    + (* a lower nonce in front *)
      exists (before pos ++ [p]), None, (after pos).
      split; [rewrite Hl; simpl; rewrite <- app_assoc; reflexivity|].
      split; [exact Ha|]. split; [discriminate|].
      split; [intros _ q; rewrite last_snoc; intros [= <-]; lia|].
      unfold balanceFor, balanceAfter. rewrite last_snoc.
      destruct (Z.ltb_spec (postBalance p) (MaxSpending ntx)) as [Hb|Hb].
      { left. split; [exact Hb | reflexivity]. }
      right. right. split; [exact Hb|]. split; [discriminate|].
      rewrite Eprev.
      destruct (Z.ltb_spec (nonce p) (Nonce ntx)) as [_|Hge]; [|lia].
      unfold accepted, balanceFor, balanceAfter. rewrite last_snoc. simpl.
      destruct (propagate _ _ _ _) as [[l c'] m'].
      rewrite <- !app_assoc. reflexivity.
  - (* the first position *)
    exists [], None, (after pos).
    split; [rewrite Hl, Hp; reflexivity|].
    split; [exact Ha|]. split; [discriminate|].
    split; [intros _ q; discriminate|].
    unfold balanceFor, balanceAfter. simpl.
    destruct (Z.ltb_spec (startBalance ac) (MaxSpending ntx)) as [Hb|Hb].
    { left. split; [exact Hb | reflexivity]. }
    right. right. split; [exact Hb|]. split; [discriminate|].
    rewrite Eprev. unfold accepted, balanceFor, balanceAfter. simpl.
    rewrite Hp. simpl.
    destruct (propagate _ _ _ _) as [[l c'] m']. reflexivity.
Qed.

End AcceptFacts.

Section AcceptInvariants.
Import txs.
Variable Better : NanoTX -> NanoTX -> bytes -> bool.

Lemma filter_all {A} (P : A -> Prop) `{forall x, Decision (P x)} (l : list A) :
  Forall P l -> filter P l = l.
Proof.
  induction 1 as [|x l Hx Hl IH]; [reflexivity|].
  rewrite filter_cons_True by exact Hx. rewrite IH. reflexivity.
Qed.

Lemma filter_none {A} (P : A -> Prop) `{forall x, Decision (P x)} (l : list A) :
  Forall (fun x => ~ P x) l -> filter P l = [].
Proof.
  induction 1 as [|x l Hx Hl IH]; [reflexivity|].
  rewrite filter_cons_False by exact Hx. exact IH.
Qed.

Lemma increasing_app (x y : list candidate) :
  increasing (x ++ y) <->
  (forall a b, a ∈ x -> b ∈ y -> nonce a < nonce b)
  /\ increasing x /\ increasing y.
Proof.
  unfold increasing. rewrite fmap_app, StronglySorted_app.
  split; intros (H1 & H2 & H3); (split; [|split; assumption]).
  - intros a b Ha Hb. apply H1; apply list_elem_of_fmap_2; assumption.
  - intros a b Ha Hb.
    apply list_elem_of_fmap in Ha. destruct Ha as (a' & -> & Ha).
    apply list_elem_of_fmap in Hb. destruct Hb as (b' & -> & Hb). auto.
Qed.

Lemma increasing_lo (lo : list candidate) (same : option candidate)
    (hi : list candidate) (n : Z) :
  increasing (lo ++ option_list same ++ hi) ->
  (forall p, same = Some p -> nonce p = n) ->
  (same = None -> forall q, last lo = Some q -> nonce q < n) ->
  Forall (fun c => nonce c < n) lo.
Proof.
  intros Hinc Hsame Hlast. apply Forall_forall. intros x Hx.
  apply increasing_app in Hinc. destruct Hinc as (H1 & H2 & H3).
  destruct same as [p|].
  - rewrite <- (Hsame p eq_refl). apply H1; [exact Hx|].
    simpl. apply elem_of_cons. left. reflexivity.
  - destruct (last lo) as [q|] eqn:Eq.
    + specialize (Hlast eq_refl q eq_refl).
      apply last_Some in Eq. destruct Eq as [lo' ->].
      apply elem_of_app in Hx. destruct Hx as [Hx|Hx].
      * apply increasing_app in H2. destruct H2 as (H2 & _).
        specialize (H2 x q Hx). 
        assert (q ∈ [q]) as Hq by (apply elem_of_cons; left; reflexivity).
        specialize (H2 Hq). lia.
      * apply list_elem_of_singleton in Hx. subst x. exact Hlast.
    + apply last_None in Eq. subst lo. inversion Hx.
Qed.

Lemma accepted_inv (ac : accountCache) (cached : gmap Z NanoTX) (ntx : NanoTX)
    (lo : list candidate) (same : option candidate) (hi : list candidate) :
  let post := balanceFor ac lo same - MaxSpending ntx in
  let cached1 :=
    <[ID ntx := ntx]>
      (match same with Some p => delete (id p) cached | None => cached end) in
  exists l' cached' more',
    propagate post hi cached1 (moreInDB ac) = (l', cached', more')
    /\ accepted ac cached ntx lo same hi
       = (set_moreInDB more'
            (set_txsByNonce (lo ++ mkCandidate ntx post :: l') ac),
          cached', None).
Proof.
  simpl. unfold accepted.
  destruct (propagate _ _ _ _) as [[l' cached'] more'].
  exists l', cached', more'. split; reflexivity.
Qed.

Lemma propagate_nonces (b : Z) (next : list candidate) (cached : gmap Z NanoTX)
    (more : bool) :
  (nonce <$> (propagate b next cached more).1.1) `sublist_of` (nonce <$> next).
Proof.
  pose proof (propagate_spec b next cached more) as H.
  destruct (propagate b next cached more) as [[l c'] m']. simpl.
  destruct H as (H & _).
  assert (Hn : forall l0 : list candidate, nonce <$> l0 = Nonce <$> (best <$> l0)).
  { intros l0. rewrite <- list_fmap_compose. reflexivity. }
  rewrite !Hn. apply fmap_sublist. exact H.
Qed.

Lemma propagate_length (b : Z) (next : list candidate) (cached : gmap Z NanoTX)
    (more : bool) :
  (length (propagate b next cached more).1.1 <= length next)%nat.
Proof.
  pose proof (propagate_nonces b next cached more) as H.
  apply sublist_length in H. rewrite !length_fmap in H. exact H.
Qed.

(** the order of the nonces and the bound of the length are kept *)
Lemma accept_increasing (ac : accountCache) (cached : gmap Z NanoTX)
    (ntx : NanoTX) (seed : bytes) :
  increasing (txsByNonce ac) ->
  increasing (txsByNonce (accept Better ac cached ntx seed).1.1).
Proof.
  intros Hinc.
  destruct (accept_cases Better ac cached ntx seed)
    as [[_ ->]|(_ & lo & same & hi & Hl & Hhi & Hsame & Hlast & Hcase)].
  { destruct ac; exact Hinc. }
  destruct Hcase as [[_ ->]|[(_ & p & _ & _ & ->)|(_ & _ & ->)]];
    [exact Hinc | exact Hinc |].
  destruct (accepted_inv ac cached ntx lo same hi) as (l' & c' & m' & Hprop & ->).
  simpl. rewrite Hl in Hinc.
  pose proof (increasing_lo _ _ _ _ Hinc Hsame Hlast) as Hlo.
  pose proof (propagate_nonces (balanceFor ac lo same - MaxSpending ntx) hi
                (<[ID ntx:=ntx]> match same with
                                 | Some p => delete (id p) cached
                                 | None => cached
                                 end) (moreInDB ac)) as Hsub.
  rewrite Hprop in Hsub. simpl in Hsub.
  apply increasing_app in Hinc. destruct Hinc as (_ & Hinc_lo & Hinc_hi).
  apply increasing_app in Hinc_hi. destruct Hinc_hi as (_ & _ & Hinc_hi).
  assert (Hl' : Forall (fun c => Nonce ntx < nonce c) l').
  { apply Forall_forall. intros c Hc.
    assert (Hin : nonce c ∈ nonce <$> hi).
    { eapply elem_of_sublist; [|exact Hsub]. apply list_elem_of_fmap_2. exact Hc. }
    apply list_elem_of_fmap in Hin. destruct Hin as (c0 & -> & Hc0).
    rewrite Forall_forall in Hhi. apply Hhi. exact Hc0. }
  apply increasing_app. split; [|split; [exact Hinc_lo|]].
  - intros a b Ha Hb. rewrite Forall_forall in Hlo. specialize (Hlo a Ha).
    apply elem_of_cons in Hb. destruct Hb as [->|Hb].
    + unfold nonce at 2. simpl. exact Hlo.
    + rewrite Forall_forall in Hl'. specialize (Hl' b Hb). lia.
  - unfold increasing. rewrite fmap_cons. apply StronglySorted_cons. split.
    + apply Forall_fmap. exact Hl'.
    + eapply StronglySorted_sublist; [exact Hsub | exact Hinc_hi].
Qed.

Lemma accept_length (ac : accountCache) (cached : gmap Z NanoTX)
    (ntx : NanoTX) (seed : bytes) :
  (length (txsByNonce ac) <= maxTXsPerAcct)%nat ->
  (length (txsByNonce (accept Better ac cached ntx seed).1.1)
   <= maxTXsPerAcct)%nat.
Proof.
  intros Hlen.
  destruct (accept_cases Better ac cached ntx seed)
    as [[_ ->]|(Hlt & lo & same & hi & Hl & Hhi & Hsame & Hlast & Hcase)].
  { destruct ac; exact Hlen. }
  destruct Hcase as [[_ ->]|[(_ & p & _ & _ & ->)|(_ & _ & ->)]];
    [exact Hlen | exact Hlen |].
  destruct (accepted_inv ac cached ntx lo same hi) as (l' & c' & m' & Hprop & ->).
  simpl.
  pose proof (propagate_length (balanceFor ac lo same - MaxSpending ntx) hi
                (<[ID ntx:=ntx]> match same with
                                 | Some p => delete (id p) cached
                                 | None => cached
                                 end) (moreInDB ac)) as Hsub.
  rewrite Hprop in Hsub. simpl in Hsub.
  rewrite Hl in Hlt. rewrite !length_app in Hlt.
  rewrite length_app. simpl. lia.
Qed.

(** the balances stay consistent *)
Lemma balanceFor_chained (ac : accountCache) (lo : list candidate)
    (same : option candidate) (hi : list candidate) :
  chained (startBalance ac) (lo ++ option_list same ++ hi) ->
  in_uint64 (startBalance ac) ->
  balanceFor ac lo same = balanceAfter (startBalance ac) lo.
Proof.
  intros Hch Hstart. unfold balanceFor. destruct same as [p|]; [|reflexivity].
  apply chained_app in Hch. destruct Hch as [Hlo Hhi].
  pose proof (chained_bounds _ _ Hlo) as Hb.
  simpl in Hhi. destruct Hhi as (H1 & H2 & _).
  unfold in_uint64 in Hstart. unfold uint64.
  rewrite Z.mod_small; lia.
Qed.

Lemma accept_chained (ac : accountCache) (cached : gmap Z NanoTX)
    (ntx : NanoTX) (seed : bytes) :
  chained (startBalance ac) (txsByNonce ac) ->
  in_uint64 (startBalance ac) ->
  0 <= MaxSpending ntx ->
  let ac' := (accept Better ac cached ntx seed).1.1 in
  startBalance ac' = startBalance ac
  /\ chained (startBalance ac) (txsByNonce ac').
Proof.
  intros Hch Hstart Hms.
  destruct (accept_cases Better ac cached ntx seed)
    as [[_ ->]|(Hlt & lo & same & hi & Hl & Hhi & Hsame & Hlast & Hcase)].
  { destruct ac; split; [reflexivity | exact Hch]. }
  destruct Hcase as [[_ ->]|[(_ & p & _ & _ & ->)|(Hb & _ & ->)]];
    [split; [reflexivity | exact Hch] | split; [reflexivity | exact Hch] |].
  destruct (accepted_inv ac cached ntx lo same hi) as (l' & c' & m' & Hprop & ->).
  simpl. split; [reflexivity|].
  rewrite Hl in Hch.
  rewrite (balanceFor_chained ac lo same hi Hch Hstart) in *.
  pose proof (propagate_spec
                (balanceAfter (startBalance ac) lo - MaxSpending ntx) hi
                (<[ID ntx:=ntx]> match same with
                                 | Some p => delete (id p) cached
                                 | None => cached
                                 end) (moreInDB ac)) as Hspec.
  rewrite Hprop in Hspec. destruct Hspec as (_ & Hchain & _).
  apply chained_app in Hch. destruct Hch as [Hlo Hrest].
  apply chained_app in Hrest. destruct Hrest as [_ Hhi'].
  apply chained_nonneg in Hhi'.
  apply chained_app. split; [exact Hlo|].
  simpl. unfold maxSpending at 1 2; simpl.
  split; [lia|]. split; [reflexivity|]. apply Hchain. exact Hhi'.
Qed.

End AcceptInvariants.

Section AcceptOutcome.
Import txs.
Variable Better : NanoTX -> NanoTX -> bytes -> bool.




Lemma split_filter_lo (lo : list candidate) (same : option candidate)
    (hi : list candidate) (n : Z) :
  Forall (fun c => nonce c < n) lo ->
  (forall p, same = Some p -> nonce p = n) ->
  Forall (fun c => n < nonce c) hi ->
  filter (fun c => nonce c < n) (lo ++ option_list same ++ hi) = lo.
Proof.
  intros Hlo Hsame Hhi. rewrite !filter_app.
  rewrite (filter_all _ lo Hlo).
  rewrite (filter_none _ hi).
  2:{ eapply Forall_impl; [exact Hhi|]. simpl. intros; lia. }
  rewrite (filter_none _ (option_list same)).
  2:{ destruct same as [p|]; simpl; [|constructor].
      constructor; [|constructor]. rewrite (Hsame p eq_refl). lia. }
  rewrite !app_nil_r. reflexivity.
Qed.

Lemma split_filter_hi (lo : list candidate) (same : option candidate)
    (hi : list candidate) (n : Z) :
  Forall (fun c => nonce c < n) lo ->
  (forall p, same = Some p -> nonce p = n) ->
  Forall (fun c => n < nonce c) hi ->
  filter (fun c => n < nonce c) (lo ++ option_list same ++ hi) = hi.
Proof.
  intros Hlo Hsame Hhi. rewrite !filter_app.
  rewrite (filter_all _ hi Hhi).
  rewrite (filter_none _ lo).
  2:{ eapply Forall_impl; [exact Hlo|]. simpl. intros; lia. }
  rewrite (filter_none _ (option_list same)).
  2:{ destruct same as [p|]; simpl; [|constructor].
      constructor; [|constructor]. rewrite (Hsame p eq_refl). lia. }
  reflexivity.
Qed.

End AcceptOutcome.

Section AcceptTheorems.
Import txs.
Variable Better : NanoTX -> NanoTX -> bytes -> bool.

Lemma availBalance_balanceAfter (ac : accountCache) :
  availBalance ac = balanceAfter (startBalance ac) (txsByNonce ac).
Proof. reflexivity. Qed.

(** X7.  [accept] keeps the nonces strictly increasing and the list within
    maxTXsPerAcct. *)
Theorem accept_keeps_nonce_order (ac : accountCache) (cached : gmap Z NanoTX)
    (ntx : NanoTX) (seed : bytes) :
  increasing (txsByNonce ac) ->
  (length (txsByNonce ac) <= maxTXsPerAcct)%nat ->
  increasing (txsByNonce (accept Better ac cached ntx seed).1.1)
  /\ (length (txsByNonce (accept Better ac cached ntx seed).1.1)
      <= maxTXsPerAcct)%nat.
Proof.
  intros Hinc Hlen. split.
  - apply accept_increasing. exact Hinc.
  - apply accept_length. exact Hlen.
Qed.

(** X8.  [accept] keeps the balances consistent: every candidate can be
    paid from what the one in front of it leaves, and the available balance
    is the start balance less the maximum spending of all candidates. *)
Theorem accept_keeps_balances (ac : accountCache) (cached : gmap Z NanoTX)
    (ntx : NanoTX) (seed : bytes) :
  chained (startBalance ac) (txsByNonce ac) ->
  in_uint64 (startBalance ac) ->
  0 <= MaxSpending ntx ->
  let ac' := (accept Better ac cached ntx seed).1.1 in
  chained (startBalance ac') (txsByNonce ac')
  /\ availBalance ac' = startBalance ac - spending (txsByNonce ac')
  /\ 0 <= availBalance ac' <= startBalance ac.
Proof.
  intros Hch Hstart Hms.
  destruct (accept_chained Better ac cached ntx seed Hch Hstart Hms) as [Hs Hc].
  simpl. rewrite Hs. split; [exact Hc|].
  rewrite availBalance_balanceAfter, Hs.
  destruct (chained_spending _ _ Hc) as [H1 H2].
  split; [exact H1|].
  apply chained_bounds; [exact Hc|]. unfold in_uint64 in Hstart. lia.
Qed.

(** X9.  [accept] leaves the candidates of lower nonces as they are; those of
    higher nonces keep their transaction or are removed, and moreInDB is set
    when one is removed. *)
Theorem accept_spares_lower_nonces (ac : accountCache) (cached : gmap Z NanoTX)
    (ntx : NanoTX) (seed : bytes) :
  increasing (txsByNonce ac) ->
  let ac' := (accept Better ac cached ntx seed).1.1 in
  let lower := fun c => nonce c < Nonce ntx in
  let higher := fun c => Nonce ntx < nonce c in
  filter lower (txsByNonce ac') = filter lower (txsByNonce ac)
  /\ (best <$> filter higher (txsByNonce ac'))
       `sublist_of` (best <$> filter higher (txsByNonce ac))
  /\ (length (filter higher (txsByNonce ac'))
      <> length (filter higher (txsByNonce ac)) -> moreInDB ac' = true)
  /\ (moreInDB ac = true -> moreInDB ac' = true).
Proof.
  intros Hinc.
  destruct (accept_cases Better ac cached ntx seed)
    as [[_ ->]|(Hlt & lo & same & hi & Hl & Hhi & Hsame & Hlast & Hcase)].
  { destruct ac; simpl. split; [reflexivity|]. split; [reflexivity|].
    split; [congruence | reflexivity]. }
  destruct Hcase as [[_ ->]|[(_ & p & _ & _ & ->)|(Hb & _ & ->)]].
  1,2: simpl; split; [reflexivity|]; split; [reflexivity|];
       split; [congruence | tauto].
  destruct (accepted_inv ac cached ntx lo same hi) as (l' & c' & m' & Hprop & ->).
  simpl.
  pose proof (propagate_spec
                (balanceFor ac lo same - MaxSpending ntx) hi
                (<[ID ntx:=ntx]> match same with
                                 | Some p => delete (id p) cached
                                 | None => cached
                                 end) (moreInDB ac)) as Hspec.
  pose proof (propagate_nonces
                (balanceFor ac lo same - MaxSpending ntx) hi
                (<[ID ntx:=ntx]> match same with
                                 | Some p => delete (id p) cached
                                 | None => cached
                                 end) (moreInDB ac)) as Hnon.
  rewrite Hprop in Hspec, Hnon. simpl in Hnon.
  destruct Hspec as (Hsub & _ & Hmono & _ & Hrem & _).
  rewrite Hl in Hinc.
  pose proof (increasing_lo _ _ _ _ Hinc Hsame Hlast) as Hlo.
  assert (Hl' : Forall (fun c => Nonce ntx < nonce c) l').
  { apply Forall_forall. intros c Hc.
    assert (Hin : nonce c ∈ nonce <$> hi).
    { eapply elem_of_sublist; [|exact Hnon]. apply list_elem_of_fmap_2. exact Hc. }
    apply list_elem_of_fmap in Hin. destruct Hin as (c0 & -> & Hc0).
    rewrite Forall_forall in Hhi. apply Hhi. exact Hc0. }
  assert (Hnew : forall p0, Some (mkCandidate ntx (balanceFor ac lo same - MaxSpending ntx)) = Some p0
                   -> nonce p0 = Nonce ntx).
  { intros p0 [= <-]. reflexivity. }
  rewrite Hl.
  rewrite (split_filter_lo lo same hi (Nonce ntx) Hlo Hsame Hhi).
  rewrite (split_filter_hi lo same hi (Nonce ntx) Hlo Hsame Hhi).
  pose proof (split_filter_lo lo (Some _) l' (Nonce ntx) Hlo Hnew Hl') as E1.
  pose proof (split_filter_hi lo (Some _) l' (Nonce ntx) Hlo Hnew Hl') as E2.
  simpl in E1, E2. rewrite E1, E2.
  split; [reflexivity|]. split; [exact Hsub|]. split; [exact Hrem | exact Hmono].
Qed.

End AcceptTheorems.

Section AcceptTheorems2.
Import txs.
Variable Better : NanoTX -> NanoTX -> bytes -> bool.

(** X10.  [accept] rejects exactly for a full account or a balance that does not
    cover the transaction, and a rejected transaction changes neither the
    list nor the shared map. *)
Theorem accept_rejects_iff (ac : accountCache) (cached : gmap Z NanoTX)
    (ntx : NanoTX) (seed : bytes) :
  increasing (txsByNonce ac) ->
  chained (startBalance ac) (txsByNonce ac) ->
  in_uint64 (startBalance ac) ->
  let r := accept Better ac cached ntx seed in
  let l := txsByNonce ac in
  let room :=
    startBalance ac - spending (filter (fun c => nonce c < Nonce ntx) l) in
  (r.2 = Some (errTooManyNonce (length l)) <-> (maxTXsPerAcct <= length l)%nat)
  /\ (r.2 = Some errInsufficientBalance
      <-> (length l < maxTXsPerAcct)%nat /\ room < MaxSpending ntx)
  /\ (r.2 = None
      <-> (length l < maxTXsPerAcct)%nat /\ MaxSpending ntx <= room)
  /\ (r.2 <> None -> txsByNonce r.1.1 = l /\ r.1.2 = cached).
Proof.
  intros Hinc Hch Hstart. simpl.
  destruct (accept_cases Better ac cached ntx seed)
    as [[Hlen ->]|(Hlt & lo & same & hi & Hl & Hhi & Hsame & Hlast & Hcase)].
  { simpl. split; [tauto|]. split; [split; [discriminate | lia]|].
    split; [split; [discriminate | lia]|].
    intros _. destruct ac; split; reflexivity. }
  assert (Hroom : startBalance ac
                  - spending (filter (fun c => nonce c < Nonce ntx) (txsByNonce ac))
                  = balanceFor ac lo same).
  { rewrite Hl in Hinc, Hch.
    rewrite (balanceFor_chained ac lo same hi Hch Hstart).
    pose proof (increasing_lo _ _ _ _ Hinc Hsame Hlast) as Hlo.
    rewrite Hl, (split_filter_lo lo same hi (Nonce ntx) Hlo Hsame Hhi).
    apply chained_app in Hch. destruct Hch as [Hch _].
    destruct (chained_spending _ _ Hch) as [-> _]. reflexivity. }
  rewrite Hroom.
  destruct Hcase as [[Hb ->]|[(Hb & p & _ & _ & ->)|(Hb & _ & ->)]]; simpl.
  - split; [split; [discriminate | lia]|].
    split; [split; [tauto | reflexivity]|].
    split; [split; [discriminate | lia]|]. intros _. split; reflexivity.
  - split; [split; [discriminate | lia]|].
    split; [split; [discriminate | lia]|].
    split; [split; [tauto | reflexivity]|]. intros H; contradiction.
  - destruct (accepted_inv ac cached ntx lo same hi) as (l' & c' & m' & Hprop & ->).
    simpl.
    split; [split; [discriminate | lia]|].
    split; [split; [discriminate | lia]|].
    split; [split; [tauto | reflexivity]|]. intros H; contradiction.
Qed.

(** X11.  After [accept] has returned nil the account has a candidate of the
    transaction's nonce: the transaction itself, which is then in the shared
    map, or the candidate it had, which the transaction is not Better than,
    and then nothing has changed. *)
Theorem accept_nil_means (ac : accountCache) (cached : gmap Z NanoTX)
    (ntx : NanoTX) (seed : bytes) (ac' : accountCache)
    (cached' : gmap Z NanoTX) :
  accept Better ac cached ntx seed = (ac', cached', None) ->
  (forall c, c ∈ txsByNonce ac -> Nonce ntx < nonce c -> id c <> ID ntx) ->
  ((exists c, c ∈ txsByNonce ac' /\ best c = ntx)
   /\ cached' !! ID ntx = Some ntx)
  \/ (exists p, p ∈ txsByNonce ac /\ nonce p = Nonce ntx
                /\ Better ntx (best p) seed = false
                /\ ac' = ac /\ cached' = cached).
Proof.
  intros Hacc Hid.
  destruct (accept_cases Better ac cached ntx seed)
    as [[_ E]|(Hlt & lo & same & hi & Hl & Hhi & Hsame & Hlast & Hcase)].
  { rewrite E in Hacc. discriminate. }
  destruct Hcase as [[_ E]|[(_ & p & Hp & HB & E)|(Hb & _ & E)]];
    rewrite E in Hacc.
  - discriminate.
  - injection Hacc as <- <-. right. exists p.
    split; [|split; [apply Hsame; exact Hp | auto]].
    rewrite Hl, Hp. apply elem_of_app. right. apply elem_of_cons. left. reflexivity.
  - destruct (accepted_inv ac cached ntx lo same hi) as (l' & c' & m' & Hprop & E').
    rewrite E' in Hacc. injection Hacc as <- <-. left. split.
    + exists (mkCandidate ntx (balanceFor ac lo same - MaxSpending ntx)).
      split; [|reflexivity]. simpl.
      apply elem_of_app. right. apply elem_of_cons. left. reflexivity.
    + pose proof (propagate_spec
                (balanceFor ac lo same - MaxSpending ntx) hi
                (<[ID ntx:=ntx]> match same with
                                 | Some p => delete (id p) cached
                                 | None => cached
                                 end) (moreInDB ac)) as Hspec.
      rewrite Hprop in Hspec.
      destruct Hspec as (_ & _ & _ & _ & _ & Hout & _).
      rewrite Hout; [apply lookup_insert_eq|].
      intros Hin. apply list_elem_of_fmap in Hin. destruct Hin as (c & Hc & Hchi).
      rewrite Forall_forall in Hhi.
      apply (Hid c); [|apply Hhi; exact Hchi | symmetry; exact Hc].
      rewrite Hl. apply elem_of_app. right. apply elem_of_app. right. exact Hchi.
Qed.


End AcceptTheorems2.

Section BatchFacts.
Import txs.
Variable Better : NanoTX -> NanoTX -> bytes -> bool.

Lemma findBest_from (ntxs : list NanoTX) (balance : Z) (seed : bytes)
    (acc : option NanoTX) :
  let step := fun best ntx =>
    if (MaxSpending ntx <=? balance)
       && match best with
          | None => true
          | Some b => Better ntx b seed
          end
    then Some ntx else best in
  let unbeaten b :=
    Forall (fun ntx => MaxSpending ntx <= balance -> Better ntx b seed = false) in
  match fold_left step ntxs acc with
  | None => acc = None /\ Forall (fun ntx => balance < MaxSpending ntx) ntxs
  | Some b =>
      (acc = Some b /\ unbeaten b ntxs)
      \/ exists pre post, ntxs = pre ++ b :: post
           /\ MaxSpending b <= balance /\ unbeaten b post
  end.
Proof.
  simpl. revert acc. induction ntxs as [|x ntxs IH]; intros acc; simpl.
  - destruct acc as [a|]; [left; split; [reflexivity | constructor]|].
    split; [reflexivity | constructor].
  - specialize (IH (if (MaxSpending x <=? balance)
                       && match acc with
                          | Some b => Better x b seed
                          | None => true
                          end
                    then Some x else acc)).
    destruct (fold_left _ ntxs _) as [b|].
    + destruct IH as [[Hacc Hun]|(pre & post & -> & Hb & Hun)].
      * destruct (Z.leb_spec (MaxSpending x) balance) as [Hle|Hgt]; simpl in Hacc.
        -- destruct acc as [a|].
           ++ destruct (Better x a seed) eqn:EB.
              ** injection Hacc as ->. right. exists [], ntxs. auto.
              ** injection Hacc as ->. left. split; [reflexivity|].
                 constructor; [intros _; exact EB | exact Hun].
           ++ injection Hacc as ->. right. exists [], ntxs. auto.
        -- left. split; [exact Hacc|]. constructor; [lia | exact Hun].
      * right. exists (x :: pre), post. auto.
    + destruct IH as [Hacc Hall].
      destruct (Z.leb_spec (MaxSpending x) balance) as [Hle|Hgt]; simpl in Hacc.
      * destruct acc as [a|]; [destruct (Better x a seed)|]; discriminate.
      * split; [exact Hacc|]. constructor; [exact Hgt | exact Hall].
Qed.

Lemma findBest_result (ntxs : list NanoTX) (balance : Z) (seed : bytes) :
  match findBest Better ntxs balance seed with
  | None => Forall (fun ntx => balance < MaxSpending ntx) ntxs
  | Some b =>
      exists pre post, ntxs = pre ++ b :: post
        /\ MaxSpending b <= balance
        /\ Forall (fun ntx => MaxSpending ntx <= balance ->
                              Better ntx b seed = false) post
  end.
Proof.
  unfold findBest.
  pose proof (findBest_from ntxs balance seed None) as H. simpl in H.
  destruct (fold_left _ ntxs None) as [b|].
  - destruct H as [[H _]|H]; [discriminate | exact H].
  - tauto.
Qed.

(** X13.  [findBest] returns nil exactly when no transaction of the group can be
    paid from the balance; otherwise it returns a transaction of the group that
    can be paid and that no payable transaction behind it is Better than. *)
Theorem findBest_spec (ntxs : list NanoTX) (balance : Z) (seed : bytes) :
  match findBest Better ntxs balance seed with
  | None => Forall (fun ntx => balance < MaxSpending ntx) ntxs
  | Some b =>
      exists pre post, ntxs = pre ++ b :: post
        /\ MaxSpending b <= balance
        /\ Forall (fun ntx => MaxSpending ntx <= balance ->
                              Better ntx b seed = false) post
  end.
Proof. apply findBest_result. Qed.

Lemma getMempoolFrom_found (l : list candidate) :
  getMempoolFrom true l = best <$> l.
Proof.
  induction l as [|c l IH]; [reflexivity|]. simpl. rewrite IH. reflexivity.
Qed.

Lemma getMempool_from_first (ac : accountCache) :
  exists packed rest,
    txsByNonce ac = packed ++ rest
    /\ Forall (fun c => layer c <> 0) packed
    /\ match rest with
       | [] => True
       | c :: _ => layer c = 0
       end
    /\ getMempool ac = best <$> rest.
Proof.
  unfold getMempool. induction (txsByNonce ac) as [|c l IH].
  - exists [], []. repeat split; constructor.
  - simpl. destruct (Z.eqb_spec (layer c) 0) as [Hz|Hnz].
    + exists [], (c :: l). simpl. rewrite getMempoolFrom_found.
      repeat split; [constructor | exact Hz].
    + destruct IH as (packed & rest & -> & Hp & Hr & Hm).
      exists (c :: packed), rest. simpl.
      repeat split; [constructor; assumption | exact Hr | exact Hm].
Qed.

(** X14.  [getMempool] returns the transactions of the candidates from the first
    one that has no layer on, those behind it included whether they have a
    layer or not, and none of those in front of it. *)
Theorem getMempool_from_first_unpacked (ac : accountCache) :
  exists packed rest,
    txsByNonce ac = packed ++ rest
    /\ Forall (fun c => layer c <> 0) packed
    /\ match rest with
       | [] => True
       | c :: _ => layer c = 0
       end
    /\ getMempool ac = best <$> rest.
Proof. apply getMempool_from_first. Qed.

End BatchFacts.

Section AddBatchFacts.
Import txs.
Variable Better : NanoTX -> NanoTX -> bytes -> bool.

Lemma accept_append (ac : accountCache) (cached : gmap Z NanoTX) (ntx : NanoTX)
    (seed : bytes) :
  Forall (fun c => nonce c < Nonce ntx) (txsByNonce ac) ->
  accept Better ac cached ntx seed = appended ac cached ntx.
Proof.
  intros Hall. unfold appended.
  destruct (accept_cases Better ac cached ntx seed)
    as [[Hlen ->]|(Hlt & lo & same & hi & Hl & Hhi & Hsame & Hlast & Hcase)].
  { destruct (Nat.leb_spec maxTXsPerAcct (length (txsByNonce ac))); [reflexivity | lia]. }
  destruct (Nat.leb_spec maxTXsPerAcct (length (txsByNonce ac))) as [|_]; [lia|].
  rewrite Hl in Hall.
  apply Forall_app in Hall. destruct Hall as [_ Hall].
  apply Forall_app in Hall. destruct Hall as [Hs Hh].
  assert (same = None) as ->.
  { destruct same as [p|]; [|reflexivity].
    inversion Hs; subst. rewrite (Hsame p eq_refl) in *. lia. }
  assert (hi = []) as ->.
  { destruct hi as [|c hi]; [reflexivity|].
    inversion Hh; subst. inversion Hhi; subst. lia. }
  simpl in Hl. rewrite app_nil_r in Hl. subst lo.
  unfold balanceFor in Hcase. rewrite <- availBalance_balanceAfter in Hcase.
  destruct Hcase as [[Hb ->]|[(_ & p & Hp & _)|(Hb & _ & ->)]].
  - destruct (Z.ltb_spec (availBalance ac) (MaxSpending ntx)); [reflexivity | lia].
  - discriminate.
  - destruct (Z.ltb_spec (availBalance ac) (MaxSpending ntx)); [lia|].
    unfold accepted, balanceFor. rewrite <- availBalance_balanceAfter. simpl.
    destruct ac; reflexivity.
Qed.

Lemma findBest_elem_of (ntxs : list NanoTX) (balance : Z) (seed : bytes)
    (b : NanoTX) :
  findBest Better ntxs balance seed = Some b -> b ∈ ntxs.
Proof.
  intros E. pose proof (findBest_result Better ntxs balance seed) as H.
  rewrite E in H. destruct H as (pre & post & -> & _).
  apply elem_of_app. right. apply elem_of_cons. left. reflexivity.
Qed.

Lemma addBatchLoop_spec (nonces : list Z) (nonce2TXs : gmap Z (list NanoTX))
    (seed : bytes) (ac : accountCache) (cached : gmap Z NanoTX)
    (balance : Z) (added : nat) :
  StronglySorted Z.lt nonces ->
  Forall (fun n => Forall (fun c => nonce c < n) (txsByNonce ac)) nonces ->
  (forall n ntxs ntx, nonce2TXs !! n = Some ntxs -> ntx ∈ ntxs -> Nonce ntx = n) ->
  let '(ac', cached', added') :=
    addBatchLoop Better nonces nonce2TXs seed ac cached balance added in
  exists new,
    txsByNonce ac' = txsByNonce ac ++ new
    /\ Forall (fun c => exists ntxs, nonce2TXs !! nonce c = Some ntxs
                                     /\ best c ∈ ntxs
                                     /\ nonce c ∈ nonces) new
    /\ (added' <= added + length nonces)%nat
    /\ (added' = (added + length nonces)%nat ->
        Forall (fun n => n ∈ nonce <$> new) nonces).
Proof.
  intros Hsorted Hbelow Hkeys.
  revert ac cached balance added Hbelow.
  induction nonces as [|n rest IH]; intros ac cached balance added Hbelow; simpl.
  - exists []. rewrite app_nil_r. repeat split; try constructor. lia.
  - apply StronglySorted_cons in Hsorted. destruct Hsorted as [Hn Hsorted].
    specialize (IH Hsorted).
    inversion Hbelow as [|? ? Hbn Hbrest]; subst.
    assert (Hweaken : forall new' n0 rest0,
              Forall (fun c => exists ntxs, nonce2TXs !! nonce c = Some ntxs
                                 /\ best c ∈ ntxs /\ nonce c ∈ rest0) new' ->
              Forall (fun c => exists ntxs, nonce2TXs !! nonce c = Some ntxs
                                 /\ best c ∈ ntxs /\ nonce c ∈ n0 :: rest0) new').
    { intros new' n0 rest0 H. eapply Forall_impl; [exact H|]. simpl.
      intros c (ntxs & H1 & H2 & H3). exists ntxs.
      split; [exact H1|]. split; [exact H2|]. apply elem_of_cons. right. exact H3. }
    destruct (findBest Better (default [] (nonce2TXs !! n)) balance seed) as [b|] eqn:Eb.
    + assert (Hbucket : exists ntxs, nonce2TXs !! n = Some ntxs /\ b ∈ ntxs).
      { apply findBest_elem_of in Eb. destruct (nonce2TXs !! n) as [ntxs|].
        - exists ntxs. split; [reflexivity | exact Eb].
        - inversion Eb. }
      destruct Hbucket as (ntxs & Hntxs & Hbin).
      assert (Hnb : Nonce b = n) by (eapply Hkeys; eauto).
      rewrite accept_append by (rewrite Hnb; exact Hbn).
      unfold appended.
      destruct (Nat.leb_spec maxTXsPerAcct (length (txsByNonce ac))) as [Hfull|Hroom].
      { exists []. rewrite app_nil_r. destruct ac; simpl.
        split; [reflexivity|]. split; [constructor|]. split; [lia|]. lia. }
      destruct (Z.ltb_spec (availBalance ac) (MaxSpending b)) as [Hpoor|Hrich].
      { specialize (IH ac cached balance added Hbrest).
        destruct (addBatchLoop _ rest _ _ ac cached balance added) as [[ac' cached'] added'].
        destruct IH as (new & H1 & H2 & H3 & H4).
        exists new. split; [exact H1|]. split; [apply Hweaken; exact H2|].
        split; [lia|]. lia. }
      set (cand := mkCandidate b (availBalance ac - MaxSpending b)).
      set (ac1 := set_txsByNonce (txsByNonce ac ++ [cand]) ac).
      assert (Hbelow1 : Forall (fun n0 => Forall (fun c => nonce c < n0) (txsByNonce ac1)) rest).
      { apply Forall_forall. intros n0 Hn0. unfold ac1. simpl.
        apply Forall_app. split.
        - rewrite Forall_forall in Hbrest. apply Hbrest. exact Hn0.
        - constructor; [|constructor]. unfold nonce, cand. simpl. rewrite Hnb.
          rewrite Forall_forall in Hn. apply Hn. exact Hn0. }
      specialize (IH ac1 (<[ID b:=b]> cached) (availBalance ac1) (S added) Hbelow1).
      destruct (addBatchLoop _ rest _ _ ac1 _ _ _) as [[ac' cached'] added'].
      destruct IH as (new & H1 & H2 & H3 & H4).
      exists (cand :: new). split.
      { rewrite H1. unfold ac1. simpl. rewrite <- app_assoc. reflexivity. }
      split.
      { constructor.
        - exists ntxs. unfold nonce, cand. simpl. rewrite Hnb.
          split; [exact Hntxs|]. split; [exact Hbin|].
          apply elem_of_cons. left. reflexivity.
        - apply Hweaken. exact H2. }
      split; [lia|].
      intros Hall. constructor.
      * simpl. apply elem_of_cons. left. symmetry. exact Hnb.
      * eapply Forall_impl; [apply H4; lia|]. simpl.
        intros n0 Hn0. apply elem_of_cons. right. exact Hn0.
    + specialize (IH ac cached balance added Hbrest).
      destruct (addBatchLoop _ rest _ _ ac cached balance added) as [[ac' cached'] added'].
      destruct IH as (new & H1 & H2 & H3 & H4).
      exists new. split; [exact H1|]. split; [apply Hweaken; exact H2|].
      split; [lia|]. lia.
Qed.

Lemma StronglySorted_le_lt (l : list Z) :
  StronglySorted Z.le l -> NoDup l -> StronglySorted Z.lt l.
Proof.
  induction 1 as [|x l Hs IH Hx]; intros Hnd; [constructor|].
  apply NoDup_cons in Hnd. destruct Hnd as [Hnx Hnd].
  constructor; [auto|].
  apply Forall_forall. intros y Hy.
  rewrite Forall_forall in Hx. specialize (Hx y Hy).
  assert (x <> y) by (intros ->; contradiction). lia.
Qed.

Lemma sortedNonce_elem_of (nonce2TXs : gmap Z (list NanoTX)) (next n : Z) :
  n ∈ sortedNonce nonce2TXs next <-> next <= n /\ is_Some (nonce2TXs !! n).
Proof.
  unfold sortedNonce. rewrite merge_sort_Permutation.
  rewrite list_elem_of_filter, list_elem_of_fmap.
  split.
  - intros (Hle & [k v] & -> & Hin). split; [exact Hle|].
    apply elem_of_map_to_list in Hin. exists v. exact Hin.
  - intros (Hle & v & Hv). split; [exact Hle|].
    exists (n, v). split; [reflexivity|]. apply elem_of_map_to_list. exact Hv.
Qed.

Lemma sortedNonce_sorted (nonce2TXs : gmap Z (list NanoTX)) (next : Z) :
  StronglySorted Z.lt (sortedNonce nonce2TXs next).
Proof.
  apply StronglySorted_le_lt.
  - unfold sortedNonce. apply StronglySorted_merge_sort; apply _.
  - unfold sortedNonce. rewrite merge_sort_Permutation.
    apply NoDup_filter. apply NoDup_fst_map_to_list.
Qed.

Lemma addBatch_appended (ac : accountCache) (cached : gmap Z NanoTX)
    (nonce2TXs : gmap Z (list NanoTX)) (seed : bytes) :
  Forall (fun c => nonce c < nextNonce ac) (txsByNonce ac) ->
  (forall n ntxs ntx, nonce2TXs !! n = Some ntxs -> ntx ∈ ntxs -> Nonce ntx = n) ->
  let ac' := (addBatch Better ac cached nonce2TXs seed).1.1 in
  exists new,
    txsByNonce ac' = txsByNonce ac ++ new
    /\ Forall (fun c => nextNonce ac <= nonce c
                        /\ exists ntxs, nonce2TXs !! nonce c = Some ntxs
                                        /\ best c ∈ ntxs) new
    /\ (moreInDB ac' = false ->
        forall n, is_Some (nonce2TXs !! n) -> nextNonce ac <= n ->
                  n ∈ nonce <$> new).
Proof.
  intros Hbelow Hkeys. unfold addBatch.
  pose proof (addBatchLoop_spec (sortedNonce nonce2TXs (nextNonce ac)) nonce2TXs
                seed ac cached (availBalance ac) 0
                (sortedNonce_sorted _ _)) as H.
  destruct (addBatchLoop _ _ _ _ ac cached _ 0) as [[ac' cached'] added'].
  destruct H as (new & H1 & H2 & H3 & H4).
  { apply Forall_forall. intros n Hn. apply sortedNonce_elem_of in Hn.
    eapply Forall_impl; [exact Hbelow|]. simpl. intros c Hc. lia. }
  { exact Hkeys. }
  simpl. exists new. split; [exact H1|]. split.
  - eapply Forall_impl; [exact H2|]. simpl.
    intros c (ntxs & Hn & Hb & Hin). apply sortedNonce_elem_of in Hin.
    split; [tauto|]. exists ntxs. auto.
  - intros Hmore n Hsome Hle.
    apply Nat.ltb_ge in Hmore.
    assert (Hall : added' = (0 + length (sortedNonce nonce2TXs (nextNonce ac)))%nat) by lia.
    specialize (H4 Hall). rewrite Forall_forall in H4. apply H4.
    apply sortedNonce_elem_of. auto.
Qed.

(** X15.  [addBatch] only appends: a batch never replaces or removes a candidate
    of the account, what it adds comes from the group of the same nonce of the
    batch, and it leaves moreInDB unset only when every nonce of the batch from
    nextNonce on has a candidate. *)
Theorem addBatch_appends (ac : accountCache) (cached : gmap Z NanoTX)
    (nonce2TXs : gmap Z (list NanoTX)) (seed : bytes) :
  Forall (fun c => nonce c < nextNonce ac) (txsByNonce ac) ->
  (forall n ntxs ntx, nonce2TXs !! n = Some ntxs -> ntx ∈ ntxs -> Nonce ntx = n) ->
  let ac' := (addBatch Better ac cached nonce2TXs seed).1.1 in
  exists new,
    txsByNonce ac' = txsByNonce ac ++ new
    /\ Forall (fun c => nextNonce ac <= nonce c
                        /\ exists ntxs, nonce2TXs !! nonce c = Some ntxs
                                        /\ best c ∈ ntxs) new
    /\ (moreInDB ac' = false ->
        forall n, is_Some (nonce2TXs !! n) -> nextNonce ac <= n ->
                  n ∈ nonce <$> new).
Proof. apply addBatch_appended. Qed.

End AddBatchFacts.

Section CleanupFacts.
Import txs.

Lemma cleanupAccounts_lookup (accounts : list Address) (c : Cache) (a : Address) :
  cachedTXs (cleanupAccounts accounts c) = cachedTXs c
  /\ pending (cleanupAccounts accounts c) !! a
     = match pending c !! a with
       | Some ac =>
           if bool_decide (a ∈ accounts) && shouldEvict ac then None else Some ac
       | None => None
       end.
Proof.
  revert c. induction accounts as [|x accounts IH]; intros c; simpl.
  - split; [reflexivity|]. destruct (pending c !! a); reflexivity.
  - assert (Hstep : forall c0, pending c0 !! a = pending c !! a ->
              cachedTXs c0 = cachedTXs c -> a <> x ->
              cachedTXs (cleanupAccounts accounts c0) = cachedTXs c
              /\ pending (cleanupAccounts accounts c0) !! a
                 = match pending c !! a with
                   | Some ac =>
                       if bool_decide (a ∈ x :: accounts) && shouldEvict ac
                       then None else Some ac
                   | None => None
                   end).
    { intros c0 Hp Hc Hne. destruct (IH c0) as [IH1 IH2].
      rewrite IH1, IH2, Hp. split; [exact Hc|].
      destruct (pending c !! a) as [ac|]; [|reflexivity].
      assert (bool_decide (a ∈ x :: accounts) = bool_decide (a ∈ accounts)) as ->;
        [|reflexivity].
      apply bool_decide_ext. rewrite elem_of_cons. tauto. }
    destruct (decide (a = x)) as [->|Hne].
    + destruct (pending c !! x) as [acct|] eqn:Ex.
      * destruct (shouldEvict acct) eqn:Ev.
        -- destruct (IH (set_pending (delete x (pending c)) c)) as [IH1 IH2].
           rewrite IH1, IH2. simpl. rewrite lookup_delete_eq.
           split; [reflexivity|].
           rewrite bool_decide_eq_true_2 by (apply elem_of_cons; left; reflexivity).
           reflexivity.
        -- destruct (IH c) as [IH1 IH2]. rewrite IH1, IH2, Ex, Ev.
           split; [reflexivity|]. rewrite !andb_false_r. reflexivity.
      * destruct (IH c) as [IH1 IH2]. rewrite IH1, IH2, Ex. auto.
    + destruct (pending c !! x) as [acct|] eqn:Ex.
      * destruct (shouldEvict acct).
        -- apply Hstep; [simpl; apply lookup_delete_ne; congruence | reflexivity | exact Hne].
        -- apply Hstep; [reflexivity | reflexivity | exact Hne].
      * apply Hstep; [reflexivity | reflexivity | exact Hne].
Qed.

(** X16.  [cleanupAccounts] removes exactly the listed accounts that have no
    candidate and nothing more in the database, and never touches the shared
    map. *)
Theorem cleanupAccounts_spec (accounts : list Address) (c : Cache) (a : Address) :
  cachedTXs (cleanupAccounts accounts c) = cachedTXs c
  /\ pending (cleanupAccounts accounts c) !! a
     = match pending c !! a with
       | Some ac =>
           if bool_decide (a ∈ accounts) && shouldEvict ac then None else Some ac
       | None => None
       end.
Proof. apply cleanupAccounts_lookup. Qed.

End CleanupFacts.

Section CacheFacts.
Import txs.
Variable Better : NanoTX -> NanoTX -> bytes -> bool.
Variable NewNanoTX : MeshTransaction -> NanoTX.
Variable stateF : Address -> Z * Z.

Lemma createAcct_lookup (c : Cache) (a : Address) :
  pending (createAcctIfNotPresent stateF a c) !! a = Some (accountFor stateF c a)
  /\ cachedTXs (createAcctIfNotPresent stateF a c) = cachedTXs c
  /\ <[a := accountFor stateF c a]> (pending c)
     = pending (createAcctIfNotPresent stateF a c).
Proof.
  unfold createAcctIfNotPresent, accountFor.
  destruct (pending c !! a) as [ac|] eqn:E.
  - rewrite E. split; [reflexivity|]. split; [reflexivity|].
    apply insert_id. exact E.
  - destruct (stateF a) as [n b]. simpl. rewrite lookup_insert_eq. auto.
Qed.

Lemma Cache_eq (c1 c2 : Cache) :
  pending c1 = pending c2 -> cachedTXs c1 = cachedTXs c2 -> c1 = c2.
Proof. destruct c1, c2; simpl; intros -> ->; reflexivity. Qed.

Lemma cleanup_restored (c : Cache) (a : Address) :
  cleanupAccounts [a]
    (mkCache (<[a := accountFor stateF c a]> (pending c)) (cachedTXs c))
  = cleanupAccounts [a] c.
Proof.
  simpl. rewrite lookup_insert_eq.
  unfold accountFor. destruct (pending c !! a) as [ac|] eqn:E.
  - destruct (shouldEvict ac).
    + apply Cache_eq; simpl; [|reflexivity]. apply delete_insert_eq.
    + apply Cache_eq; simpl; [|reflexivity]. apply insert_id. exact E.
  - simpl. apply Cache_eq; simpl; [|reflexivity].
    rewrite delete_insert_eq. apply delete_id. exact E.
Qed.

(** Add, with the account it works on made explicit *)
Lemma Add_eq (dbAdd : Transaction -> Time -> option error) (c : Cache)
    (tx : Transaction) (received : Time) (ac' : accountCache)
    (cached' : gmap Z NanoTX) (err : option error) :
  add Better NewNanoTX (accountFor stateF c (txPrincipal tx)) (cachedTXs c)
      tx received = (ac', cached', err) ->
  Add Better NewNanoTX stateF dbAdd c tx received
  = (cleanupAccounts [txPrincipal tx]
       (mkCache (<[txPrincipal tx := ac']> (pending c)) cached'),
     acceptable err,
     if acceptable err then dbAdd tx received else err).
Proof.
  intros Hadd. unfold Add.
  destruct (createAcct_lookup c (txPrincipal tx)) as (H1 & H2 & H3).
  rewrite H1, H2, Hadd, <- H3, insert_insert_eq.
  destruct (acceptable err); reflexivity.
Qed.

(** X17.  A transaction that [Add] does not hand to the database leaves no trace
    in the cache. *)
Theorem Add_rejected_leaves_no_trace (dbAdd : Transaction -> Time -> option error)
    (c : Cache) (tx : Transaction) (received : Time) (c' : Cache)
    (err : option error) :
  Add Better NewNanoTX stateF dbAdd c tx received = (c', false, err) ->
  (err = Some errBadNonce \/ err = Some errInsufficientBalance)
  /\ c' = cleanupAccounts [txPrincipal tx] c
  /\ (pending c !! txPrincipal tx = None -> c' = c).
Proof.
  intros HAdd.
  set (ac := accountFor stateF c (txPrincipal tx)).
  assert (Hnone : pending c !! txPrincipal tx = None ->
                  cleanupAccounts [txPrincipal tx] c = c).
  { intros E. simpl. rewrite E. reflexivity. }
  assert (Hadd : (exists e,
             add Better NewNanoTX ac (cachedTXs c) tx received
             = (ac, cachedTXs c, Some e)
             /\ (e = errBadNonce \/ e = errInsufficientBalance))
          \/ (exists ac' cached' e,
             add Better NewNanoTX ac (cachedTXs c) tx received = (ac', cached', e)
             /\ acceptable e = true)).
  { unfold add.
    destruct (Z.ltb_spec (txNonce tx) (startNonce ac)) as [Hstale|Hfresh].
    { left. exists errBadNonce. auto. }
    set (ntx := NewNanoTX (mkMeshTransaction tx received 0 EmptyBlockID)).
    destruct (accept_cases Better ac (cachedTXs c) ntx [])
      as [[_ E]|(_ & lo & same & hi & _ & _ & _ & _ & Hcase)].
    { right. rewrite E. do 3 eexists. split; reflexivity. }
    destruct Hcase as [[_ E]|[(_ & p & _ & _ & E)|(_ & _ & E)]]; rewrite E.
    - left. exists errInsufficientBalance. auto.
    - right. do 3 eexists. split; reflexivity.
    - destruct (accepted_inv ac (cachedTXs c) ntx lo same hi)
        as (l' & c0 & m' & _ & E').
      rewrite E'. right. do 3 eexists. split; reflexivity. }
  destruct Hadd as [(e & Hadd & He)|(ac' & cached' & e & Hadd & He)].
  - rewrite (Add_eq dbAdd c tx received _ _ _ Hadd) in HAdd.
    unfold ac in HAdd. rewrite cleanup_restored in HAdd.
    assert (Hacc : acceptable (Some e) = false) by (destruct He; subst e; reflexivity).
    rewrite Hacc in HAdd. injection HAdd as <- <-.
    split; [destruct He; subst e; auto|]. split; [reflexivity | exact Hnone].
  - rewrite (Add_eq dbAdd c tx received _ _ _ Hadd), He in HAdd. discriminate.
Qed.

(** X18.  A transaction for an account that already has maxTXsPerAcct
    candidates is handed to the database without being cached, and the account
    is marked as having more in the database. *)
Theorem Add_to_full_account (dbAdd : Transaction -> Time -> option error)
    (c : Cache) (tx : Transaction) (received : Time) (ac : accountCache) :
  pending c !! txPrincipal tx = Some ac ->
  (maxTXsPerAcct <= length (txsByNonce ac))%nat ->
  startNonce ac <= txNonce tx ->
  let c' := mkCache (<[txPrincipal tx := set_moreInDB true ac]> (pending c))
                    (cachedTXs c) in
  Add Better NewNanoTX stateF dbAdd c tx received
  = (c', true, dbAdd tx received)
  /\ MoreInDB c' (txPrincipal tx) = true.
Proof.
  intros Hac Hfull Hnonce. simpl.
  split; [| unfold MoreInDB; simpl; rewrite lookup_insert_eq; reflexivity].
  assert (Hadd : add Better NewNanoTX (accountFor stateF c (txPrincipal tx))
                   (cachedTXs c) tx received
                 = (set_moreInDB true ac, cachedTXs c,
                    Some (errTooManyNonce (length (txsByNonce ac))))).
  { unfold accountFor. rewrite Hac. unfold add.
    destruct (Z.ltb_spec (txNonce tx) (startNonce ac)) as [|_]; [lia|].
    unfold accept, precheck.
    destruct (Nat.leb_spec maxTXsPerAcct (length (txsByNonce ac))); [reflexivity | lia]. }
  rewrite (Add_eq dbAdd c tx received _ _ _ Hadd).
  simpl. rewrite lookup_insert_eq.
  unfold shouldEvict. simpl. rewrite andb_false_r. reflexivity.
Qed.

Lemma GetProjection_accountFor (c : Cache) (a : Address) :
  GetProjection stateF c a
  = (nextNonce (accountFor stateF c a), availBalance (accountFor stateF c a)).
Proof.
  unfold GetProjection, accountFor. destruct (pending c !! a); [reflexivity|].
  destruct (stateF a); reflexivity.
Qed.

(** X19.  After [Add] has cached a transaction whose nonce is above the cached
    ones, the projection of the account is the next nonce and the balance less
    the transaction's maximum spending, and Get returns the transaction;
    this holds whatever the database write returns. *)
Theorem Add_then_GetProjection (dbAdd : Transaction -> Time -> option error)
    (c : Cache) (tx : Transaction) (received : Time) :
  let p := txPrincipal tx in
  let ac := accountFor stateF c p in
  let ntx := NewNanoTX (mkMeshTransaction tx received 0 EmptyBlockID) in
  Nonce ntx = txNonce tx ->
  startNonce ac <= txNonce tx ->
  Forall (fun cand => nonce cand < txNonce tx) (txsByNonce ac) ->
  (length (txsByNonce ac) < maxTXsPerAcct)%nat ->
  MaxSpending ntx <= (GetProjection stateF c p).2 ->
  let r := Add Better NewNanoTX stateF dbAdd c tx received in
  r.1.2 = true
  /\ r.2 = dbAdd tx received
  /\ GetProjection stateF r.1.1 p
     = (uint64 (txNonce tx + 1),
        (GetProjection stateF c p).2 - MaxSpending ntx)
  /\ Get r.1.1 (ID ntx) = Some ntx
  /\ has r.1.1 (ID ntx) = true.
Proof.
  intros p ac ntx Hn Hstart Hbelow Hroom Hrich.
  rewrite GetProjection_accountFor in *. fold ac in Hrich |- *. simpl in Hrich.
  assert (Hadd : add Better NewNanoTX ac (cachedTXs c) tx received
                 = (set_txsByNonce
                      (txsByNonce ac
                       ++ [mkCandidate ntx (availBalance ac - MaxSpending ntx)]) ac,
                    <[ID ntx := ntx]> (cachedTXs c), None)).
  { unfold add.
    destruct (Z.ltb_spec (txNonce tx) (startNonce ac)) as [|_]; [lia|].
    fold ntx. rewrite accept_append by (rewrite Hn; exact Hbelow).
    unfold appended.
    destruct (Nat.leb_spec maxTXsPerAcct (length (txsByNonce ac))) as [|_]; [lia|].
    destruct (Z.ltb_spec (availBalance ac) (MaxSpending ntx)) as [|_]; [lia|].
    reflexivity. }
  unfold ac, p in Hadd.
  rewrite (Add_eq dbAdd c tx received _ _ _ Hadd).
  fold p. fold ac.
  assert (Hkeep : shouldEvict
            (set_txsByNonce
               (txsByNonce ac
                ++ [mkCandidate ntx (availBalance ac - MaxSpending ntx)]) ac)
            = false).
  { unfold shouldEvict. simpl. rewrite length_app. simpl.
    replace (length (txsByNonce ac) + 1 =? 0)%nat with false; [reflexivity|].
    symmetry. apply Nat.eqb_neq. lia. }
  simpl. rewrite lookup_insert_eq, Hkeep. simpl.
  split; [reflexivity|]. split; [reflexivity|]. split.
  - unfold GetProjection at 1. simpl. rewrite lookup_insert_eq.
    unfold nextNonce, availBalance. simpl. rewrite last_snoc.
    unfold nonce. simpl. rewrite Hn. reflexivity.
  - unfold has, Get. simpl. rewrite lookup_insert_eq. auto.
Qed.

Lemma groupStep_group (g : gmap Z (gmap Z (list NanoTX))) (x : MeshTransaction)
    (p : Address) (n : Z) :
  group (groupStep NewNanoTX g x) p n
  = if ofGroup p n x && (length (group g p n) <? maxTXsPerNonce)%nat
    then group g p n ++ [NewNanoTX x]
    else group g p n.
Proof.
  unfold groupStep, ofGroup, group.
  set (p0 := txPrincipal (mtxTransaction x)).
  set (n0 := txNonce (mtxTransaction x)).
  destruct (Z.eqb_spec p0 p) as [<-|Hp].
  - destruct (Z.eqb_spec n0 n) as [<-|Hn]; simpl.
    + destruct (length (default [] (default ∅ (g !! p0) !! n0)) <? maxTXsPerNonce)%nat;
        rewrite lookup_insert_eq; simpl; rewrite lookup_insert_eq; reflexivity.
    + destruct (length (default [] (default ∅ (g !! p0) !! n0)) <? maxTXsPerNonce)%nat;
        rewrite lookup_insert_eq; simpl;
        rewrite lookup_insert_ne by exact Hn; reflexivity.
  - simpl.
    destruct (length (default [] (default ∅ (g !! p0) !! n0)) <? maxTXsPerNonce)%nat;
      rewrite lookup_insert_ne by exact Hp; reflexivity.
Qed.

Lemma group_groupTXsByPrincipal (mtxs : list MeshTransaction) (p : Address)
    (n : Z) :
  group (groupTXsByPrincipal NewNanoTX mtxs) p n
  = take maxTXsPerNonce
      (NewNanoTX <$> filter (fun mtx => ofGroup p n mtx = true) mtxs).
Proof.
  unfold groupTXsByPrincipal.
  induction mtxs as [|x mtxs IH] using rev_ind.
  - reflexivity.
  - rewrite fold_left_app. simpl. rewrite groupStep_group, IH.
    rewrite filter_app, fmap_app.
    set (F := NewNanoTX <$> filter (fun mtx => ofGroup p n mtx = true) mtxs).
    destruct (ofGroup p n x) eqn:Ex; simpl.
    + rewrite filter_cons_True by exact Ex. rewrite filter_nil. simpl.
      destruct (Nat.ltb_spec (length (take maxTXsPerNonce F)) maxTXsPerNonce) as [Hlt|Hge].
      * rewrite length_take in Hlt.
        rewrite (take_ge F) by lia.
        rewrite take_ge; [reflexivity|]. rewrite length_app. simpl. lia.
      * rewrite length_take in Hge.
        rewrite take_app_le by lia. reflexivity.
    + rewrite filter_cons_False by (rewrite Ex; discriminate).
      rewrite filter_nil. simpl. rewrite app_nil_r. reflexivity.
Qed.

(** X20.  An account is in the result of [GetMempool] exactly when one of its
    candidates has no layer, and its entry is then what getMempool returns
    for it. *)
Theorem GetMempool_lists_unpacked (c : Cache) (a : Address) :
  (is_Some (GetMempool c !! a) <->
   exists ac cand, pending c !! a = Some ac
                   /\ cand ∈ txsByNonce ac /\ layer cand = 0)
  /\ (forall l, GetMempool c !! a = Some l ->
         exists ac, pending c !! a = Some ac /\ l = getMempool ac).
Proof.
  unfold GetMempool.
  assert (Hnonempty : forall ac,
            getMempool ac <> []
            <-> exists cand, cand ∈ txsByNonce ac /\ layer cand = 0).
  { intros ac.
    destruct (getMempool_from_first ac) as (packed & rest & Hl & Hp & Hr & ->).
    rewrite Hl. destruct rest as [| cand rest].
    - rewrite app_nil_r. split; [intros H; contradiction H; reflexivity |].
      intros (cand & Hin & Hz). rewrite Forall_forall in Hp.
      exfalso. exact (Hp cand Hin Hz).
    - split; [| discriminate]. intros _. exists cand.
      split; [| exact Hr]. apply elem_of_app. right.
      apply elem_of_cons. left. reflexivity. }
  split.
  - rewrite lookup_omap. destruct (pending c !! a) as [ac |]; simpl.
    + specialize (Hnonempty ac). split.
      * intros Hsome. exists ac.
        destruct (getMempool ac) as [| x l] eqn:E;
          [destruct Hsome; discriminate |].
        destruct (proj1 Hnonempty) as (cand & Hc); [discriminate |].
        exists cand. auto.
      * intros (ac' & cand & [= <-] & Hc).
        destruct (getMempool ac) as [| x l] eqn:E; [| eauto].
        exfalso. apply (proj2 Hnonempty); eauto.
    + split; [intros [x Hx]; discriminate |].
      intros (ac & cand & Habs & _). discriminate.
  - intros l. rewrite lookup_omap.
    destruct (pending c !! a) as [ac |]; simpl; [| discriminate].
    destruct (getMempool ac) as [| x l'] eqn:E; [discriminate |].
    intros [= <-]. exists ac. auto.
Qed.

(** X21.  [groupTXsByPrincipal] keeps, for every principal and nonce, the first
    maxTXsPerNonce transactions of that principal and nonce, in the order of
    the input. *)
Theorem groupTXsByPrincipal_groups (mtxs : list MeshTransaction) (p : Address)
    (n : Z) :
  group (groupTXsByPrincipal NewNanoTX mtxs) p n
  = take maxTXsPerNonce
      (NewNanoTX <$> filter (fun mtx => ofGroup p n mtx = true) mtxs).
Proof. apply group_groupTXsByPrincipal. Qed.

End CacheFacts.

Section BuildFacts.
Import txs.
Variable Better : NanoTX -> NanoTX -> bytes -> bool.
Variable NewNanoTX : MeshTransaction -> NanoTX.
Variable stateF : Address -> Z * Z.

Lemma accept_start (ac : accountCache) (cached : gmap Z NanoTX) (ntx : NanoTX)
    (seed : bytes) :
  let ac' := (accept Better ac cached ntx seed).1.1 in
  addr ac' = addr ac /\ startNonce ac' = startNonce ac
  /\ startBalance ac' = startBalance ac.
Proof.
  destruct (accept_cases Better ac cached ntx seed)
    as [[_ ->]|(_ & lo & same & hi & _ & _ & _ & _ & Hcase)].
  { destruct ac; simpl; auto. }
  destruct Hcase as [[_ ->]|[(_ & p & _ & _ & ->)|(_ & _ & ->)]];
    [simpl; auto | simpl; auto |].
  destruct (accepted_inv ac cached ntx lo same hi) as (l' & c' & m' & _ & ->).
  simpl. auto.
Qed.

Lemma accept_wellFormed (ac : accountCache) (cached : gmap Z NanoTX)
    (ntx : NanoTX) (seed : bytes) :
  wellFormed ac -> 0 <= MaxSpending ntx ->
  wellFormed (accept Better ac cached ntx seed).1.1.
Proof.
  intros (H1 & H2 & H3 & H4) Hms.
  destruct (accept_start ac cached ntx seed) as (_ & _ & Hs).
  destruct (accept_chained Better ac cached ntx seed H2 H4 Hms) as [_ Hc].
  unfold wellFormed. rewrite Hs.
  split; [apply accept_increasing; exact H1 |].
  split; [exact Hc |].
  split; [apply accept_length; exact H3 | exact H4].
Qed.

Lemma addBatchLoop_wellFormed (nonces : list Z)
    (nonce2TXs : gmap Z (list NanoTX)) (seed : bytes) (ac : accountCache)
    (cached : gmap Z NanoTX) (balance : Z) (added : nat) :
  (forall n ntxs ntx, nonce2TXs !! n = Some ntxs -> ntx ∈ ntxs ->
                      0 <= MaxSpending ntx) ->
  wellFormed ac ->
  let ac' := (addBatchLoop Better nonces nonce2TXs seed ac cached balance
                           added).1.1 in
  wellFormed ac' /\ addr ac' = addr ac /\ startNonce ac' = startNonce ac
  /\ startBalance ac' = startBalance ac.
Proof.
  intros Hms. revert ac cached balance added.
  induction nonces as [|n rest IH]; intros ac cached balance added Hwf; simpl.
  - auto.
  - destruct (findBest Better (default [] (nonce2TXs !! n)) balance seed)
      as [b|] eqn:Eb; [| apply IH; exact Hwf].
    assert (Hb : 0 <= MaxSpending b).
    { apply findBest_elem_of in Eb. destruct (nonce2TXs !! n) as [ntxs|] eqn:En.
      - eapply Hms; eauto.
      - inversion Eb. }
    pose proof (accept_wellFormed ac cached b seed Hwf Hb) as Hwf'.
    pose proof (accept_start ac cached b seed) as Hstart.
    destruct (accept Better ac cached b seed) as [[ac1 cached1] err].
    simpl in Hwf', Hstart. destruct Hstart as (S1 & S2 & S3).
    destruct err as [e|].
    + destruct e; simpl; try (rewrite <- S1, <- S2, <- S3; apply IH; exact Hwf').
      auto.
    + rewrite <- S1, <- S2, <- S3. apply IH. exact Hwf'.
Qed.

Lemma addBatch_wellFormed (ac : accountCache) (cached : gmap Z NanoTX)
    (nonce2TXs : gmap Z (list NanoTX)) (seed : bytes) :
  (forall n ntxs ntx, nonce2TXs !! n = Some ntxs -> ntx ∈ ntxs ->
                      0 <= MaxSpending ntx) ->
  wellFormed ac ->
  let r := addBatch Better ac cached nonce2TXs seed in
  wellFormed r.1.1 /\ addr r.1.1 = addr ac /\ startNonce r.1.1 = startNonce ac
  /\ startBalance r.1.1 = startBalance ac /\ r.2 = None.
Proof.
  intros Hms Hwf. unfold addBatch.
  pose proof (addBatchLoop_wellFormed (sortedNonce nonce2TXs (nextNonce ac))
                nonce2TXs seed ac cached (availBalance ac) 0 Hms Hwf) as H.
  destruct (addBatchLoop _ _ _ _ ac cached _ 0) as [[ac' cached'] added'].
  simpl in *. destruct H as (H1 & H2 & H3 & H4).
  destruct ac'; simpl in *. auto.
Qed.

Lemma group_elem_of (mtxs : list MeshTransaction) (a : Address) (n : Z)
    (ntxs : list NanoTX) (ntx : NanoTX) :
  default ∅ (groupTXsByPrincipal NewNanoTX mtxs !! a) !! n = Some ntxs ->
  ntx ∈ ntxs ->
  exists mtx, mtx ∈ mtxs /\ txPrincipal (mtxTransaction mtx) = a
              /\ txNonce (mtxTransaction mtx) = n /\ ntx = NewNanoTX mtx.
Proof.
  intros Hn Hin.
  assert (Hg : ntx ∈ group (groupTXsByPrincipal NewNanoTX mtxs) a n).
  { unfold group. rewrite Hn. exact Hin. }
  rewrite group_groupTXsByPrincipal in Hg.
  apply elem_of_take in Hg. destruct Hg as (i & Hi & _).
  apply list_lookup_fmap_Some in Hi. destruct Hi as (mtx & -> & Hi).
  apply list_elem_of_lookup_2 in Hi. apply list_elem_of_filter in Hi.
  destruct Hi as [Hof Hi]. unfold ofGroup in Hof.
  apply andb_true_iff in Hof. destruct Hof as [Hp Hno].
  apply Z.eqb_eq in Hp. apply Z.eqb_eq in Hno.
  exists mtx. auto.
Qed.

(** What holds of every account while [BuildFromTXs] builds them. *)
Lemma buildAccounts_spec (rst : list MeshTransaction) (seed : bytes)
    (order : list Address) (c : Cache)
    (P := fun a ac =>
            wellFormed ac /\ addr ac = a
            /\ (startNonce ac, startBalance ac) = stateF a
            /\ Forall (fun cand => fromTXs NewNanoTX rst a (best cand))
                      (txsByNonce ac)) :
  (forall mtx, 0 <= MaxSpending (NewNanoTX mtx)) ->
  (forall mtx, Nonce (NewNanoTX mtx) = txNonce (mtxTransaction mtx)) ->
  (forall a, in_uint64 (stateF a).2) ->
  NoDup order ->
  (forall a, a ∈ order -> pending c !! a = None) ->
  (forall a ac, pending c !! a = Some ac -> P a ac) ->
  let r := buildAccounts Better stateF
             (groupTXsByPrincipal NewNanoTX rst) seed order c in
  r.2 = None
  /\ (forall a ac, pending r.1 !! a = Some ac ->
        P a ac /\ (a ∈ order \/ pending c !! a = Some ac)).
Proof.
  intros Hms Hnonce Hstate. revert c.
  induction order as [|a order IH]; intros c Hnd Habsent Hinv; simpl.
  - split; [reflexivity |]. intros a ac Hac. split; [apply Hinv; exact Hac | auto].
  - apply NoDup_cons in Hnd. destruct Hnd as [Ha Hnd].
    assert (Hnone : pending c !! a = None)
      by (apply Habsent; apply elem_of_cons; left; reflexivity).
    destruct (createAcct_lookup stateF c a) as (H1 & H2 & H3).
    rewrite H1, H2.
    assert (Hfresh : accountFor stateF c a
                     = mkAccountCache a [] (stateF a).1 (stateF a).2 false).
    { unfold accountFor. rewrite Hnone. reflexivity. }
    rewrite Hfresh in *.
    set (fresh := mkAccountCache a [] (stateF a).1 (stateF a).2 false) in *.
    set (nonce2TXs := default ∅ (groupTXsByPrincipal NewNanoTX rst !! a)).
    assert (Hkeys : forall n ntxs ntx, nonce2TXs !! n = Some ntxs -> ntx ∈ ntxs ->
                      Nonce ntx = n /\ 0 <= MaxSpending ntx
                      /\ fromTXs NewNanoTX rst a ntx).
    { intros n ntxs ntx Hn Hin.
      destruct (group_elem_of rst a n ntxs ntx Hn Hin)
        as (mtx & Hm & Hp & Hno & ->).
      split; [rewrite Hnonce; exact Hno |]. split; [apply Hms |].
      exists mtx. auto. }
    assert (Hwf : wellFormed fresh).
    { unfold wellFormed, fresh. simpl.
      split; [constructor |]. split; [exact I |].
      split; [unfold maxTXsPerAcct; lia | apply Hstate]. }
    pose proof (addBatch_wellFormed fresh (cachedTXs c) nonce2TXs seed
                  (fun n ntxs ntx Hn Hin => proj1 (proj2 (Hkeys n ntxs ntx Hn Hin)))
                  Hwf) as Hbatch.
    pose proof (addBatch_appended Better fresh (cachedTXs c) nonce2TXs seed
                  (Forall_nil_2 _)
                  (fun n ntxs ntx Hn Hin => proj1 (Hkeys n ntxs ntx Hn Hin)))
      as Happ.
    destruct (addBatch Better fresh (cachedTXs c) nonce2TXs seed)
      as [[ac1 cached1] err].
    simpl in Hbatch, Happ.
    destruct Hbatch as (B1 & B2 & B3 & B4 & ->).
    destruct Happ as (new & Hnew & Hfrom & _).
    rewrite <- H3, insert_insert_eq.
    set (c1 := mkCache (<[a := ac1]> (pending c)) cached1).
    assert (HP1 : P a ac1).
    { unfold P. split; [exact B1 |]. split; [exact B2 |].
      split; [rewrite B3, B4; unfold fresh; simpl; destruct (stateF a); reflexivity |].
      rewrite Hnew. simpl. eapply Forall_impl; [exact Hfrom |]. simpl.
      intros cand (_ & ntxs & Hn & Hin).
      exact (proj2 (proj2 (Hkeys _ _ _ Hn Hin))). }
    destruct (IH c1 Hnd) as [IH1 IH2].
    + intros a' Ha'. unfold c1. simpl.
      rewrite lookup_insert_ne by (intros ->; contradiction).
      apply Habsent. apply elem_of_cons. right. exact Ha'.
    + intros a' ac'. unfold c1. simpl. intros Hl.
      apply lookup_insert_Some in Hl.
      destruct Hl as [[<- <-] | [_ Hl]]; [exact HP1 | apply Hinv; exact Hl].
    + split; [exact IH1 |]. intros a' ac' Hl.
      destruct (IH2 a' ac' Hl) as [HP Hor]. split; [exact HP |].
      destruct Hor as [Hin | Hc1].
      * left. apply elem_of_cons. right. exact Hin.
      * unfold c1 in Hc1. simpl in Hc1. apply lookup_insert_Some in Hc1.
        destruct Hc1 as [[<- _] | [_ Hc1]];
          [left; apply elem_of_cons; left; reflexivity | right; exact Hc1].
Qed.

(** X22.  [BuildFromTXs] never fails, and every account of the cache it builds
    is of a principal of the transactions, starts from the state of that
    principal, holds transactions of that principal only, has its nonces in
    strictly increasing order and consistent balances, at most maxTXsPerAcct
    candidates, and is not one that should be evicted. *)
Theorem BuildFromTXs_well_formed (order toCleanup : list Address) (c : Cache)
    (rst : list MeshTransaction) (seed : bytes) :
  (forall mtx, 0 <= MaxSpending (NewNanoTX mtx)) ->
  (forall mtx, Nonce (NewNanoTX mtx) = txNonce (mtxTransaction mtx)) ->
  (forall a, in_uint64 (stateF a).2) ->
  NoDup order ->
  (forall a, a ∈ order ->
     exists mtx, mtx ∈ rst /\ txPrincipal (mtxTransaction mtx) = a) ->
  (forall mtx, mtx ∈ rst -> txPrincipal (mtxTransaction mtx) ∈ toCleanup) ->
  let r := BuildFromTXs Better NewNanoTX stateF order toCleanup c rst seed in
  r.2 = None
  /\ forall a ac, pending r.1 !! a = Some ac ->
       (exists mtx, mtx ∈ rst /\ txPrincipal (mtxTransaction mtx) = a)
       /\ wellFormed ac
       /\ (startNonce ac, startBalance ac) = stateF a
       /\ Forall (fun cand => fromTXs NewNanoTX rst a (best cand))
                 (txsByNonce ac)
       /\ shouldEvict ac = false.
Proof.
  intros Hms Hnonce Hstate Hnd Horder Hclean. unfold BuildFromTXs.
  pose proof (buildAccounts_spec rst seed order (set_pending ∅ c)
                Hms Hnonce Hstate Hnd) as H.
  destruct (buildAccounts Better stateF
              (groupTXsByPrincipal NewNanoTX rst) seed order (set_pending ∅ c))
    as [c1 err].
  simpl in H. destruct H as [-> Hall].
  { intros a _. apply lookup_empty. }
  { intros a ac Hl. rewrite lookup_empty in Hl. discriminate. }
  simpl. split; [reflexivity |]. intros a ac Hl.
  destruct (cleanupAccounts_lookup toCleanup c1 a) as [_ Hlook].
  rewrite Hlook in Hl.
  destruct (pending c1 !! a) as [ac1|] eqn:E1; [| discriminate].
  destruct (Hall a ac1 E1) as [(Hwf & _ & Hst & Hfrom) Hor].
  destruct Hor as [Hin | Habs]; [| rewrite lookup_empty in Habs; discriminate].
  destruct (Horder a Hin) as (mtx & Hmtx & Hp).
  rewrite bool_decide_eq_true_2 in Hl by (rewrite <- Hp; apply Hclean; exact Hmtx).
  simpl in Hl. destruct (shouldEvict ac1) eqn:Ev; [discriminate |].
  injection Hl as <-.
  split; [exists mtx; auto | auto].
Qed.

End BuildFacts.

(** ** The theorems above on a small cache *)

Section ToyAccount.
Import txs.

Lemma account7_increasing : increasing (txsByNonce ToyTxs.account7).
Proof. unfold increasing. simpl. repeat constructor. Qed.

Lemma account7_chained :
  chained (startBalance ToyTxs.account7) (txsByNonce ToyTxs.account7).
Proof. simpl. unfold maxSpending. simpl. lia. Qed.

End ToyAccount.

Lemma accept_keeps_nonce_order_witness :
  txs.nonce <$> txs.txsByNonce ToyTxs.account7 = [5; 6; 8]
  /\ increasing
       (txs.txsByNonce
          (txs.accept ToyTxs.better ToyTxs.account7 ToyTxs.cached7
                      ToyTxs.tx4 []).1.1).
Proof.
  split; [reflexivity |].
  apply (accept_keeps_nonce_order ToyTxs.better ToyTxs.account7
           ToyTxs.cached7 ToyTxs.tx4 []).
  - exact account7_increasing.
  - simpl. unfold txs.maxTXsPerAcct. lia.
Defined.

Lemma accept_keeps_balances_witness :
  txs.availBalance
    (txs.accept ToyTxs.better ToyTxs.account7 ToyTxs.cached7 ToyTxs.tx4 []).1.1
  = 100 - spending
            (txs.txsByNonce
               (txs.accept ToyTxs.better ToyTxs.account7 ToyTxs.cached7
                           ToyTxs.tx4 []).1.1).
Proof.
  apply (accept_keeps_balances ToyTxs.better ToyTxs.account7 ToyTxs.cached7
           ToyTxs.tx4 []).
  - exact account7_chained.
  - unfold txs.in_uint64. simpl. lia.
  - simpl. lia.
Defined.

Lemma accept_spares_lower_nonces_witness :
  filter (fun c => txs.nonce c < 6)
         (txs.txsByNonce
            (txs.accept ToyTxs.better ToyTxs.account7 ToyTxs.cached7
                        ToyTxs.tx4 []).1.1)
  = filter (fun c => txs.nonce c < 6) (txs.txsByNonce ToyTxs.account7).
Proof.
  apply (accept_spares_lower_nonces ToyTxs.better ToyTxs.account7
           ToyTxs.cached7 ToyTxs.tx4 []).
  exact account7_increasing.
Defined.

Lemma accept_rejects_iff_witness :
  (txs.accept ToyTxs.better ToyTxs.account7 ToyTxs.cached7 ToyTxs.tx5 []).2
  = Some txs.errInsufficientBalance
  /\ 100 - spending (filter (fun c => txs.nonce c < 7)
                            (txs.txsByNonce ToyTxs.account7)) < 21.
Proof.
  assert (Herr : (txs.accept ToyTxs.better ToyTxs.account7 ToyTxs.cached7
                             ToyTxs.tx5 []).2
                 = Some txs.errInsufficientBalance) by reflexivity.
  split; [exact Herr |].
  destruct (accept_rejects_iff ToyTxs.better ToyTxs.account7 ToyTxs.cached7
              ToyTxs.tx5 [] account7_increasing account7_chained)
    as (_ & Hpoor & _).
  - unfold txs.in_uint64. simpl. lia.
  - exact (proj2 (proj1 Hpoor Herr)).
Defined.

Lemma accept_nil_means_witness :
  txs.accept ToyTxs.better ToyTxs.account7 ToyTxs.cached7 ToyTxs.tx4 []
  = (txs.mkAccountCache 7
       [ txs.mkCandidate (ToyTxs.tx 1 5 30 3) 70;
         txs.mkCandidate ToyTxs.tx4 10 ] 5 100 true,
     <[1 := ToyTxs.tx 1 5 30 3]> (<[4 := ToyTxs.tx4]> ∅), None)
  /\ (<[1 := ToyTxs.tx 1 5 30 3]> (<[4 := ToyTxs.tx4]> ∅) : gmap Z txs.NanoTX)
     !! 4 = Some ToyTxs.tx4.
Proof.
  assert (Hacc : txs.accept ToyTxs.better ToyTxs.account7 ToyTxs.cached7
                            ToyTxs.tx4 []
                 = (txs.mkAccountCache 7
                      [ txs.mkCandidate (ToyTxs.tx 1 5 30 3) 70;
                        txs.mkCandidate ToyTxs.tx4 10 ] 5 100 true,
                    <[1 := ToyTxs.tx 1 5 30 3]> (<[4 := ToyTxs.tx4]> ∅), None))
    by (vm_compute; reflexivity).
  split; [exact Hacc |].
  destruct (accept_nil_means ToyTxs.better _ _ _ _ _ _ Hacc)
    as [[_ Hin] | (p & _ & _ & _ & Habs & _)].
  - intros c Hc. simpl in Hc. rewrite !elem_of_cons, elem_of_nil in Hc.
    destruct Hc as [-> | [-> | [-> | []]]]; unfold txs.id; simpl; lia.
  - exact Hin.
  - discriminate Habs.
Defined.


Lemma addBatch_appends_witness :
  txs.nonce <$> txs.txsByNonce
    (txs.addBatch ToyTxs.better ToyTxs.fresh ∅ ToyTxs.batch []).1.1 = [5; 6]
  /\ exists new,
       txs.txsByNonce
         (txs.addBatch ToyTxs.better ToyTxs.fresh ∅ ToyTxs.batch []).1.1
       = txs.txsByNonce ToyTxs.fresh ++ new.
Proof.
  split; [vm_compute; reflexivity |].
  destruct (addBatch_appends ToyTxs.better ToyTxs.fresh ∅ ToyTxs.batch [])
    as (new & Hnew & _).
  - constructor.
  - intros n ntxs ntx Hn Hin. unfold ToyTxs.batch in Hn.
    rewrite !lookup_insert_Some, lookup_empty in Hn.
    destruct Hn as [[<- <-] | [_ [[<- <-] | [_ [[<- <-] | [_ Hn]]]]]];
      [| | | discriminate];
      rewrite !elem_of_cons, elem_of_nil in Hin;
      repeat (destruct Hin as [-> | Hin]; [reflexivity |]);
      destruct Hin.
  - exists new. exact Hnew.
Defined.

Lemma Add_rejected_leaves_no_trace_witness :
  txs.Add ToyTxs.better ToyTxs.newNanoTX ToyTxs.stateF ToyTxs.dbDown
          ToyTxs.cache7 ToyTxs.stale 0
  = (ToyTxs.cache7, false, Some txs.errBadNonce)
  /\ ToyTxs.cache7 = txs.cleanupAccounts [7] ToyTxs.cache7.
Proof.
  assert (HAdd : txs.Add ToyTxs.better ToyTxs.newNanoTX ToyTxs.stateF
                         ToyTxs.dbDown ToyTxs.cache7 ToyTxs.stale 0
                 = (ToyTxs.cache7, false, Some txs.errBadNonce))
    by (vm_compute; reflexivity).
  split; [exact HAdd |].
  exact (proj1 (proj2 (Add_rejected_leaves_no_trace ToyTxs.better
                         ToyTxs.newNanoTX ToyTxs.stateF ToyTxs.dbDown
                         ToyTxs.cache7 ToyTxs.stale 0 _ _ HAdd))).
Defined.

Lemma Add_to_full_account_witness :
  txs.Add ToyTxs.better ToyTxs.newNanoTX ToyTxs.stateF ToyTxs.dbDown
          ToyTxs.cache9 ToyTxs.beyond 0
  = (txs.mkCache (<[9 := txs.set_moreInDB true ToyTxs.account9]>
                    (txs.pending ToyTxs.cache9))
                 (txs.cachedTXs ToyTxs.cache9),
     true, Some (txs.errDB 1))
  /\ txs.MoreInDB
       (txs.mkCache (<[9 := txs.set_moreInDB true ToyTxs.account9]>
                       (txs.pending ToyTxs.cache9))
                    (txs.cachedTXs ToyTxs.cache9)) 9 = true.
Proof.
  apply (Add_to_full_account ToyTxs.better ToyTxs.newNanoTX ToyTxs.stateF
           ToyTxs.dbDown ToyTxs.cache9 ToyTxs.beyond 0 ToyTxs.account9).
  - reflexivity.
  - apply Nat.leb_le. vm_compute. reflexivity.
  - simpl. lia.
Defined.

Lemma Add_then_GetProjection_witness :
  txs.GetProjection ToyTxs.stateF
    (txs.Add ToyTxs.better ToyTxs.newNanoTX ToyTxs.stateF ToyTxs.dbDown
             ToyTxs.cache7 ToyTxs.fits 0).1.1 8
  = (6, 80).
Proof.
  destruct (Add_then_GetProjection ToyTxs.better ToyTxs.newNanoTX
              ToyTxs.stateF ToyTxs.dbDown ToyTxs.cache7 ToyTxs.fits 0)
    as (_ & _ & Hproj & _).
  - reflexivity.
  - apply Z.leb_le. vm_compute. reflexivity.
  - vm_compute. constructor.
  - apply Nat.ltb_lt. vm_compute. reflexivity.
  - apply Z.leb_le. vm_compute. reflexivity.
  - exact Hproj.
Defined.

Lemma BuildFromTXs_well_formed_witness :
  txs.nonce <$> txs.txsByNonce
    (default ToyTxs.fresh
       (txs.pending
          (txs.BuildFromTXs ToyTxs.better ToyTxs.newNanoTX ToyTxs.stateF
                            [7; 8] [8; 7] ToyTxs.cache9 ToyTxs.pendingTXs []).1
        !! 7)) = [5; 6]
  /\ txs.pending
       (txs.BuildFromTXs ToyTxs.better ToyTxs.newNanoTX ToyTxs.stateF
                         [7; 8] [8; 7] ToyTxs.cache9 ToyTxs.pendingTXs []).1
     !! 8 = None
  /\ (txs.BuildFromTXs ToyTxs.better ToyTxs.newNanoTX ToyTxs.stateF
                        [7; 8] [8; 7] ToyTxs.cache9 ToyTxs.pendingTXs []).2
     = None.
Proof.
  split; [vm_compute; reflexivity |]. split; [vm_compute; reflexivity |].
  apply (BuildFromTXs_well_formed ToyTxs.better ToyTxs.newNanoTX ToyTxs.stateF
           [7; 8] [8; 7] ToyTxs.cache9 ToyTxs.pendingTXs []).
  - intros mtx. simpl. lia.
  - intros mtx. reflexivity.
  - intros a. unfold txs.in_uint64. simpl. lia.
  - repeat (apply NoDup_cons_2;
            [rewrite ?elem_of_cons, elem_of_nil; lia |]).
    apply NoDup_nil_2.
  - intros a Ha. rewrite !elem_of_cons, elem_of_nil in Ha.
    destruct Ha as [-> | [-> | []]].
    + exists (txs.mkMeshTransaction (txs.mkTransaction 60 7 5 [Byte.x00]) 0 0 0).
      split; [apply elem_of_cons; left; reflexivity | reflexivity].
    + exists (txs.mkMeshTransaction (txs.mkTransaction 62 8 3 []) 0 0 0).
      split; [| reflexivity].
      apply elem_of_cons. right. apply elem_of_cons. right.
      apply elem_of_cons. left. reflexivity.
  - intros mtx Hm. unfold ToyTxs.pendingTXs in Hm.
    rewrite !elem_of_cons, elem_of_nil in Hm.
    destruct Hm as [-> | [-> | [-> | []]]]; simpl;
      rewrite !elem_of_cons; auto.
Defined.
